(** * Markov-chain discretisation, value-function iteration and simulation

    A shallow embedding of the numerical core of the two scripts
    [ps1_3cd.py] (Rouwenhorst discretisation and fixed-start simulation) and
    [ps1_5de.py] (Tauchen discretisation, intratemporal condition, value
    function iteration, forward simulation).

    Numbers are real numbers: every arithmetic operation of the scripts is
    read as the exact operation on [R], so rounding is not represented.  The
    values minus infinity and not-a-number, which the solver writes into its
    tables on purpose, are kept as constructors of [fval].

    Where rounding decides what the program does (the grids of [linspace],
    the row sums of [tauchen], the equality search of the simulator) the
    same code is read a second time in binary64, in module [B64]. *)

From Stdlib Require Import Floats.
From Stdlib Require Import Reals Lra Lia String Ascii Bool Arith List.
Import ListNotations.
Open Scope R_scope.

Set Implicit Arguments.
Set Warnings "-register-all".
Set Warnings "-inexact-float".

(** ** Part I: the programs *)

(** *** Arrays *)

Abbreviation vec := (list R).
Abbreviation mat := (list (list R)).

(** Outcome of a call that may raise.  [DiscretizationError] is the plain
    [Exception] that [tauchen] raises, with its message; [AttributeError]
    is what reading an attribute of [par] that was never set raises;
    [NonErgodicChainError] is the error the documentation of the simulator
    speaks of. *)
Inductive error : Type :=
  | RecursionError
  | DiscretizationError (msg : string)
  | AssertionError
  | AttributeError
  | NameError (name : string)
  | IndexError
  | ValueError
  | NonErgodicChainError.

Inductive result (A : Type) : Type :=
  | Ok (a : A)
  | Raise (e : error).
Arguments Raise {A} e.

Definition bind {A B : Type} (r : result A) (k : A -> result B) : result B :=
  match r with
  | Ok a => k a
  | Raise e => Raise e
  end.

Notation "x <- r ;; k" := (bind r (fun x => k))
  (at level 61, r at next level, right associativity).



(** The part of numpy the scripts use, on lists. *)
Module Np.

Definition zeros (r c : nat) : mat := repeat (repeat 0 c) r.

Definition vsum (v : vec) : R := fold_right Rplus 0 v.

(** [pmat.sum(axis=1)] *)
Definition sum_axis1 (A : mat) : vec := map vsum A.

Definition vadd (u v : vec) : vec :=
  map (fun ab => fst ab + snd ab) (combine u v).

Definition madd (A B : mat) : mat :=
  map (fun uv => vadd (fst uv) (snd uv)) (combine A B).

Definition vscale (s : R) (v : vec) : vec := map (Rmult s) v.

Definition scale (s : R) (A : mat) : mat := map (vscale s) A.

(** [np.block([[A, B]])]: rows side by side. *)
Definition hstack (A B : mat) : mat :=
  map (fun ab => fst ab ++ snd ab) (combine A B).

(** [np.block([[A, B], [C, D]])] *)
Definition block (A B C D : mat) : mat := hstack A B ++ hstack C D.

(** [A.T] for a matrix with [c] columns. *)
Definition transpose (c : nat) (A : mat) : mat :=
  map (fun k => map (fun row => nth k row 0) A) (seq 0 c).

(** [tile(expand_dims(y, axis=0), (N, 1))]: [N] copies of the row [y]. *)
Definition tile_rows (y : vec) (N : nat) : mat := repeat y N.

(** [count_nonzero] of a boolean array. *)
Definition count_nonzero (bs : list bool) : nat :=
  length (filter (fun b => b) bs).

(** [linspace(start, stop, num, endpoint=True, retstep=True)] in exact
    arithmetic: the points [arange(num) * step + start] with the last one
    set to [stop], and the step [(stop - start) / (num - 1)] for two points
    or more.  (With fewer numpy's step is not-a-number; callers that read
    the step do not come here with fewer.  [B64.linspace] is the same
    function in binary64, where neighbouring points can round to one.) *)
Definition linspace_step (start stop : R) (num : nat) : R :=
  (stop - start) / INR (num - 1).

Definition set_last (v : vec) (x : R) : vec :=
  match v with
  | [] => []
  | _ => removelast v ++ [x]
  end.

Definition linspace (start stop : R) (num : nat) : vec :=
  let step := linspace_step start stop num in
  let y := map (fun k => INR k * step + start) (seq 0 num) in
  if (1 <? num)%nat then set_last y stop else y.

(** [cumsum] of a row. *)
Fixpoint cumsum_from (acc : R) (v : vec) : vec :=
  match v with
  | [] => []
  | x :: v' => (acc + x) :: cumsum_from (acc + x) v'
  end.

Definition cumsum (v : vec) : vec := cumsum_from 0 v.

(** Matrix product and [matrix_power]. *)
Definition dot (u v : vec) : R := vsum (map (fun ab => fst ab * snd ab) (combine u v)).

Definition matmul (c : nat) (A B : mat) : mat :=
  map (fun row => map (dot row) (transpose c B)) A.

Definition eye (n : nat) : mat :=
  map (fun i => map (fun j => if (i =? j)%nat then 1 else 0) (seq 0 n)) (seq 0 n).

Fixpoint matrix_power (A : mat) (n : nat) : mat :=
  match n with
  | O => eye (length A)
  | S n' => matmul (length A) A (matrix_power A n')
  end.

End Np.

(** *** [ps1_3cd.py]: Rouwenhorst's method *)

(** [P[1:-1] /= 2]: the rows of index [1 .. len-2] are halved. *)
Definition halve_interior_rows (P : mat) : mat :=
  map (fun ir =>
         if ((1 <=? fst ir) && (fst ir <? length P - 1))%nat
         then map (fun x => x / 2) (snd ir)
         else snd ir)
      (combine (seq 0 (length P)) P).

(** One level of the recursion: the four weighted blocks around [P_prev], an
    [(N-1) x (N-1)] matrix. *)
Definition rouwenhorst_step (N : nat) (p : R) (P_prev : mat) : mat :=
  let z_col := Np.zeros (N - 1) 1 in
  let z_row := Np.zeros 1 (N - 1) in
  let z_one := Np.zeros 1 1 in
  let P :=
    Np.madd
      (Np.madd
         (Np.madd
            (Np.scale p (Np.block P_prev z_col z_row z_one))
            (Np.scale (1 - p) (Np.block z_col P_prev z_row z_one)))
         (Np.scale (1 - p) (Np.block z_one z_row P_prev z_col)))
      (Np.scale p (Np.block z_one z_row z_col P_prev)) in
  halve_interior_rows P.

(** [rouwenhorst(N, p)].  The recursion descends from [N] to [2]; [fuel]
    bounds its depth, and running out of it is Python's [RecursionError]
    (which is what happens for [N < 2], where [N == 2] is never met). *)
Fixpoint rouwenhorst (fuel : nat) (N : nat) (p : R) : result mat :=
  match fuel with
  | O => Raise RecursionError
  | S fuel' =>
      if (N =? 2)%nat then Ok [[p; 1 - p]; [1 - p; p]]
      else
        P_prev <- rouwenhorst fuel' (N - 1) p ;;
        Ok (rouwenhorst_step N p P_prev)
  end.

(** A matrix is row-stochastic. *)
Definition nonneg (x : R) : Prop := 0 <= x.

(** [row_facts N s v]: the row [v] has [N] entries, none negative, summing to [s]. *)
Definition row_facts (N : nat) (s : R) (v : vec) : Prop :=
  length v = N /\ Np.vsum v = s /\ Forall nonneg v.

Definition row_stochastic (N : nat) (P : mat) : Prop :=
  length P = N /\ Forall (row_facts N 1) P.

(** *** [ps1_5de.py], model: Tauchen's method *)

(** Elementwise combination of two arrays of the same shape. *)
Definition zip_with {A B C : Type} (f : A -> B -> C) (u : list A) (v : list B) : list C :=
  map (fun ab => f (fst ab) (snd ab)) (combine u v).

(** [row[k] = x] for [k] in range. *)
Definition set_nth (k : nat) (x : R) (row : vec) : vec :=
  if (k <? length row)%nat then firstn k row ++ x :: skipn (S k) row else row.

(** [A[:, k] = col] *)
Definition set_col (k : nat) (col : vec) (A : mat) : mat :=
  zip_with (fun row x => set_nth k x row) A col.

(** [stats.norm.cdf(x, loc=l, scale=s)]: the standard normal distribution
    function [Phi], which scipy supplies, at [(x - l) / s]. *)
Definition norm_cdf (Phi : R -> R) (x loc scale : R) : R := Phi ((x - loc) / scale).

(** The floor below which a row sum is reported. *)
Definition row_sum_floor : R := 999999 / 1000000.

(** [pmat.sum(axis=1) < 0.999999] *)
Definition below_floor (pmat : mat) : list bool :=
  map (fun s => if Rlt_dec s row_sum_floor then true else false) (Np.sum_axis1 pmat).

(** The grid and its step: [linspace(y1, yn, N, endpoint=True, retstep=True)];
    [(1.0 - rho**2.0)**(1/2)] is the square root. *)
Definition tauchen_grid (mu rho sigma : R) (N : nat) (m : R) : vec * R :=
  let ar_mean := mu / (1 - rho) in
  let ar_sd := sigma / sqrt (1 - rho ^ 2) in
  let y1 := ar_mean - m * ar_sd in
  let yn := ar_mean + m * ar_sd in
  (Np.linspace y1 yn N, Np.linspace_step y1 yn N).

(** The transition matrix before the row-sum check. *)
Definition tauchen_pmat (Phi : R -> R) (mu rho sigma : R) (N : nat) (y : vec) (d : R) : mat :=
  let ymatk := Np.tile_rows y N in
  let ymatj := map (map (fun x => mu + rho * x)) (Np.transpose N ymatk) in
  let pmat :=
    zip_with (zip_with (fun yk yj =>
                norm_cdf Phi yk (yj - d / 2) sigma - norm_cdf Phi yk (yj + d / 2) sigma))
             ymatk ymatj in
  let pmat :=
    set_col 0 (map (fun yj => norm_cdf Phi (nth 0 y 0) (mu + rho * yj - d / 2) sigma) y) pmat in
  set_col (N - 1)
    (map (fun yj => 1 - norm_cdf Phi (nth (N - 1) y 0) (mu + rho * yj + d / 2) sigma) y) pmat.

(** The final check of [tauchen] and its return value: the grid as a row
    vector and the matrix. *)
Definition tauchen_output (y : vec) (pmat : mat) : result (mat * mat) :=
  if (0 <? Np.count_nonzero (below_floor pmat))%nat
  then Raise (DiscretizationError "Some columns of transition matrix don't sum to 1.")
  else Ok ([y], pmat).

(** [tauchen(mu, rho, sigma, N, m)] in exact arithmetic.  An empty grid
    has no column [0] to write.  [None] for a single state: there the step
    of [linspace] is not-a-number and so is the matrix that is returned,
    which the reals cannot hold; [B64.tauchen] has that call. *)
Definition tauchen (Phi : R -> R) (mu rho sigma : R) (N : nat) (m : R)
  : option (result (mat * mat)) :=
  if (N =? 1)%nat then None
  else
    let (y, d) := tauchen_grid mu rho sigma N m in
    if (N =? 0)%nat then Some (Raise IndexError)
    else Some (tauchen_output y (tauchen_pmat Phi mu rho sigma N y d)).

(** *** [ps1_3cd.py]: the fixed-start simulation *)

(** numpy's generator is outside the scripts: its state is a type [rng],
    [seed_rng] is [np.random.seed], and [choice N p s] is
    [np.random.choice(N, p=p)] run in state [s], an index and the next state
    or numpy's [ValueError]. *)
Definition lookup {A : Type} (l : list A) (k : nat) : result A :=
  match nth_error l k with
  | Some a => Ok a
  | None => Raise IndexError
  end.

Section FixedStart.

Variable rng : Type.
Variable seed_rng : nat -> rng.
Variable choice : nat -> vec -> rng -> result (nat * rng).

(** [for t in range(1, T): states[t] = np.random.choice(N, p=P[states[t - 1]])] *)
Fixpoint simulate_states (P : mat) (N : nat) (steps : nat) (prev : nat) (s : rng)
  : result (list nat) :=
  match steps with
  | O => Ok []
  | S steps' =>
      row <- lookup P prev ;;
      ks <- choice N row s ;;
      rest <- simulate_states P N steps' (fst ks) (snd ks) ;;
      Ok (fst ks :: rest)
  end.

(** [y[states]] *)
Fixpoint take (y : vec) (states : list nat) : result vec :=
  match states with
  | [] => Ok []
  | k :: states' =>
      v <- lookup y k ;;
      rest <- take y states' ;;
      Ok (v :: rest)
  end.

(** [simulate_markov_chain_fixed_start(y, P, T, seed)]; [states[0] = 0]
    needs [T > 0]. *)
Definition simulate_markov_chain_fixed_start (y : vec) (P : mat) (T : nat) (seed : nat)
  : result vec :=
  let s := seed_rng seed in
  let N := length y in
  if (T =? 0)%nat then Raise IndexError
  else
    states <- simulate_states P N (T - 1) 0 s ;;
    take y (O :: states).

End FixedStart.

(** The module-level parameters of [ps1_3cd.py]. *)
Module Ps1_3cd.

Definition N : nat := 7.
Definition gamma1 : R := 85 / 100.
Definition sigma_epsilon : R := 1.
Definition mu : R := (5 / 10) / (1 - gamma1).
Definition sigma_y : R := sigma_epsilon / sqrt (1 - gamma1 ^ 2).
Definition c : R := sqrt (INR (N - 1)).

(** Discrete state space. *)
Definition y : vec := Np.linspace (mu - c * sigma_y) (mu + c * sigma_y) N.

Definition p : R := (1 + gamma1) / 2.
Definition P (fuel : nat) : result mat := rouwenhorst fuel N p.

Definition T : nat := 50.
Definition seed : nat := 2025.

End Ps1_3cd.

(** *** [ps1_3cd.py]: the script, statement by statement

    What running the file top to bottom depends on: which global names each
    module-level statement reads, in evaluation order, which it binds, and
    what it writes out.  A [def] binds its name without running its body;
    the names a called function reads are read at the call. *)

Inductive output : Type :=
  | Stdout
  | DataFile (name : string)
  | Figure.

Inductive stmt : Type :=
  | Simple (line : nat) (loads stores : list string) (outs : list output)
  | Def (line : nat) (name : string)
  | ForEach (line : nat) (iter_loads : list string) (target : string)
            (trips : nat) (body : list stmt).

Definition builtins : list string := ["range"; "len"; "print"]%string.

Definition bound (env : list string) (x : string) : bool :=
  existsb (String.eqb x) (env ++ builtins).

(** The first name of [loads] that is not bound. *)
Definition first_unbound (env : list string) (loads : list string) : option string :=
  find (fun x => negb (bound env x)) loads.

Record run_state : Type := {
  env : list string;
  trace : list output
}.

(** Running statements: the state reached, and the line and name of the
    [NameError] that stopped the run, if one did. *)
Definition outcome : Type := (run_state * option (nat * string))%type.

Fixpoint repeat_run (k : nat) (f : run_state -> outcome) (st : run_state) : outcome :=
  match k with
  | O => (st, None)
  | S k' =>
      match f st with
      | (st', None) => repeat_run k' f st'
      | failed => failed
      end
  end.

Fixpoint run_stmt (s : stmt) (st : run_state) {struct s} : outcome :=
  match s with
  | Simple line loads stores outs =>
      match first_unbound (env st) loads with
      | Some x => (st, Some (line, x))
      | None => ({| env := stores ++ env st; trace := trace st ++ outs |}, None)
      end
  | Def line name => ({| env := name :: env st; trace := trace st |}, None)
  | ForEach line iter_loads target trips body =>
      match first_unbound (env st) iter_loads with
      | Some x => (st, Some (line, x))
      | None =>
          repeat_run trips
            (fun st0 =>
               (fix run_block (b : list stmt) (st1 : run_state) {struct b} : outcome :=
                  match b with
                  | [] => (st1, None)
                  | s' :: b' =>
                      match run_stmt s' st1 with
                      | (st', None) => run_block b' st'
                      | failed => failed
                      end
                  end) body {| env := target :: env st0; trace := trace st0 |})
            st
      end
  end.

Fixpoint run (prog : list stmt) (st : run_state) : outcome :=
  match prog with
  | [] => (st, None)
  | s :: prog' =>
      match run_stmt s st with
      | (st', None) => run prog' st'
      | failed => failed
      end
  end.

(** Every name a program binds somewhere, reached or not. *)
Fixpoint stores_of (s : stmt) : list string :=
  match s with
  | Simple _ _ stores _ => stores
  | Def _ name => [name]
  | ForEach _ _ target _ body => target :: flat_map stores_of body
  end.

Local Open Scope string_scope.

(** [ps1_3cd.py]; [trips] stands for the length of [gamma_values]. *)
Definition ps1_3cd (trips : nat) : list stmt :=
  [ Simple 8 [] ["np"] [];
    Simple 9 [] ["pd"] [];
    Simple 10 [] ["plt"] [];
    Def 13 "rouwenhorst";
    Simple 34 [] ["N"] [];
    Simple 35 [] ["gamma1"] [];
    Simple 36 [] ["sigma_epsilon"] [];
    Simple 37 ["gamma1"] ["mu"] [];
    Simple 38 ["sigma_epsilon"; "np"; "gamma1"] ["sigma_y"] [];
    Simple 39 ["np"; "N"] ["c"] [];
    Simple 42 ["np"; "mu"; "c"; "sigma_y"; "N"] ["y"] [];
    Simple 45 ["gamma1"] ["p"] [];
    Simple 46 ["rouwenhorst"; "N"; "p"; "np"] ["P"] [];
    Simple 49 ["pd"; "P"; "range"; "N"] ["tm_085"] [];
    Simple 50 ["tm_085"; "np"; "y"] [] [];
    Simple 51 ["tm_085"] [] [DataFile "rouwenhorst_ar1_gamma_085.csv"];
    Simple 53 ["print"] [] [Stdout];
    Simple 54 ["print"; "y"] [] [Stdout];
    Simple 55 ["print"] [] [Stdout];
    Simple 56 ["print"; "tm_085"] [] [Stdout];
    Simple 57 ["np"; "y"] [] [DataFile "state_space.npy"];
    Simple 58 ["np"; "P"] [] [DataFile "transition_matrix.npy"];
    Simple 60 ["np"] ["y"] [];
    Simple 61 ["np"] ["P"] [];
    Simple 64 [] ["T"] [];
    Simple 65 ["simulate_markov_chain_fixed_start"; "y"; "P"; "T"]
              ["sim_data_fixed_start"] [];
    Simple 68 ["plt"] [] [Figure];
    Simple 69 ["plt"; "range"; "T"; "sim_data_fixed_start"; "gamma1"] [] [Figure];
    Simple 70 ["plt"] [] [Figure];
    Simple 71 ["plt"] [] [Figure];
    Simple 72 ["plt"] [] [Figure];
    Simple 73 ["plt"] [] [Figure];
    ForEach 76 ["gamma_values"] "gamma1" trips
      [ Simple 77 ["gamma1"] ["mu"] [];
        Simple 78 ["sigma_epsilon"; "np"; "gamma1"] ["sigma_y"] [];
        Simple 79 ["np"; "N"] ["c"] [];
        Simple 82 ["np"; "mu"; "c"; "sigma_y"; "N"] ["y"] [];
        Simple 85 ["gamma1"] ["p"] [];
        Simple 86 ["rouwenhorst"; "N"; "p"; "np"] ["P"] [];
        Def 89 "simulate_markov_chain_fixed_start";
        Simple 106 ["simulate_markov_chain_fixed_start"; "y"; "P"; "T"; "seed"; "np"; "len"; "range"]
                   ["sim_data"] [];
        Simple 109 ["plt"; "range"; "T"; "sim_data"; "gamma1"] [] [Figure] ];
    Simple 111 ["plt"] [] [Figure];
    Simple 112 ["plt"] [] [Figure];
    Simple 113 ["plt"] [] [Figure];
    Simple 114 ["plt"] [] [Figure];
    Simple 115 ["plt"] [] [Figure] ].

Local Close Scope string_scope.

Definition initial_state : run_state := {| env := []; trace := [] |}.

(** *** Floating values with their infinities

    The solver stores minus infinity in its tables and numpy (with
    [seterr(all='ignore')]) lets infinities and not-a-number through
    arithmetic.  [fval] keeps these special values; finite values are exact
    reals and zero has no sign. *)

Inductive fval : Type :=
  | NaN
  | NegInf
  | PosInf
  | Fin (r : R).

Definition fneg (a : fval) : fval :=
  match a with
  | NaN => NaN
  | NegInf => PosInf
  | PosInf => NegInf
  | Fin r => Fin (- r)
  end.

Definition fadd (a b : fval) : fval :=
  match a, b with
  | NaN, _ | _, NaN => NaN
  | PosInf, NegInf | NegInf, PosInf => NaN
  | PosInf, _ | _, PosInf => PosInf
  | NegInf, _ | _, NegInf => NegInf
  | Fin x, Fin y => Fin (x + y)
  end.

Definition fsub (a b : fval) : fval := fadd a (fneg b).

(** An infinity of sign [pos] times the finite [r]. *)
Definition inf_times (pos : bool) (r : R) : fval :=
  if Rlt_dec 0 r then (if pos then PosInf else NegInf)
  else if Rlt_dec r 0 then (if pos then NegInf else PosInf)
  else NaN.

Definition fmul (a b : fval) : fval :=
  match a, b with
  | NaN, _ | _, NaN => NaN
  | PosInf, PosInf | NegInf, NegInf => PosInf
  | PosInf, NegInf | NegInf, PosInf => NegInf
  | PosInf, Fin r | Fin r, PosInf => inf_times true r
  | NegInf, Fin r | Fin r, NegInf => inf_times false r
  | Fin x, Fin y => Fin (x * y)
  end.

Definition fdiv (a b : fval) : fval :=
  match a, b with
  | NaN, _ | _, NaN => NaN
  | PosInf, PosInf | PosInf, NegInf | NegInf, PosInf | NegInf, NegInf => NaN
  | Fin _, PosInf | Fin _, NegInf => Fin 0
  | PosInf, Fin r => if Rlt_dec r 0 then NegInf else PosInf
  | NegInf, Fin r => if Rlt_dec r 0 then PosInf else NegInf
  | Fin x, Fin y =>
      if Req_dec_T y 0
      then (if Rlt_dec 0 x then PosInf else if Rlt_dec x 0 then NegInf else NaN)
      else Fin (x / y)
  end.

Declare Scope fval_scope.
Delimit Scope fval_scope with fval.
Infix "+" := fadd : fval_scope.
Infix "-" := fsub : fval_scope.
Infix "*" := fmul : fval_scope.
Infix "/" := fdiv : fval_scope.

(** [a < b], [a <= b], [a > b]: false as soon as one side is not a number. *)
Definition fltb (a b : fval) : bool :=
  match a, b with
  | NaN, _ | _, NaN => false
  | _, NegInf => false
  | NegInf, _ => true
  | PosInf, _ => false
  | Fin _, PosInf => true
  | Fin x, Fin y => if Rlt_dec x y then true else false
  end.

Definition fleb (a b : fval) : bool :=
  match a, b with
  | NaN, _ | _, NaN => false
  | NegInf, _ => true
  | _, PosInf => true
  | _, NegInf => false
  | PosInf, _ => false
  | Fin x, Fin y => if Rle_dec x y then true else false
  end.

Definition fgtb (a b : fval) : bool := fltb b a.

Definition is_int (e : R) : bool :=
  if Req_dec_T (IZR (Int_part e)) e then true else false.

(** [a ** e] for a finite exponent. *)
Definition fpow (a : fval) (e : R) : fval :=
  if Req_dec_T e 0 then Fin 1
  else
    match a with
    | NaN => NaN
    | PosInf => if Rlt_dec 0 e then PosInf else Fin 0
    | NegInf =>
        if Rlt_dec 0 e
        then (if is_int e && Z.odd (Int_part e) then NegInf else PosInf)
        else Fin 0
    | Fin x =>
        if Rlt_dec 0 x then Fin (Rpower x e)
        else if Req_dec_T x 0 then (if Rlt_dec 0 e then Fin 0 else PosInf)
        else if is_int e
             then Fin ((if Z.odd (Int_part e) then -1 else 1) * Rpower (- x) e)
             else NaN
    end.

Definition flog (a : fval) : fval :=
  match a with
  | NaN | NegInf => NaN
  | PosInf => PosInf
  | Fin x => if Rlt_dec 0 x then Fin (ln x) else if Req_dec_T x 0 then NegInf else NaN
  end.

Definition fsqrt (a : fval) : fval :=
  match a with
  | NaN | NegInf => NaN
  | PosInf => PosInf
  | Fin x => if Rlt_dec x 0 then NaN else Fin (sqrt x)
  end.

Abbreviation ftable := (list (list fval)).
Abbreviation cube := (list (list (list R))).

(** [max(vall)], Python's builtin: keep the first value that no later one
    exceeds. *)
Fixpoint py_max_from (m : fval) (l : list fval) : fval :=
  match l with
  | [] => m
  | x :: l' => py_max_from (if fgtb x m then x else m) l'
  end.

Definition py_max (l : list fval) : fval :=
  match l with
  | [] => NaN
  | x :: l' => py_max_from x l'
  end.

(** [argmax(vall)]: the first index of the largest value, a not-a-number
    counting as largest. *)
Fixpoint argmax_from (best : nat) (m : fval) (i : nat) (l : list fval) : nat :=
  match l with
  | [] => best
  | x :: l' =>
      match m with
      | NaN => best
      | _ => if fleb x m then argmax_from best m (S i) l' else argmax_from i x (S i) l'
      end
  end.

Definition argmax (l : list fval) : nat :=
  match l with
  | [] => O
  | x :: l' => argmax_from O x 1 l'
  end.

(** The value at the index [argmax_from] settles on, when the running
    maximum [m] sits at the running index. *)
Fixpoint argmax_val_from (m : fval) (l : list fval) : fval :=
  match l with
  | [] => m
  | x :: l' =>
      match m with
      | NaN => m
      | _ => if fleb x m then argmax_val_from m l' else argmax_val_from x l'
      end
  end.

(** [norm(a)] of a matrix: the root of the sum of squares. *)
Definition norm (a : ftable) : fval :=
  fsqrt (fold_left (fun acc x => (acc + x * x)%fval) (concat a) (Fin 0)).

(** [v @ w] for a row [v] of values and a row [w] of probabilities. *)
Definition fdot (v : list fval) (w : vec) : fval :=
  fold_left fadd (zip_with (fun x p => (x * Fin p)%fval) v w) (Fin 0).

(** *** [ps1_5de.py], model: utility *)

(** [util(c, n, sigma, nu, gamma)] *)
Definition util (c : fval) (n sigma nu gamma : R) : fval :=
  let un := (fpow (Fin (1 - n)) (1 + 1 / nu) / Fin (1 + 1 / nu))%fval in
  let uc :=
    if Req_dec_T sigma 1 then flog c
    else (fpow c (1 - sigma) / Fin (1 - sigma))%fval in
  (uc + Fin gamma * un)%fval.

(** *** [ps1_5de.py], solve: the intratemporal condition *)

(** [intra_foc(n, kp, A, k, alpha, delta, sigma, nu, gamma)]: the residual of
    the labor first-order condition. *)
Definition intra_foc (n kp A k alpha delta sigma nu gamma : R) : fval :=
  let c := (Fin A * fpow (Fin k) alpha * fpow (Fin n) (1 - alpha)
            + Fin ((1 - delta) * k - kp))%fval in
  let mpl := (Fin (A * (1 - alpha)) * fpow (Fin k / Fin n) alpha)%fval in
  let un := (Fin (- gamma) * fpow (Fin (1 - n)) (1 / nu))%fval in
  let uc := if Req_dec_T sigma 1 then (Fin 1 / c)%fval else fpow c (- sigma) in
  (uc * mpl + un)%fval.

(** *** [ps1_5de.py], model: parameters and grids *)

(** An attribute that [setup] itself never assigns ([main], [figout]): not
    set at all, set to [None], or set to a path. *)
Inductive attribute : Type :=
  | Unset
  | IsNone
  | Given (path : string).

(** The attributes of [par] that [setup] assigns before it builds the grids;
    keyword arguments overwrite them and add [main] and [figout]. *)
Record config : Type := {
  cfg_beta : R;
  cfg_sigma : R;
  cfg_gamma : R;
  cfg_nu : R;
  cfg_alpha : R;
  cfg_delta : R;
  cfg_sigma_eps : R;
  cfg_rho : R;
  cfg_mu : R;
  cfg_seed_sim : nat;
  cfg_T : nat;
  cfg_kss : R;
  cfg_klen : nat;
  cfg_kmax : R;
  cfg_kmin : R;
  cfg_Alen : nat;
  cfg_m : R;
  cfg_main : attribute;
  cfg_figout : attribute
}.

(** Steady-state capital at the default preferences and technology. *)
Definition default_kss : R :=
  Rpower ((33 / 100) / (1 / (96 / 100) - 1 + 5 / 100)) (1 / (1 - 33 / 100)).

Definition default_config : config := {|
  cfg_beta := 96 / 100;
  cfg_sigma := 2;
  cfg_gamma := 1;
  cfg_nu := 4 / 100;
  cfg_alpha := 33 / 100;
  cfg_delta := 5 / 100;
  cfg_sigma_eps := 7 / 100;
  cfg_rho := 90 / 100;
  cfg_mu := 0;
  cfg_seed_sim := 2025;
  cfg_T := 100;
  cfg_kss := default_kss;
  cfg_klen := 300;
  cfg_kmax := 125 / 100 * default_kss;
  cfg_kmin := 75 / 100 * default_kss;
  cfg_Alen := 7;
  cfg_m := 3;
  cfg_main := Unset;
  cfg_figout := Unset
|}.

(** [par] once [setup] has run. *)
Record params : Type := {
  beta : R;
  sigma : R;
  gamma : R;
  nu : R;
  alpha : R;
  delta : R;
  seed_sim : nat;
  T : nat;
  klen : nat;
  kgrid : vec;
  Alen : nat;
  Agrid : mat;
  pmat : mat
}.

Definition Rltb (a b : R) : bool := if Rlt_dec a b then true else false.
Definition Rleb (a b : R) : bool := if Rle_dec a b then true else false.

(** The [assert] statements of [setup], in order. *)
Definition setup_asserts (c : config) : bool :=
  match cfg_main c with Given _ => true | _ => false end
  && match cfg_figout c with Given _ => true | _ => false end
  && (Rltb 0 (cfg_beta c) && Rltb (cfg_beta c) 1)
  && Rleb 1 (cfg_sigma c)
  && Rltb 0 (cfg_gamma c)
  && Rltb 0 (cfg_nu c)
  && (Rltb 0 (cfg_alpha c) && Rltb (cfg_alpha c) 1)
  && (Rleb 0 (cfg_delta c) && Rleb (cfg_delta c) 1)
  && Rltb 0 (cfg_sigma_eps c)
  && Rltb (Rabs (cfg_rho c)) 1
  && (3 <? cfg_Alen c)%nat
  && Rltb 0 (cfg_m c)
  && (5 <? cfg_klen c)%nat
  && Rltb (cfg_kmin c) (cfg_kmax c).

(** What the first [assert] that does not pass raises: [par.main] and
    [par.figout] exist only when a keyword set them, so reading them comes
    before comparing them with [None]. *)
Definition setup_error (c : config) : error :=
  match cfg_main c, cfg_figout c with
  | Unset, _ => AttributeError
  | IsNone, _ => AssertionError
  | Given _, Unset => AttributeError
  | Given _, _ => AssertionError
  end.

(** [setup] with its keyword arguments: [kwargs] rewrites the defaults, the
    asserts are checked, then the capital grid and the productivity chain
    are built, here in exact arithmetic.  The asserts leave more than three
    states, so [tauchen] is never called with one: the branch for it is not
    reached.  (In binary64 the call of [tauchen] can raise for parameters
    the asserts accept, and the capital grid can repeat points: see
    [B64.tauchen] and [B64.kgrid].) *)
Definition setup (Phi : R -> R) (kwargs : config -> config) : result params :=
  let c := kwargs default_config in
  if negb (setup_asserts c) then Raise (setup_error c)
  else
    match tauchen Phi (cfg_mu c) (cfg_rho c) (cfg_sigma_eps c) (cfg_Alen c) (cfg_m c) with
    | None => Raise AssertionError
    | Some r =>
        ap <- r ;;
        Ok {| beta := cfg_beta c;
              sigma := cfg_sigma c;
              gamma := cfg_gamma c;
              nu := cfg_nu c;
              alpha := cfg_alpha c;
              delta := cfg_delta c;
              seed_sim := cfg_seed_sim c;
              T := cfg_T c;
              klen := cfg_klen c;
              kgrid := Np.linspace (cfg_kmin c) (cfg_kmax c) (cfg_klen c);
              Alen := cfg_Alen c;
              Agrid := map (map exp) (fst ap);
              pmat := snd ap |}
    end.

(** *** [ps1_5de.py], solve: value function iteration *)

(** The policy and value functions [sol]. *)
Record solution : Type := {
  sol_y : ftable;
  sol_k : mat;
  sol_n : mat;
  sol_i : mat;
  sol_c : ftable;
  sol_v : ftable
}.

(** An array filled cell by cell by the loops over [range(klen)] and
    [range(Alen)]. *)
Definition table {X : Type} (rows cols : nat) (f : nat -> nat -> X) : list (list X) :=
  map (fun p => map (fun j => f p j) (seq 0 cols)) (seq 0 rows).

(** [c[c < 0.0] = 0.0] and [v[c <= 0.0] = -inf], for one cell. *)
Definition clamp0 (c : fval) : fval := if fltb c (Fin 0) then Fin 0 else c.
Definition mask_infeasible (c v : fval) : fval := if fleb c (Fin 0) then NegInf else v.

(** The arrays have the shapes the loops were written for: [klen] capital
    points, two at least ([n0[:, 1, :]]); a first row of [Agrid] with [Alen]
    productivity levels; a row of [Alen] probabilities for each of them;
    and not exactly one productivity state, for which [squeeze] drops the
    productivity axis of [n0[:, 1, :]] and the first guess [v0] comes out
    [klen x klen]. *)
Definition shapes_ok (par : params) : bool :=
  (2 <=? klen par)%nat
  && (length (kgrid par) =? klen par)%nat
  && (length (nth 0 (Agrid par) []) =? Alen par)%nat
  && (Alen par <=? length (pmat par))%nat
  && forallb (fun row => (length row =? Alen par)%nat) (firstn (Alen par) (pmat par))
  && negb (Alen par =? 1)%nat
  && negb (length (Agrid par) =? 0)%nat.

(** numpy broadcasts two extents when they are equal or one of them is 1. *)
Definition broadcastable (a b : nat) : bool :=
  ((a =? b) || (a =? 1) || (b =? 1))%nat.

(** [pmat[j, :]] for [j] in [range(Alen)], as the first pass reads them
    into [v0 @ pmat[j, :].T]: a missing row is an [IndexError], a row that
    has not [Alen] entries a [ValueError] of the product. *)
Fixpoint first_bad_row (Alen : nat) (rows : mat) (left : nat) : option error :=
  match left with
  | O => None
  | S left' =>
      match rows with
      | [] => Some IndexError
      | row :: rows' =>
          if (length row =? Alen)%nat then first_bad_row Alen rows' left'
          else Some ValueError
      end
  end.

(** With other shapes: the first statement of [plan_allocations] that
    raises, and what it raises.  In source order: [par.Agrid[0]] needs a
    row (line 265); the labor loops read [kgrid[h2]], [Agrid[h3]] and
    [kgrid[h1]] up to [klen] and [Alen] (line 282, [IndexError] for a
    shorter array); [Amat*(kmat**alpha)] broadcasts [(klen, len(Agrid))]
    with [(len(kgrid), Alen)] (line 292, [ValueError] for a longer array);
    [n0[:,1,:]] needs two capital points (line 292); and the first pass
    multiplies [v0] with the rows [pmat[j,:]] (line 320), [v0] being [klen
    x klen] when there is a single productivity state.  [None] where numpy
    broadcasts the arrays into shapes the loops were not written for (an
    array whose length differs from [klen] or [Alen] and still combines);
    such a run is not modelled. *)
Definition shape_failure (par : params) : option error :=
  match Agrid par with
  | [] => Some IndexError
  | Arow :: _ =>
      let K := klen par in
      let A := Alen par in
      let Lk := length (kgrid par) in
      let La := length Arow in
      if ((1 <=? K) && (1 <=? A) && ((Lk <? K) || (La <? A)))%nat
      then Some IndexError
      else if negb (broadcastable K Lk && broadcastable La A)
      then Some ValueError
      else if (K <? 2)%nat then Some IndexError
      else if negb ((Lk =? K) && (La =? A))%nat then None
      else if (A =? 1)%nat then
        match pmat par with
        | [] => Some IndexError
        | row :: _ => if (length row =? K)%nat then None else Some ValueError
        end
      else first_bad_row A (pmat par) A
  end.

Section Solve.

(** [scipy.optimize.fminbound(func, x1, x2)], the bounded scalar minimizer
    which scipy supplies. *)
Variable fminbound : (R -> fval) -> R -> R -> R.

Variable par : params.

Let kg (p : nat) : R := nth p (kgrid par) 0.
Let Ag (j : nat) : R := nth j (nth 0 (Agrid par) []) 0.

(** The labor table [n0[h1, h2, h3]]: capital state, capital choice,
    productivity state. *)
Definition labor_table : cube :=
  map (fun h1 =>
    map (fun h2 =>
      map (fun h3 =>
        fminbound
          (fun n => intra_foc n (kg h2) (Ag h3) (kg h1)
                      (alpha par) (delta par) (sigma par) (nu par) (gamma par))
          0 1)
        (seq 0 (Alen par)))
      (seq 0 (klen par)))
    (seq 0 (klen par)).

Definition n_at (n0 : cube) (h1 h2 h3 : nat) : R := nth h3 (nth h2 (nth h1 n0 []) []) 0.

(** Output [A * k**alpha * n**(1 - alpha)]. *)
Definition output_of (A k n : R) : fval :=
  (Fin A * fpow (Fin k) (alpha par) * fpow (Fin n) (1 - alpha par))%fval.

(** The first guess [v0]: stay at the current capital for ever, with the
    labor of the second capital choice. *)
Definition initial_guess (n0 : cube) : ftable :=
  table (klen par) (Alen par) (fun p j =>
    let y0 := output_of (Ag j) (kg p) (n_at n0 p 1 j) in
    let i0 := delta par * kg p in
    let c0 := clamp0 (y0 - Fin i0)%fval in
    mask_infeasible c0
      (util c0 (n_at n0 p 1 j) (sigma par) (nu par) (gamma par) / Fin (1 - beta par))%fval).

(** [vall], the value of every capital choice in state ([p], [j]). *)
Definition choice_values (n0 : cube) (v0 : ftable) (p j : nat) : list fval :=
  let n_pj := map (fun h2 => n_at n0 p h2 j) (seq 0 (klen par)) in
  let y := map (fun n => output_of (Ag j) (kg p) n) n_pj in
  let i := map (fun kp => kp - (1 - delta par) * kg p) (kgrid par) in
  let c := zip_with (fun y i => clamp0 (y - Fin i)%fval) y i in
  let ev := map (fun row => fdot row (nth j (pmat par) [])) v0 in
  let vall :=
    zip_with (fun cn ev => (util (fst cn) (snd cn) (sigma par) (nu par) (gamma par)
                            + Fin (beta par) * ev)%fval)
             (combine c n_pj) ev in
  zip_with mask_infeasible c vall.

(** What one pass of the loop body leaves: [v0], the tables [v1], [k1],
    [n1] of the last pass (none before the first), [diff] and [iter]. *)
Record vfi_state : Type := {
  v0 : ftable;
  last_pass : option (ftable * mat * mat);
  diff : fval;
  iter : nat
}.

Definition crit : R := 1 / 1000000.
Definition maxiter : nat := Z.to_nat 10000.

(** [(diff > crit) and (iter < maxiter)] *)
Definition loop_test (st : vfi_state) : bool :=
  fgtb (diff st) (Fin crit) && (iter st <? maxiter)%nat.

Definition loop_body (n0 : cube) (st : vfi_state) : vfi_state :=
  let vall := choice_values n0 (v0 st) in
  let v1 := table (klen par) (Alen par) (fun p j => py_max (vall p j)) in
  let k1 := table (klen par) (Alen par) (fun p j => kg (argmax (vall p j))) in
  let n1 := table (klen par) (Alen par) (fun p j => n_at n0 p (argmax (vall p j)) j) in
  {| v0 := v1;
     last_pass := Some (v1, k1, n1);
     diff := norm (zip_with (zip_with fsub) v1 (v0 st));
     iter := S (iter st) |}.

(** A [while] loop; [None] when [fuel] passes are not enough to leave it. *)
Fixpoint while_loop {S : Type} (fuel : nat) (test : S -> bool) (body : S -> S) (st : S)
  : option S :=
  match fuel with
  | O => None
  | Datatypes.S fuel' =>
      if test st then while_loop fuel' test body (body st) else Some st
  end.

(** The tables built after the loop from [v1], [k1], [n1]. *)
Definition policy_tables (v1 : ftable) (k1 n1 : mat) : solution :=
  let at_cell (t : mat) (p j : nat) : R := nth j (nth p t []) 0 in
  let y := table (klen par) (Alen par) (fun p j => output_of (Ag j) (kg p) (at_cell n1 p j)) in
  let i := table (klen par) (Alen par) (fun p j => at_cell k1 p j - (1 - delta par) * kg p) in
  let c := zip_with (zip_with (fun y i => clamp0 (y - Fin i)%fval)) y i in
  {| sol_y := y;
     sol_k := k1;
     sol_n := n1;
     sol_i := i;
     sol_c := c;
     sol_v := zip_with (zip_with mask_infeasible) c v1 |}.

Definition initial_vfi_state (n0 : cube) : vfi_state :=
  {| v0 := initial_guess n0; last_pass := None; diff := Fin 1; iter := O |}.

(** [plan_allocations(myClass)]; [None] when [fuel] passes do not end the
    loop, and for the shapes [shape_failure] leaves out. *)
Definition plan_allocations (fuel : nat) : option (result solution) :=
  if negb (shapes_ok par)
  then match shape_failure par with Some e => Some (Raise e) | None => None end
  else
    let n0 := labor_table in
    match while_loop fuel loop_test (loop_body n0) (initial_vfi_state n0) with
    | None => None
    | Some st =>
        match last_pass st with
        | None => Some (Raise (NameError "n1"))
        | Some (v1, k1, n1) => Some (Ok (policy_tables v1 k1 n1))
        end
    end.

End Solve.

(** *** [ps1_5de.py], simulate *)

(** One simulated period. *)
Record period : Type := {
  per_A : R;
  per_y : fval;
  per_k : R;
  per_c : fval;
  per_n : R;
  per_i : R;
  per_u : fval
}.

(** The retained half of the simulation, [sim]. *)
Record simulation : Type := {
  sim_gamma_series : vec;
  Asim : vec;
  ysim : list fval;
  ksim : vec;
  csim : list fval;
  nsim : vec;
  isim : vec;
  usim : list fval
}.

(** [where(x == kgrid)]: the indices of the grid points equal to [x]. *)
Definition where_eq (x : R) (grid : vec) : list nat :=
  map fst (filter (fun ig => if Req_dec_T x (snd ig) then true else false)
                  (combine (seq 0 (length grid)) grid)).

(** [where(u <= cum)[0][0]]: the first index whose cumulative probability
    reaches the draw. *)
Definition first_reached (u : R) (cum : vec) : result nat :=
  match filter (fun ic => Rleb u (snd ic)) (combine (seq 0 (length cum)) cum) with
  | [] => Raise IndexError
  | ic :: _ => Ok (fst ic)
  end.

(** [matrix_power(pmat, 1000)[0, :]] *)
Definition stationary_row (pmat : mat) : result vec :=
  lookup (Np.matrix_power pmat 1000) 0.

Section Simulate.

(** The generator of [numpy.random], which numpy supplies: [seed],
    [choice(range(N), 1, p=p)], [choice(range(N), 1)] and [rand(1)].  A
    [choice] that numpy refuses ([ValueError]) is [None]. *)
Variable rng : Type.
Variable seed_rng : nat -> rng.
Variable choice_p : nat -> vec -> rng -> option (nat * rng).
Variable choice_uniform : nat -> rng -> option (nat * rng).
Variable rand : rng -> R * rng.

Variable par : params.
Variable sol : solution.

Definition draw (r : option (nat * rng)) : result (nat * rng) :=
  match r with
  | Some ks => Ok ks
  | None => Raise ValueError
  end.

(** [gamma_base + 0.3 * sin(linspace(0, 4 * pi, 2 * T))] *)
Definition gamma_series : vec :=
  map (fun x => gamma par + 3 / 10 * sin x) (Np.linspace 0 (4 * PI) (2 * T par)).

Definition cell {X : Type} (t : list (list X)) (p j : nat) : result X :=
  row <- lookup t p ;; lookup row j.

(** The values of period [j] read from the policy tables at capital index
    [kt] and productivity index [At]. *)
Definition period_at (kt At j : nat) : result period :=
  A <- lookup (nth 0 (Agrid par) []) At ;;
  y <- cell (sol_y sol) kt At ;;
  c <- cell (sol_c sol) kt At ;;
  n <- cell (sol_n sol) kt At ;;
  k <- cell (sol_k sol) kt At ;;
  i <- cell (sol_i sol) kt At ;;
  g <- lookup gamma_series j ;;
  Ok {| per_A := A; per_y := y; per_k := k; per_c := c; per_n := n; per_i := i;
        per_u := util c n (sigma par) (nu par) g |}.

(** The index of the capital chosen in the previous period; the tables can
    only be read at it when exactly one grid point matches. *)
Definition capital_index (k_prev : R) : result nat :=
  match where_eq k_prev (kgrid par) with
  | [kt] => Ok kt
  | _ => Raise ValueError
  end.

(** The next productivity index. *)
Definition next_A (cmat : mat) (At : nat) (s : rng) : result (nat * rng) :=
  row <- lookup cmat At ;;
  At' <- first_reached (fst (rand s)) row ;;
  Ok (At', snd (rand s)).

(** [for j in range(1, 2 * T)], from period [j] on for [steps] periods. *)
Fixpoint sim_loop (cmat : mat) (steps j : nat) (k_prev : R) (At : nat) (s : rng)
  : result (list period) :=
  match steps with
  | O => Ok []
  | S steps' =>
      kt <- capital_index k_prev ;;
      per <- period_at kt At j ;;
      nx <- next_A cmat At s ;;
      rest <- sim_loop cmat steps' (S j) (per_k per) (fst nx) (snd nx) ;;
      Ok (per :: rest)
  end.

(** All [2 * T] periods. *)
Definition simulate_periods : result (list period) :=
  let s := seed_rng (seed_sim par) in
  pmat0 <- stationary_row (pmat par) ;;
  let cmat := map Np.cumsum (pmat par) in
  a0 <- draw (choice_p (Alen par) pmat0 s) ;;
  k0 <- draw (choice_uniform (klen par) (snd a0)) ;;
  if (2 * T par =? 0)%nat then Raise IndexError
  else
    per0 <- period_at (fst k0) (fst a0) 0 ;;
    nx <- next_A cmat (fst a0) (snd k0) ;;
    rest <- sim_loop cmat (2 * T par - 1) 1 (per_k per0) (fst nx) (snd nx) ;;
    Ok (per0 :: rest).

(** [grow_economy(myClass)]: the second half of the periods. *)
Definition grow_economy : result simulation :=
  periods <- simulate_periods ;;
  let kept := skipn (T par) periods in
  Ok {| sim_gamma_series := skipn (T par) gamma_series;
        Asim := map per_A kept;
        ysim := map per_y kept;
        ksim := map per_k kept;
        csim := map per_c kept;
        nsim := map per_n kept;
        isim := map per_i kept;
        usim := map per_u kept |}.

End Simulate.

(** *** Predicates on tables and periods *)

(** A value table with a cell for every state. *)
Definition full_table (par : params) (t : ftable) : Prop :=
  exists f : nat -> nat -> fval, t = table (klen par) (Alen par) f.

(** A period whose output, consumption and investment are read from one
    cell of the policy tables. *)
Definition from_cell (sol : solution) (per : period) : Prop :=
  exists kt At : nat,
    cell (sol_y sol) kt At = Ok (per_y per) /\
    cell (sol_c sol) kt At = Ok (per_c per) /\
    cell (sol_i sol) kt At = Ok (per_i per).

(** *** Instances to run the programs with *)

(** A distribution function: the ramp from 0 at -1 to 1 at 1. *)
Definition ramp_cdf (x : R) : R := Rmax 0 (Rmin 1 ((x + 1) / 2)).

(** A generator whose state is a counter: the draw of an index is the
    counter modulo the number of outcomes, the uniform draw is 1/2. *)
Definition counter_choice (N : nat) (p : vec) (s : nat) : result (nat * nat) :=
  Ok ((s mod N)%nat, S s).

Definition counter_choice_p (N : nat) (p : vec) (s : nat) : option (nat * nat) :=
  if (N =? 0)%nat then None else Some ((s mod N)%nat, S s).

Definition counter_choice_uniform (N : nat) (s : nat) : option (nat * nat) :=
  if (N =? 0)%nat then None else Some ((s mod N)%nat, S s).

Definition counter_rand (s : nat) : R * nat := (1 / 2, S s).

(** A minimizer that answers 1/4 whatever it is asked. *)
Definition fminbound_quarter (f : R -> fval) (a b : R) : R := 1 / 4.

(** The keyword arguments of [run_colab.py]: the two paths, and the
    preferences at their defaults. *)
Definition kwargs_colab (c : config) : config := {|
  cfg_beta := 96 / 100;
  cfg_sigma := 2;
  cfg_gamma := cfg_gamma c;
  cfg_nu := cfg_nu c;
  cfg_alpha := cfg_alpha c;
  cfg_delta := cfg_delta c;
  cfg_sigma_eps := cfg_sigma_eps c;
  cfg_rho := cfg_rho c;
  cfg_mu := cfg_mu c;
  cfg_seed_sim := cfg_seed_sim c;
  cfg_T := cfg_T c;
  cfg_kss := cfg_kss c;
  cfg_klen := cfg_klen c;
  cfg_kmax := cfg_kmax c;
  cfg_kmin := cfg_kmin c;
  cfg_Alen := cfg_Alen c;
  cfg_m := cfg_m c;
  cfg_main := Given "."%string;
  cfg_figout := Given "output/figures"%string
|}.

(** A model whose first capital point and productivity state are 1, with
    [alpha = 1/2], [delta = 0], [sigma = 1], [nu = 1], [gamma = 8]. *)
Definition par_unit : params := {|
  beta := 96 / 100;
  sigma := 1;
  gamma := 8;
  nu := 1;
  alpha := 1 / 2;
  delta := 0;
  seed_sim := 2025;
  T := 100;
  klen := 2;
  kgrid := [1; 2];
  Alen := 1;
  Agrid := [[1]];
  pmat := [[1]]
|}.

(** The intratemporal residual at [k = k' = A = 1], [alpha = 1/2],
    [delta = 0], [sigma = 1], [nu = 1], [gamma = 8]. *)
Definition foc_at_unit (n : R) : fval := intra_foc n 1 1 1 (1 / 2) 0 1 1 8.

(** Parameters with two capital points and a single productivity state, to
    evaluate the formulas of the program at.  ([plan_allocations] does not
    solve a model with one productivity state: see [shapes_ok].) *)
Definition par_two_points : params := {|
  beta := 1 / 2;
  sigma := 2;
  gamma := 1;
  nu := 1;
  alpha := 1 / 2;
  delta := 0;
  seed_sim := 2025;
  T := 1;
  klen := 2;
  kgrid := [1; 4];
  Alen := 1;
  Agrid := [[2]];
  pmat := [[1]]
|}.

(** The leisure term of [util] at [n = 1/4], [nu = 1]. *)
Definition leisure_quarter : R := Rpower (1 - 1 / 4) (1 + 1 / 1) / (1 + 1 / 1).

(** The chain that never leaves its state. *)
Definition identity2 : mat := [[1; 0]; [0; 1]].

(** A model with two capital points whose productivity never leaves its
    state, patient enough to stay at either capital point: its iteration
    converges in one pass. *)
Definition par_identity : params := {|
  beta := 96 / 100;
  sigma := 2;
  gamma := 1;
  nu := 1;
  alpha := 1 / 2;
  delta := 0;
  seed_sim := 2025;
  T := 1;
  klen := 2;
  kgrid := [1; 4];
  Alen := 2;
  Agrid := [[1; 2]];
  pmat := identity2
|}.

(** The value, capital and labor tables of [par_identity] when labor is 1/4
    everywhere and capital stays where it is. *)
Definition identity_values : ftable :=
  [[Fin (25 * (leisure_quarter - 2)); Fin (25 * (leisure_quarter - 1))];
   [Fin (25 * (leisure_quarter - 1)); Fin (25 * (leisure_quarter - / 2))]].

Definition identity_capital : mat := [[1; 1]; [4; 4]].

Definition identity_labor : mat := [[1 / 4; 1 / 4]; [1 / 4; 1 / 4]].

(** *** Entries of a matrix, binomial coefficients *)

(** [P[i, j]], and 0 outside the matrix. *)
Definition entry (P : mat) (i j : nat) : R := nth j (nth i P []) 0.

(** The binomial coefficient, by Pascal's rule. *)
Fixpoint binom (n k : nat) : nat :=
  match n, k with
  | _, O => 1
  | O, S _ => 0
  | S n', S k' => binom n' k' + binom n' (S k')
  end.

(** [follows par sol k per]: the period [per] is read from the row of the
    policy tables that the search for the capital [k] finds. *)
Definition follows (par : params) (sol : solution) (k : R) (per : period) : Prop :=
  exists kt At : nat,
    capital_index par k = Ok kt /\
    cell (sol_y sol) kt At = Ok (per_y per) /\
    cell (sol_c sol) kt At = Ok (per_c per) /\
    cell (sol_k sol) kt At = Ok (per_k per) /\
    cell (sol_i sol) kt At = Ok (per_i per).

(** *** [ps1_5de.py], parts (D) and (E): paths with a given saving rule

    The two module-level loops that follow the run of the model: capital
    starts at [kss], labor is fixed at 1, and investment is a share of
    output, the observed saving rate in part (D) and one quarter in part
    (E). *)

(** What one pass of either loop appends to its lists. *)
Record path_period : Type := {
  pp_y : fval;
  pp_k : fval;
  pp_c : fval;
  pp_n : R;
  pp_i : fval;
  pp_u : fval
}.

(** [y = A * (k ** alpha) * (n ** (1 - alpha))] with [n = 1]. *)
Definition path_output (par : params) (A : R) (k : fval) : fval :=
  (Fin A * fpow k (alpha par) * fpow (Fin 1) (1 - alpha par))%fval.

(** Part (D), the body of [for t in range(T)] at capital [k]: the period
    and [k_next]. *)
Definition part_d_step (par : params) (A s : R) (k : fval) : path_period * fval :=
  let y := path_output par A k in
  let i := (Fin s * y)%fval in
  let c := (y - i)%fval in
  let k_next := (i + Fin (1 - delta par) * k)%fval in
  let u := util c 1 (sigma par) (nu par) (gamma par) in
  ({| pp_y := y; pp_k := k; pp_c := c; pp_n := 1; pp_i := i; pp_u := u |}, k_next).

Fixpoint part_d_loop (par : params) (Asim saving_data : vec) (steps t : nat) (k : fval)
  : result (list path_period) :=
  match steps with
  | O => Ok []
  | S steps' =>
      A <- lookup Asim t ;;
      s <- lookup saving_data t ;;
      rest <- part_d_loop par Asim saving_data steps' (S t)
                (snd (part_d_step par A s k)) ;;
      Ok (fst (part_d_step par A s k) :: rest)
  end.

(** Part (D): [T] periods from [ksim = [par.kss]] with [Asim[:T]]; the
    script has [T = 100]. *)
Definition part_d (par : params) (kss : R) (Asim saving_data : vec) (T : nat)
  : result (list path_period) :=
  part_d_loop par (firstn T Asim) saving_data T 0 (Fin kss).

(** Part (E): [gamma_policy], the shock series lowered by 0.2, after the
    first [T] entries. *)
Definition gamma_policy (par : params) : vec :=
  skipn (T par)
    (map (fun x => gamma par + 3 / 10 * sin x - 2 / 10) (Np.linspace 0 (4 * PI) (2 * T par))).

(** Part (E), the body of the loop: consumption is 75% of output. *)
Definition part_e_step (par : params) (A gamma_t : R) (k : fval) : path_period * fval :=
  let y := path_output par A k in
  let c := (Fin (75 / 100) * y)%fval in
  let i := (y - c)%fval in
  let k_next := (i + Fin (1 - delta par) * k)%fval in
  let u := util c 1 (sigma par) (nu par) gamma_t in
  ({| pp_y := y; pp_k := k; pp_c := c; pp_n := 1; pp_i := i; pp_u := u |}, k_next).

Fixpoint part_e_loop (par : params) (Asim gammas : vec) (steps t : nat) (k : fval)
  : result (list path_period) :=
  match steps with
  | O => Ok []
  | S steps' =>
      A <- lookup Asim t ;;
      g <- lookup gammas t ;;
      rest <- part_e_loop par Asim gammas steps' (S t) (snd (part_e_step par A g k)) ;;
      Ok (fst (part_e_step par A g k) :: rest)
  end.

(** Part (E): [par.T] periods from [k = par.kss] with the productivity of
    the baseline simulation. *)
Definition part_e (par : params) (kss : R) (Asim : vec) : result (list path_period) :=
  part_e_loop par Asim (gamma_policy par) (T par) 0 (Fin kss).

(** The three names [ps1_3cd.py] reads and never binds before reading, as an
    environment that binds them beforehand (an interactive session that
    has them from earlier cells). *)
Definition session_state : run_state :=
  {| env := ["simulate_markov_chain_fixed_start"; "gamma_values"; "seed"]%string;
     trace := [] |}.

(** The names the loop of line 76 and the lines after it read, apart from
    [sim_data], which the loop binds before it reads it. *)
Definition loop_names : list string :=
  ["gamma_values"; "gamma1"; "sigma_epsilon"; "np"; "N"; "mu"; "c"; "sigma_y"; "y";
   "p"; "P"; "rouwenhorst"; "simulate_markov_chain_fixed_start"; "T"; "seed";
   "len"; "range"; "plt"]%string.

(** *** Binary64: [linspace] and [tauchen] as the machine computes them

    The same two functions with every operation rounded to binary64, the
    floating-point format of Python's [float] and numpy's [float64]
    (Rocq's primitive [float]).  Here the grid can lose points to
    rounding, a step can be not-a-number, and a row sum can leave 1. *)
Module B64.

(** [arange(0, num)] holds the integers as floats. *)
Definition of_nat (k : nat) : float := PrimFloat.of_uint63 (Uint63.of_Z (Z.of_nat k)).

Definition set_last (v : list float) (x : float) : list float :=
  match v with
  | [] => []
  | _ => removelast v ++ [x]
  end.

(** [linspace(start, stop, num, endpoint=True, retstep=True)]: with
    [div = num - 1 > 0] the step is [(stop - start) / div] and the points
    are [arange(0, num) * step + start], or [arange(0, num) / div * (stop -
    start) + start] when the step is zero, the last one overwritten with
    [stop]; with [div <= 0] the step is not-a-number. *)
Definition linspace (start stop : float) (num : nat) : list float * float :=
  let delta := (stop - start)%float in
  let y := map of_nat (seq 0 num) in
  if (1 <? num)%nat then
    let div := of_nat (num - 1) in
    let step := (delta / div)%float in
    let y := if (step =? 0)%float
             then map (fun k => (k / div * delta)%float) y
             else map (fun k => (k * step)%float) y in
    (set_last (map (fun v => (v + start)%float) y) stop, step)
  else (map (fun k => (k * delta + start)%float) y, nan).

(** [par.kgrid = linspace(par.kmin, par.kmax, par.klen)] *)
Definition kgrid (kmin kmax : float) (klen : nat) : list float :=
  fst (linspace kmin kmax klen).

(** [where(x == kgrid)] and the index the simulator reads the tables at,
    as in [where_eq] and [capital_index]. *)
Definition where_eq (x : float) (grid : list float) : list nat :=
  map fst (filter (fun ig => (x =? snd ig)%float) (combine (seq 0 (length grid)) grid)).

Definition capital_index (k_prev : float) (grid : list float) : result nat :=
  match where_eq k_prev grid with
  | [kt] => Ok kt
  | _ => Raise ValueError
  end.

(** [stats.norm.cdf(x, loc=l, scale=s)]: not-a-number for a scale that is
    not positive and for an argument [(x - l) / s] that is not a number, 1
    and 0 at plus and minus infinity, and otherwise [Phi], the standard
    normal distribution function as scipy computes it. *)
Definition norm_cdf (Phi : float -> float) (x loc scale : float) : float :=
  let z := ((x - loc) / scale)%float in
  if negb (0 <? scale)%float then nan
  else if is_nan z then nan
  else if (z =? infinity)%float then 1%float
  else if (z =? neg_infinity)%float then 0%float
  else Phi z.

(** What the row-sum statements need of [Phi]: in binary64 the normal
    distribution function is exactly 1 from 40 on, exactly 0 up to -40, and
    1/2 at 0. *)
Definition saturates (Phi : float -> float) : Prop :=
  (forall z : float, (40 <=? z)%float = true -> Phi z = 1%float) /\
  (forall z : float, (z <=? -40)%float = true -> Phi z = 0%float) /\
  Phi 0%float = 0.5%float.

(** A function that saturates: a step through 1/2. *)
Definition step_cdf (z : float) : float :=
  if (z <? 0)%float then 0%float else if (0 <? z)%float then 1%float else 0.5%float.

(** An instance of [Phi] to run the function with: the normal distribution
    function evaluated in binary64 by its series
    [1/2 + phi(a) (a + a^3/3 + a^5/(3 5) + ...)] with the density
    [phi(a) = 1 / (exp(a^2/2) sqrt(2 pi))], the exponential by its own
    series; beyond 9 in absolute value the function is 0 or 1 in
    binary64. *)
Fixpoint exp_series (terms : nat) (t term acc k : float) : float :=
  match terms with
  | O => acc
  | S terms' =>
      let term' := (term * t / k)%float in
      exp_series terms' t term' (acc + term')%float (k + 1)%float
  end.

Fixpoint odd_series (terms : nat) (a2 term acc k : float) : float :=
  match terms with
  | O => acc
  | S terms' =>
      let term' := (term * a2 / k)%float in
      odd_series terms' a2 term' (acc + term')%float (k + 2)%float
  end.

Definition series_cdf (z : float) : float :=
  let a := abs z in
  if (9 <? a)%float then (if (z <? 0)%float then 0%float else 1%float)
  else
    let density := (1 / (exp_series 200 (a * a / 2) 1 1 1 * 2.5066282746310002))%float in
    let upper := (0.5 + odd_series 200 (a * a) a a 3 * density)%float in
    if (z <? 0)%float then (1 - upper)%float else upper.

(** The sum of one row in [pmat.sum(axis=1)] is numpy's: a function
    [rowsum] of the row.  For a row of fewer than eight entries numpy adds
    them one after the other, which is [sum]; longer rows it adds in
    interleaved partial sums. *)
Definition sum (row : list float) : float := fold_left PrimFloat.add row 0%float.

Definition row_sum_floor : float := 0.999999%float.

(** [pmat.sum(axis=1) < 0.999999] *)
Definition below_floor (rowsum : list float -> float) (pmat : list (list float))
  : list bool :=
  map (fun row => (rowsum row <? row_sum_floor)%float) pmat.

Definition set_nth (k : nat) (x : float) (row : list float) : list float :=
  if (k <? length row)%nat then firstn k row ++ x :: skipn (S k) row else row.

Definition set_col (k : nat) (col : list float) (A : list (list float)) : list (list float) :=
  zip_with (fun row x => set_nth k x row) A col.

Definition transpose (c : nat) (A : list (list float)) : list (list float) :=
  map (fun k => map (fun row => nth k row 0%float) A) (seq 0 c).

(** The grid and its step.  [rho**2.0] and [(...)**(1/2)] are the C
    library's [pow], read as the correctly rounded square and square
    root. *)
Definition tauchen_grid (mu rho sigma : float) (N : nat) (m : float) : list float * float :=
  let ar_mean := (mu / (1 - rho))%float in
  let ar_sd := (sigma / PrimFloat.sqrt (1 - rho * rho))%float in
  let y1 := (ar_mean - m * ar_sd)%float in
  let yn := (ar_mean + m * ar_sd)%float in
  linspace y1 yn N.

(** The transition matrix before the row-sum check. *)
Definition tauchen_pmat (Phi : float -> float) (mu rho sigma : float) (N : nat)
    (y : list float) (d : float) : list (list float) :=
  let ymatk := repeat y N in
  let ymatj := map (map (fun x => (mu + rho * x)%float)) (transpose N ymatk) in
  let pmat :=
    zip_with (zip_with (fun yk yj =>
                (norm_cdf Phi yk (yj - d / 2) sigma - norm_cdf Phi yk (yj + d / 2) sigma)%float))
             ymatk ymatj in
  let pmat :=
    set_col 0 (map (fun yj => norm_cdf Phi (nth 0 y 0%float) (mu + rho * yj - d / 2) sigma) y)
            pmat in
  set_col (N - 1)
    (map (fun yj => (1 - norm_cdf Phi (nth (N - 1) y 0%float) (mu + rho * yj + d / 2) sigma)%float)
         y)
    pmat.

Definition tauchen_output (rowsum : list float -> float) (y : list float)
    (pmat : list (list float))
  : result (list (list float) * list (list float)) :=
  if (0 <? Np.count_nonzero (below_floor rowsum pmat))%nat
  then Raise (DiscretizationError "Some columns of transition matrix don't sum to 1.")
  else Ok ([y], pmat).

(** [tauchen(mu, rho, sigma, N, m)] on floats, for a persistence in (-1,1):
    there no division or power of lines 187-188 raises.  [None] for another
    persistence, where Python divides by zero or takes the root of a
    negative number; such a call is not modelled. *)
Definition tauchen (Phi : float -> float) (rowsum : list float -> float)
    (mu rho sigma : float) (N : nat) (m : float)
  : option (result (list (list float) * list (list float))) :=
  if negb (abs rho <? 1)%float then None
  else
    let (y, d) := tauchen_grid mu rho sigma N m in
    if (N =? 0)%nat then Some (Raise IndexError)
    else Some (tauchen_output rowsum y (tauchen_pmat Phi mu rho sigma N y d)).

End B64.

(** ** Part II: properties *)

(** *** Sums, lengths and signs of the array operations *)

Section ArrayFacts.

Lemma vsum_app (u v : vec) : Np.vsum (u ++ v) = Np.vsum u + Np.vsum v.
Proof.
  unfold Np.vsum. induction u as [|x u IH]; simpl; [lra|]. rewrite IH. lra.
Qed.

Lemma vsum_repeat0 (n : nat) : Np.vsum (repeat 0 n) = 0.
Proof. unfold Np.vsum. induction n; simpl; lra. Qed.

Lemma vsum_vscale (s : R) (v : vec) : Np.vsum (Np.vscale s v) = s * Np.vsum v.
Proof.
  unfold Np.vsum, Np.vscale. induction v as [|x v IH]; simpl; [lra|].
  rewrite IH. lra.
Qed.

Lemma vsum_vadd (u : vec) : forall v : vec,
  length u = length v -> Np.vsum (Np.vadd u v) = Np.vsum u + Np.vsum v.
Proof.
  unfold Np.vsum, Np.vadd.
  induction u as [|x u IH]; intros [|y v] Hl; simpl in *; try discriminate; [lra|].
  rewrite IH by lia. lra.
Qed.

Lemma vsum_halve (v : vec) : Np.vsum (map (fun x => x / 2) v) = Np.vsum v / 2.
Proof.
  unfold Np.vsum. induction v as [|x v IH]; simpl; [lra|]. rewrite IH. lra.
Qed.

Lemma length_vadd (u v : vec) :
  length (Np.vadd u v) = Nat.min (length u) (length v).
Proof. unfold Np.vadd. now rewrite length_map, length_combine. Qed.

Lemma length_vscale (s : R) (v : vec) : length (Np.vscale s v) = length v.
Proof. unfold Np.vscale. apply length_map. Qed.

Lemma nonneg_vadd (u : vec) : forall v : vec,
  Forall nonneg u -> Forall nonneg v -> Forall nonneg (Np.vadd u v).
Proof.
  unfold Np.vadd.
  induction u as [|x u IH]; intros [|y v] Hu Hv; simpl; try constructor.
  - inversion Hu; inversion Hv; subst. unfold nonneg in *. simpl. lra.
  - inversion Hu; inversion Hv; subst. now apply IH.
Qed.

Lemma nonneg_vscale (s : R) (v : vec) :
  0 <= s -> Forall nonneg v -> Forall nonneg (Np.vscale s v).
Proof.
  intros Hs Hv. unfold Np.vscale. induction Hv; simpl; constructor; auto.
  unfold nonneg in *. now apply Rmult_le_pos.
Qed.

Lemma nonneg_repeat0 (n : nat) : Forall nonneg (repeat 0 n).
Proof. induction n; simpl; constructor; auto. unfold nonneg; lra. Qed.

Lemma nonneg_halve (v : vec) :
  Forall nonneg v -> Forall nonneg (map (fun x => x / 2) v).
Proof.
  intros Hv. induction Hv; simpl; constructor; auto. unfold nonneg in *. lra.
Qed.

End ArrayFacts.


(** *** Rows of the stacked and summed matrices *)

Lemma row_facts_vadd (N : nat) (s t : R) (u v : vec) :
  row_facts N s u -> row_facts N t v -> row_facts N (s + t) (Np.vadd u v).
Proof.
  intros (Lu & Su & Pu) (Lv & Sv & Pv). repeat split.
  - rewrite length_vadd. lia.
  - rewrite vsum_vadd by congruence. congruence.
  - now apply nonneg_vadd.
Qed.

Lemma row_facts_vscale (N : nat) (c s : R) (v : vec) :
  0 <= c -> row_facts N s v -> row_facts N (c * s) (Np.vscale c v).
Proof.
  intros Hc (Lv & Sv & Pv). repeat split.
  - now rewrite length_vscale.
  - rewrite vsum_vscale. congruence.
  - now apply nonneg_vscale.
Qed.

Lemma row_facts_app (a b : nat) (s t : R) (u v : vec) :
  row_facts a s u -> row_facts b t v -> row_facts (a + b) (s + t) (u ++ v).
Proof.
  intros (Lu & Su & Pu) (Lv & Sv & Pv). repeat split.
  - rewrite length_app. lia.
  - rewrite vsum_app. congruence.
  - apply Forall_app. now split.
Qed.

Lemma row_facts_zeros (k : nat) : row_facts k 0 (repeat 0 k).
Proof.
  repeat split; [apply repeat_length | apply vsum_repeat0 | apply nonneg_repeat0].
Qed.

Lemma row_facts_halve (N : nat) (s : R) (v : vec) :
  row_facts N s v -> row_facts N (s / 2) (map (fun x => x / 2) v).
Proof.
  intros (Lv & Sv & Pv). repeat split.
  - now rewrite length_map.
  - rewrite vsum_halve. congruence.
  - now apply nonneg_halve.
Qed.

Lemma row_facts_sum_eq (N : nat) (s t : R) (v : vec) :
  s = t -> row_facts N s v -> row_facts N t v.
Proof. intros ->. auto. Qed.

Lemma nth_madd (A B : mat) (i : nat) :
  length A = length B ->
  nth i (Np.madd A B) [] = Np.vadd (nth i A []) (nth i B []).
Proof.
  intros HL. unfold Np.madd.
  change (@nil R) with ((fun uv : vec * vec => Np.vadd (fst uv) (snd uv)) ([], [])) at 1.
  rewrite map_nth, combine_nth by assumption. reflexivity.
Qed.

Lemma nth_hstack (A B : mat) (i : nat) :
  length A = length B ->
  nth i (Np.hstack A B) [] = nth i A [] ++ nth i B [].
Proof.
  intros HL. unfold Np.hstack.
  change (@nil R) with ((fun ab : vec * vec => fst ab ++ snd ab) ([], [])) at 1.
  rewrite map_nth, combine_nth by assumption. reflexivity.
Qed.

Lemma nth_scale (s : R) (A : mat) (i : nat) :
  nth i (Np.scale s A) [] = Np.vscale s (nth i A []).
Proof.
  unfold Np.scale. change (@nil R) with (Np.vscale s []) at 1. apply map_nth.
Qed.

Lemma length_madd (A B : mat) :
  length (Np.madd A B) = Nat.min (length A) (length B).
Proof. unfold Np.madd. now rewrite length_map, length_combine. Qed.

Lemma length_hstack (A B : mat) :
  length (Np.hstack A B) = Nat.min (length A) (length B).
Proof. unfold Np.hstack. now rewrite length_map, length_combine. Qed.

Lemma length_scale (s : R) (A : mat) : length (Np.scale s A) = length A.
Proof. unfold Np.scale. apply length_map. Qed.

Lemma length_zeros (r c : nat) : length (Np.zeros r c) = r.
Proof. apply repeat_length. Qed.

Lemma nth_zeros (r c i : nat) :
  (i < r)%nat -> nth i (Np.zeros r c) [] = repeat 0 c.
Proof. intros Hi. unfold Np.zeros. now apply nth_repeat_lt. Qed.

Lemma length_block (A B C D : mat) :
  length A = length B -> length C = length D ->
  length (Np.block A B C D) = (length A + length C)%nat.
Proof.
  intros H1 H2. unfold Np.block. rewrite length_app, !length_hstack. lia.
Qed.

(** Row [i] of a block matrix whose upper part has [a] rows. *)
Lemma nth_block_upper (A B C D : mat) (i : nat) :
  length A = length B -> (i < length A)%nat ->
  nth i (Np.block A B C D) [] = nth i A [] ++ nth i B [].
Proof.
  intros HL Hi. unfold Np.block.
  rewrite app_nth1 by (rewrite length_hstack; lia). now apply nth_hstack.
Qed.

Lemma nth_block_lower (A B C D : mat) (i : nat) :
  length A = length B -> length C = length D -> (length A <= i)%nat ->
  nth i (Np.block A B C D) [] = nth (i - length A) C [] ++ nth (i - length A) D [].
Proof.
  intros HL HL' Hi. unfold Np.block.
  rewrite app_nth2 by (rewrite length_hstack; lia).
  rewrite length_hstack, <- HL, Nat.min_id. now apply nth_hstack.
Qed.

Lemma length_halve_interior_rows (P : mat) :
  length (halve_interior_rows P) = length P.
Proof.
  unfold halve_interior_rows.
  rewrite length_map, length_combine, length_seq. lia.
Qed.

Lemma nth_halve_interior_rows (P : mat) (i : nat) :
  (i < length P)%nat ->
  nth i (halve_interior_rows P) [] =
    if ((1 <=? i) && (i <? length P - 1))%nat
    then map (fun x => x / 2) (nth i P [])
    else nth i P [].
Proof.
  intros Hi. unfold halve_interior_rows.
  match goal with |- nth i (map ?g _) _ = _ => set (f := g) end.
  rewrite (nth_indep _ [] (f (O, []))) by
    (rewrite length_map, length_combine, length_seq; lia).
  rewrite map_nth, combine_nth by (rewrite length_seq; reflexivity).
  rewrite seq_nth by assumption. reflexivity.
Qed.

(** *** Rouwenhorst's matrix is row-stochastic *)

Section RouwenhorstStep.

Variable p : R.
Hypothesis p_range : 0 <= p <= 1.
Variable n : nat.
Variable P_prev : mat.
Hypothesis prev_stochastic : row_stochastic n P_prev.

Lemma prev_row (i : nat) : (i < n)%nat -> row_facts n 1 (nth i P_prev []).
Proof.
  destruct prev_stochastic as [HL HF]. intros Hi.
  apply (proj1 (Forall_nth _ _) HF). lia.
Qed.

Lemma pad_right (r : vec) :
  row_facts n 1 r -> row_facts (S n) 1 (r ++ repeat 0 1).
Proof.
  intros Hr. replace (S n) with (n + 1)%nat by lia.
  apply (row_facts_sum_eq (s := 1 + 0)); [lra|].
  apply row_facts_app; [assumption | apply row_facts_zeros].
Qed.

Lemma pad_left (r : vec) :
  row_facts n 1 r -> row_facts (S n) 1 (repeat 0 1 ++ r).
Proof.
  intros Hr. change (S n) with (1 + n)%nat.
  apply (row_facts_sum_eq (s := 0 + 1)); [lra|].
  apply row_facts_app; [apply row_facts_zeros | assumption].
Qed.

Lemma zero_row_right : row_facts (S n) 0 (repeat 0 n ++ repeat 0 1).
Proof.
  replace (S n) with (n + 1)%nat by lia.
  apply (row_facts_sum_eq (s := 0 + 0)); [lra|].
  apply row_facts_app; apply row_facts_zeros.
Qed.

Lemma zero_row_left : row_facts (S n) 0 (repeat 0 1 ++ repeat 0 n).
Proof.
  change (S n) with (1 + n)%nat.
  apply (row_facts_sum_eq (s := 0 + 0)); [lra|].
  apply row_facts_app; apply row_facts_zeros.
Qed.

(** The sum of the four weighted rows, before the interior rows are halved. *)
Lemma four_rows (s1 s2 s3 s4 : R) (x1 x2 x3 x4 : vec) :
  row_facts (S n) s1 x1 -> row_facts (S n) s2 x2 ->
  row_facts (S n) s3 x3 -> row_facts (S n) s4 x4 ->
  row_facts (S n) (p * s1 + (1 - p) * s2 + (1 - p) * s3 + p * s4)
    (Np.vadd (Np.vadd (Np.vadd (Np.vscale p x1) (Np.vscale (1 - p) x2))
                      (Np.vscale (1 - p) x3))
             (Np.vscale p x4)).
Proof.
  intros H1 H2 H3 H4.
  repeat apply row_facts_vadd; apply row_facts_vscale; auto; lra.
Qed.

Lemma rouwenhorst_step_stochastic :
  (2 <= n)%nat -> row_stochastic (S n) (rouwenhorst_step (S n) p P_prev).
Proof.
  intros Hn. destruct prev_stochastic as [HL _].
  unfold rouwenhorst_step. replace (S n - 1)%nat with n by lia.
  set (B1 := Np.block P_prev (Np.zeros n 1) (Np.zeros 1 n) (Np.zeros 1 1)).
  set (B2 := Np.block (Np.zeros n 1) P_prev (Np.zeros 1 n) (Np.zeros 1 1)).
  set (B3 := Np.block (Np.zeros 1 1) (Np.zeros 1 n) P_prev (Np.zeros n 1)).
  set (B4 := Np.block (Np.zeros 1 1) (Np.zeros 1 n) (Np.zeros n 1) P_prev).
  assert (L1 : length B1 = S n)
    by (unfold B1; rewrite length_block; rewrite ?length_zeros; lia).
  assert (L2 : length B2 = S n)
    by (unfold B2; rewrite length_block; rewrite ?length_zeros; lia).
  assert (L3 : length B3 = S n)
    by (unfold B3; rewrite length_block; rewrite ?length_zeros; lia).
  assert (L4 : length B4 = S n)
    by (unfold B4; rewrite length_block; rewrite ?length_zeros; lia).
  set (Praw := Np.madd _ _).
  assert (LP : length Praw = S n)
    by (unfold Praw; rewrite !length_madd, !length_scale; lia).
  split; [now rewrite length_halve_interior_rows|].
  apply Forall_nth. intros i d. rewrite length_halve_interior_rows, LP. intros Hi.
  rewrite (nth_indep _ d []) by (rewrite length_halve_interior_rows; lia).
  rewrite nth_halve_interior_rows by lia. rewrite LP.
  unfold Praw.
  rewrite !nth_madd by (rewrite ?length_madd, ?length_scale; lia).
  rewrite !nth_scale.
  destruct (Nat.eq_dec i 0) as [-> | Hi0]; [|destruct (Nat.eq_dec i n) as [-> | Hin]].
  - (* first row *)
    unfold B1, B2, B3, B4.
    rewrite !nth_block_upper by (rewrite ?length_zeros; simpl; lia).
    rewrite !nth_zeros by lia. simpl andb. cbv iota.
    apply (row_facts_sum_eq (s := p * 1 + (1 - p) * 1 + (1 - p) * 0 + p * 0)); [lra|].
    apply four_rows;
      [apply pad_right | apply pad_left | apply zero_row_left | apply zero_row_left];
      apply prev_row; lia.
  - (* last row *)
    unfold B1, B2, B3, B4.
    rewrite !nth_block_lower by (rewrite ?length_zeros; simpl; lia).
    rewrite ?length_zeros, ?HL. replace (n - n)%nat with O by lia.
    rewrite !nth_zeros by lia.
    replace ((1 <=? n) && (n <? S n - 1))%nat%bool with false
      by (symmetry; apply andb_false_intro2; apply Nat.ltb_ge; lia).
    apply (row_facts_sum_eq (s := p * 0 + (1 - p) * 0 + (1 - p) * 1 + p * 1)); [lra|].
    apply four_rows;
      [apply zero_row_right | apply zero_row_right | apply pad_right | apply pad_left];
      apply prev_row; lia.
  - (* interior rows *)
    unfold B1, B2, B3, B4.
    rewrite (nth_block_upper P_prev) by (rewrite ?length_zeros; lia).
    rewrite (nth_block_upper (Np.zeros n 1)) by (rewrite ?length_zeros; lia).
    rewrite !nth_block_lower by (rewrite ?length_zeros; simpl; lia).
    rewrite ?length_zeros. rewrite !nth_zeros by lia.
    replace ((1 <=? i) && (i <? S n - 1))%nat%bool with true
      by (symmetry; apply andb_true_intro; split;
          [apply Nat.leb_le | apply Nat.ltb_lt]; lia).
    apply (row_facts_sum_eq (s := (p * 1 + (1 - p) * 1 + (1 - p) * 1 + p * 1) / 2)); [lra|].
    apply row_facts_halve.
    apply four_rows;
      [apply pad_right | apply pad_left | apply pad_right | apply pad_left];
      apply prev_row; lia.
Qed.

End RouwenhorstStep.

Lemma rouwenhorst_base_stochastic (p : R) :
  0 <= p <= 1 -> row_stochastic 2 [[p; 1 - p]; [1 - p; p]].
Proof.
  intros Hp. split; [reflexivity|].
  repeat apply Forall_cons; try apply Forall_nil;
    (split; [reflexivity | split; [unfold Np.vsum; simpl; lra |]]);
    repeat apply Forall_cons; try apply Forall_nil; unfold nonneg; lra.
Qed.

(** With fuel beyond the recursion depth [N - 2], the call returns a
    row-stochastic [N x N] matrix. *)
Lemma rouwenhorst_returns (p : R) (Hp : 0 <= p <= 1) :
  forall (fuel N : nat), (2 <= N)%nat -> (N - 2 < fuel)%nat ->
  exists P, rouwenhorst fuel N p = Ok P /\ row_stochastic N P.
Proof.
  induction fuel as [|fuel IH]; intros N HN Hf; [lia|].
  simpl. destruct (Nat.eqb_spec N 2) as [-> | Hne].
  - eexists; split; [reflexivity|]. now apply rouwenhorst_base_stochastic.
  - destruct (IH (N - 1)%nat) as (P' & HP' & HS'); [lia | lia |].
    rewrite HP'. simpl. eexists; split; [reflexivity|].
    replace N with (S (N - 1)) at 1 2 by lia.
    apply rouwenhorst_step_stochastic; auto. lia.
Qed.

(** C3: for every number of states [N >= 2] and every [p] in [[0,1]], the
    recursive block construction returns (once the recursion depth is
    allowed for) an [N x N] matrix whose rows each sum to 1 and have no
    negative entry; for [N = 2] it is exactly [[p, 1-p], [1-p, p]]. *)
Theorem rouwenhorst_row_stochastic (N : nat) (p : R) (fuel : nat) :
  (2 <= N)%nat -> 0 <= p <= 1 -> (N - 2 < fuel)%nat ->
  (exists P, rouwenhorst fuel N p = Ok P /\
             length P = N /\
             Forall (fun row => length row = N /\ Np.vsum row = 1 /\
                                Forall (fun x => 0 <= x) row) P) /\
  rouwenhorst fuel 2 p = Ok [[p; 1 - p]; [1 - p; p]].
Proof.
  intros HN Hp Hf. split.
  - destruct (rouwenhorst_returns Hp HN Hf) as (P & HP & HL & HF).
    exists P. repeat split; auto.
  - destruct fuel; [lia | reflexivity].
Qed.

Lemma rouwenhorst_row_stochastic_witness :
  (exists P, rouwenhorst 2 3 (1 / 2) = Ok P /\
             length P = 3%nat /\
             Forall (fun row => length row = 3%nat /\ Np.vsum row = 1 /\
                                Forall (fun x => 0 <= x) row) P) /\
  rouwenhorst 2 2 (1 / 2) = Ok [[1 / 2; 1 - 1 / 2]; [1 - 1 / 2; 1 / 2]].
Proof.
  apply (@rouwenhorst_row_stochastic 3 (1 / 2) 2); [lia | lra | simpl; lia].
Defined.

(** *** Tauchen's matrix: rows as telescoping sums *)

Lemma nth_zip_with {A B C : Type} (f : A -> B -> C) (u : list A) (v : list B)
      (j : nat) (da : A) (db : B) (dc : C) :
  (j < length u)%nat -> (j < length v)%nat ->
  nth j (zip_with f u v) dc = f (nth j u da) (nth j v db).
Proof.
  intros Hu Hv. unfold zip_with.
  rewrite (nth_indep _ dc ((fun ab => f (fst ab) (snd ab)) (da, db)))
    by (rewrite length_map, length_combine; lia).
  rewrite (map_nth (fun ab => f (fst ab) (snd ab))).
  revert v j Hu Hv. induction u as [|a u IH]; intros [|b v] [|j] Hu Hv;
    simpl in *; try lia; auto.
  apply IH; lia.
Qed.

Lemma length_zip_with {A B C : Type} (f : A -> B -> C) (u : list A) (v : list B) :
  length (zip_with f u v) = Nat.min (length u) (length v).
Proof. unfold zip_with. now rewrite length_map, length_combine. Qed.

Lemma nth_set_col (k : nat) (col : vec) (A : mat) (j : nat) :
  (j < length A)%nat -> (j < length col)%nat ->
  nth j (set_col k col A) [] = set_nth k (nth j col 0) (nth j A []).
Proof.
  intros HA Hc. unfold set_col.
  now rewrite (@nth_zip_with _ _ _ (fun (row : vec) (x : R) => set_nth k x row) A col j [] 0 []).
Qed.

Lemma length_set_col (k : nat) (col : vec) (A : mat) :
  length (set_col k col A) = Nat.min (length A) (length col).
Proof. unfold set_col. apply length_zip_with. Qed.

Lemma nth_map_seq {A : Type} (h : nat -> A) (len s j : nat) (d : A) :
  (j < len)%nat -> nth j (map h (seq s len)) d = h (s + j)%nat.
Proof.
  intros Hj. rewrite (nth_indep _ d (h O)) by (rewrite length_map, length_seq; lia).
  rewrite map_nth, seq_nth by assumption. reflexivity.
Qed.

Lemma zip_with_repeat {A B C : Type} (f : A -> B -> C) (u : list A) (b : B) :
  zip_with f u (repeat b (length u)) = map (fun a => f a b) u.
Proof. unfold zip_with. induction u as [|a u IH]; simpl; [reflexivity|]. now rewrite IH. Qed.

Lemma linspace_affine (a b : R) (num : nat) :
  (2 <= num)%nat ->
  Np.linspace a b num =
    map (fun k => INR k * Np.linspace_step a b num + a) (seq 0 num).
Proof.
  intros Hn. unfold Np.linspace.
  replace (1 <? num)%nat with true by (symmetry; apply Nat.ltb_lt; lia).
  destruct num as [|k]; [lia|].
  rewrite seq_S, map_app. simpl map at 2.
  unfold Np.set_last.
  destruct (map _ (seq 0 k) ++ _) eqn:E; [now destruct (map _ (seq 0 k))|].
  rewrite <- E, removelast_last. f_equal. f_equal.
  unfold Np.linspace_step. replace (S k - 1)%nat with k by lia. simpl plus.
  assert (INR k <> 0) by (apply not_0_INR; lia).
  field. assumption.
Qed.

Lemma length_linspace (a b : R) (num : nat) : length (Np.linspace a b num) = num.
Proof.
  unfold Np.linspace. destruct (1 <? num)%nat eqn:E.
  - apply Nat.ltb_lt in E. destruct num as [|k]; [lia|].
    rewrite seq_S, map_app. simpl map at 2. unfold Np.set_last.
    destruct (map _ (seq 0 k) ++ _) eqn:E'; [now destruct (map _ (seq 0 k))|].
    rewrite <- E', removelast_last, length_app, length_map, length_seq. simpl. lia.
  - now rewrite length_map, length_seq.
Qed.

Lemma vsum_telescope (F : nat -> R) (len s : nat) :
  Np.vsum (map (fun k => F (S k) - F k) (seq s len)) = F (s + len)%nat - F s.
Proof.
  revert s. induction len as [|len IH]; intros s; simpl.
  - rewrite Nat.add_0_r. lra.
  - unfold Np.vsum in *. rewrite IH. replace (S s + len)%nat with (s + S len)%nat by lia. lra.
Qed.

Lemma set_nth_head (a x : R) (t : vec) : set_nth 0 x (a :: t) = x :: t.
Proof. reflexivity. Qed.

Lemma set_nth_last (b x : R) (l : vec) : set_nth (length l) x (l ++ [b]) = l ++ [x].
Proof.
  unfold set_nth. rewrite length_app. simpl length.
  replace (length l <? length l + 1)%nat with true
    by (symmetry; apply Nat.ltb_lt; lia).
  rewrite firstn_app, Nat.sub_diag, firstn_all. simpl firstn. rewrite app_nil_r.
  rewrite skipn_all2 by (rewrite length_app; simpl; lia). reflexivity.
Qed.

Lemma set_nth_ends_at (n : nat) (a b x x' : R) (mid : vec) :
  length mid = n ->
  set_nth (S n) x' (set_nth 0 x (a :: mid ++ [b])) = x :: mid ++ [x'].
Proof.
  intros <-. rewrite set_nth_head.
  change (x :: mid ++ [b]) with ((x :: mid) ++ [b]).
  change (S (length mid)) with (length (x :: mid)).
  now rewrite set_nth_last.
Qed.

Section TauchenRows.

Variable Phi : R -> R.
Variables mu rho sigma d y1 : R.
Variable n : nat.

(** The grid of [N = n + 2] points, [y1 + k d]. *)
Let N := S (S n).
Let g (k : nat) : R := INR k * d + y1.
Let y := map g (seq 0 N).

Lemma grid_nth (k : nat) : (k < N)%nat -> nth k y 0 = g k.
Proof. intros Hk. unfold y. now rewrite nth_map_seq. Qed.

Lemma grid_map_nth (h : R -> R) (k : nat) :
  (k < N)%nat -> nth k (map h y) 0 = h (g k).
Proof. intros Hk. unfold y. now rewrite map_map, nth_map_seq. Qed.

Lemma grid_length : length y = N.
Proof. unfold y. now rewrite length_map, length_seq. Qed.

(** Distribution function at the lower edge of cell [k], seen from state [j]. *)
Let lower (j k : nat) : R := Phi ((g k - (mu + rho * g j + d / 2)) / sigma).

Lemma upper_is_next_lower (j k : nat) :
  Phi ((g k - (mu + rho * g j - d / 2)) / sigma) = lower j (S k).
Proof.
  unfold lower, g. rewrite S_INR. f_equal. f_equal. lra.
Qed.

(** Row [j] of the matrix, entry by entry. *)
Lemma tauchen_pmat_row (j : nat) :
  (j < N)%nat ->
  nth j (tauchen_pmat Phi mu rho sigma N y d) [] =
    lower j 1 :: map (fun k => lower j (S k) - lower j k) (seq 1 n) ++ [1 - lower j (S n)].
Proof.
  intros Hj. unfold tauchen_pmat.
  pose proof grid_length as HL.
  assert (HT : Np.transpose N (Np.tile_rows y N) = map (fun k => repeat (nth k y 0) N) (seq 0 N)).
  { unfold Np.transpose, Np.tile_rows. apply map_ext. intros k. apply map_repeat. }
  rewrite HT. clear HT.
  rewrite !nth_set_col
    by (rewrite ?length_set_col, ?length_zip_with, ?length_map, ?length_seq, ?HL;
        unfold Np.tile_rows; rewrite ?repeat_length; lia).
  rewrite (@nth_zip_with vec vec vec _ _ _ j [] [] [])
    by (rewrite ?length_map, ?length_seq; unfold Np.tile_rows;
        rewrite ?repeat_length; lia).
  assert (E1 : nth j (Np.tile_rows y N) [] = y)
    by (unfold Np.tile_rows; now apply nth_repeat_lt).
  assert (E2 : nth j (map (map (fun x => mu + rho * x))
                       (map (fun k => repeat (nth k y 0) N) (seq 0 N))) [] =
               repeat (mu + rho * g j) (length y)).
  { rewrite map_map, nth_map_seq by assumption. simpl plus.
    rewrite map_repeat, grid_nth, HL by assumption. reflexivity. }
  rewrite E1, E2, zip_with_repeat. clear E1 E2.
  rewrite !grid_map_nth, !grid_nth by (unfold N; lia).
  unfold y. rewrite map_map. unfold N.
  replace (S (S n) - 1)%nat with (S n) by lia.
  rewrite <- cons_seq, seq_S, map_cons, map_app. simpl map at 2.
  rewrite (@set_nth_ends_at n) by (now rewrite length_map, length_seq).
  unfold norm_cdf. f_equal; [apply upper_is_next_lower|].
  f_equal. apply map_ext. intros k. now rewrite upper_is_next_lower.
Qed.

Lemma tauchen_pmat_length : length (tauchen_pmat Phi mu rho sigma N y d) = N.
Proof.
  unfold tauchen_pmat, Np.transpose, Np.tile_rows.
  rewrite !length_set_col, !length_zip_with, !length_map, length_seq.
  rewrite repeat_length, grid_length. lia.
Qed.

Lemma tauchen_row_sum (j : nat) :
  (j < N)%nat -> Np.vsum (nth j (tauchen_pmat Phi mu rho sigma N y d) []) = 1.
Proof.
  intros Hj. rewrite tauchen_pmat_row by assumption.
  change (Np.vsum (?a :: ?l)) with (a + Np.vsum l).
  rewrite vsum_app, vsum_telescope. unfold Np.vsum. simpl. lra.
Qed.

Lemma tauchen_row_length (j : nat) :
  (j < N)%nat -> length (nth j (tauchen_pmat Phi mu rho sigma N y d) []) = N.
Proof.
  intros Hj. rewrite tauchen_pmat_row by assumption.
  simpl. rewrite length_app, length_map, length_seq. simpl. unfold N. lia.
Qed.

(** The first column: the mass below the upper edge of the first cell. *)
Lemma tauchen_first_column (j : nat) :
  (j < N)%nat ->
  nth 0 (nth j (tauchen_pmat Phi mu rho sigma N y d) []) 0 =
  Phi ((nth 0 y 0 + d / 2 - (mu + rho * nth j y 0)) / sigma).
Proof.
  intros Hj. rewrite tauchen_pmat_row by assumption. cbn [nth].
  rewrite !grid_nth by (unfold N; lia).
  unfold lower. f_equal. f_equal.
  replace (g 1%nat) with (g 0%nat + d) by (unfold g; simpl INR; lra). lra.
Qed.

(** The last column: the mass above the lower edge of the last cell. *)
Lemma tauchen_last_column (j : nat) :
  (j < N)%nat ->
  nth (N - 1) (nth j (tauchen_pmat Phi mu rho sigma N y d) []) 0 =
  1 - Phi ((nth (N - 1) y 0 - d / 2 - (mu + rho * nth j y 0)) / sigma).
Proof.
  intros Hj. rewrite tauchen_pmat_row by assumption.
  unfold N. replace (S (S n) - 1)%nat with (S n) by lia. cbn [nth].
  rewrite app_nth2 by (rewrite length_map, length_seq; lia).
  rewrite length_map, length_seq, Nat.sub_diag. cbn [nth].
  rewrite !grid_nth by (unfold N; lia).
  unfold lower. f_equal. f_equal. f_equal. lra.
Qed.

Hypothesis Phi_monotone : forall a b : R, a <= b -> Phi a <= Phi b.
Hypothesis Phi_range : forall x : R, 0 <= Phi x <= 1.
Hypothesis sigma_pos : 0 < sigma.
Hypothesis d_nonneg : 0 <= d.

Lemma lower_monotone (j k : nat) : lower j k <= lower j (S k).
Proof.
  unfold lower. apply Phi_monotone. unfold g. rewrite S_INR.
  apply Rmult_le_compat_r; [left; now apply Rinv_0_lt_compat | lra].
Qed.

Lemma tauchen_row_unit_interval (j : nat) :
  (j < N)%nat ->
  Forall (fun x => 0 <= x <= 1) (nth j (tauchen_pmat Phi mu rho sigma N y d) []).
Proof.
  intros Hj. rewrite tauchen_pmat_row by assumption.
  constructor; [apply Phi_range|].
  apply Forall_app. split.
  - apply Forall_map, Forall_forall. intros k _.
    pose proof (lower_monotone j k). pose proof (Phi_range ((g (S k) - (mu + rho * g j + d / 2)) / sigma)).
    pose proof (Phi_range ((g k - (mu + rho * g j + d / 2)) / sigma)).
    unfold lower in *. lra.
  - constructor; [|constructor].
    pose proof (Phi_range ((g (S n) - (mu + rho * g j + d / 2)) / sigma)).
    unfold lower. lra.
Qed.

End TauchenRows.

(** *** The row-sum check of [tauchen] *)

Lemma count_nonzero_pos (bs : list bool) :
  (0 <? Np.count_nonzero bs)%nat = true <-> In true bs.
Proof.
  unfold Np.count_nonzero. rewrite Nat.ltb_lt. split.
  - intros H. destruct (filter (fun b => b) bs) as [|b l] eqn:E; [simpl in H; lia|].
    assert (Hin : In b (filter (fun b => b) bs)) by (rewrite E; now left).
    apply filter_In in Hin. destruct Hin as [Hin Hb]. now subst.
  - intros H. assert (Hin : In true (filter (fun b => b) bs)) by (now apply filter_In).
    destruct (filter (fun b => b) bs); [contradiction | simpl; lia].
Qed.

Lemma below_floor_true (pmat : mat) :
  In true (below_floor pmat) <-> exists row, In row pmat /\ Np.vsum row < row_sum_floor.
Proof.
  unfold below_floor, Np.sum_axis1. rewrite map_map, in_map_iff. split.
  - intros (row & Hb & Hin). exists row. split; [assumption|].
    destruct (Rlt_dec (Np.vsum row) row_sum_floor); [assumption | discriminate].
  - intros (row & Hin & Hlt). exists row. split; [|assumption].
    destruct (Rlt_dec (Np.vsum row) row_sum_floor); [reflexivity | contradiction].
Qed.

Lemma tauchen_output_returns (y : vec) (pmat : mat) :
  ~ (exists row, In row pmat /\ Np.vsum row < row_sum_floor) ->
  tauchen_output y pmat = Ok ([y], pmat).
Proof.
  intros H. unfold tauchen_output.
  destruct (0 <? Np.count_nonzero (below_floor pmat))%nat eqn:E; [|reflexivity].
  apply count_nonzero_pos, below_floor_true in E. contradiction.
Qed.

(** *** The grid of [tauchen] *)

Lemma ar_sd_positive (rho sigma : R) :
  -1 < rho < 1 -> 0 < sigma -> 0 < sigma / sqrt (1 - rho ^ 2).
Proof.
  intros Hr Hs. apply Rdiv_lt_0_compat; [assumption|].
  apply sqrt_lt_R0. nra.
Qed.

Lemma tauchen_step_nonneg (mu rho sigma m : R) (N : nat) :
  -1 < rho < 1 -> 0 < sigma -> (2 <= N)%nat -> 0 < m ->
  0 < snd (tauchen_grid mu rho sigma N m).
Proof.
  intros Hr Hs HN Hm. unfold tauchen_grid, Np.linspace_step. cbn [snd].
  pose proof (ar_sd_positive Hr Hs) as Hsd.
  set (sd := sigma / sqrt (1 - rho ^ 2)) in *.
  apply Rdiv_lt_0_compat; [|apply lt_0_INR; lia].
  assert (0 < m * sd) by now apply Rmult_lt_0_compat.
  lra.
Qed.

(** For two states or more the construction returns: no row sum is below
    the floor, whatever the distribution function. *)
Lemma tauchen_returns (Phi : R -> R) (mu rho sigma m : R) (n : nat) :
  let N := S (S n) in
  let d := snd (tauchen_grid mu rho sigma N m) in
  let y1 := mu / (1 - rho) - m * (sigma / sqrt (1 - rho ^ 2)) in
  let y := map (fun k => INR k * d + y1) (seq 0 N) in
  tauchen Phi mu rho sigma N m = Some (Ok ([y], tauchen_pmat Phi mu rho sigma N y d)).
Proof.
  cbv zeta. unfold tauchen, tauchen_grid. cbv zeta. cbn [snd Nat.eqb].
  rewrite linspace_affine by lia.
  remember (mu / (1 - rho) - m * (sigma / sqrt (1 - rho ^ 2))) as y1 eqn:Ey1.
  remember (mu / (1 - rho) + m * (sigma / sqrt (1 - rho ^ 2))) as yn eqn:Eyn.
  clear Ey1 Eyn.
  remember (Np.linspace_step y1 yn (S (S n))) as d eqn:Ed. clear Ed.
  f_equal.
  apply tauchen_output_returns. intros (row & Hin & Hlt).
  apply (In_nth _ _ []) in Hin. destruct Hin as (j & Hj & <-).
  rewrite tauchen_pmat_length in Hj.
  rewrite tauchen_row_sum in Hlt by assumption. unfold row_sum_floor in Hlt. lra.
Qed.

(** *** [tauchen] and [linspace] in binary64 *)

Lemma b64_below_floor_true (rowsum : list float -> float) (pmat : list (list float)) :
  In true (B64.below_floor rowsum pmat) <->
  exists row, In row pmat /\ (rowsum row <? B64.row_sum_floor)%float = true.
Proof.
  unfold B64.below_floor. rewrite in_map_iff. split.
  - intros (row & Hb & Hin). exists row. split; [assumption | exact Hb].
  - intros (row & Hin & Hlt). exists row. split; [exact Hlt | assumption].
Qed.

Lemma b64_tauchen_output_raises (rowsum : list float -> float) (y : list float)
    (pmat : list (list float)) :
  (exists row, In row pmat /\ (rowsum row <? B64.row_sum_floor)%float = true) ->
  B64.tauchen_output rowsum y pmat =
    Raise (DiscretizationError "Some columns of transition matrix don't sum to 1.").
Proof.
  intros H. apply b64_below_floor_true, count_nonzero_pos in H.
  unfold B64.tauchen_output. now rewrite H.
Qed.

Lemma b64_tauchen_output_returns (rowsum : list float -> float) (y : list float)
    (pmat : list (list float)) :
  ~ (exists row, In row pmat /\ (rowsum row <? B64.row_sum_floor)%float = true) ->
  B64.tauchen_output rowsum y pmat = Ok ([y], pmat).
Proof.
  intros H. unfold B64.tauchen_output.
  destruct (0 <? Np.count_nonzero (B64.below_floor rowsum pmat))%nat eqn:E; [|reflexivity].
  apply count_nonzero_pos, b64_below_floor_true in E. contradiction.
Qed.

(** What [tauchen] returns has passed the check: no row sum is below the
    floor. *)
Lemma b64_tauchen_output_inv (rowsum : list float -> float) (y : list float)
    (pmat : list (list float)) (r : list (list float) * list (list float)) :
  B64.tauchen_output rowsum y pmat = Ok r ->
  r = ([y], pmat) /\
  forall row, In row pmat -> (rowsum row <? B64.row_sum_floor)%float = false.
Proof.
  unfold B64.tauchen_output.
  destruct (0 <? Np.count_nonzero (B64.below_floor rowsum pmat))%nat eqn:E; [discriminate|].
  intros H. injection H as <-. split; [reflexivity|].
  intros row Hin. destruct (rowsum row <? B64.row_sum_floor)%float eqn:Es; [|reflexivity].
  assert (Hex : exists row, In row pmat /\ (rowsum row <? B64.row_sum_floor)%float = true)
    by (exists row; now split).
  apply b64_below_floor_true, count_nonzero_pos in Hex. congruence.
Qed.

Lemma b64_length_linspace (a b : float) (num : nat) :
  length (fst (B64.linspace a b num)) = num.
Proof.
  unfold B64.linspace. cbv zeta. destruct (1 <? num)%nat eqn:E; cbn [fst].
  - apply Nat.ltb_lt in E. unfold B64.set_last.
    set (l := map (fun v : float => (v + a)%float) _).
    assert (L : length l = num).
    { unfold l. destruct (_ =? _)%float; now rewrite !length_map, length_seq. }
    clearbody l. destruct l as [|x l']; [simpl in L; lia|].
    assert (Hne : x :: l' <> []) by discriminate.
    pose proof (app_removelast_last 0%float Hne) as Hl.
    apply (f_equal (@length float)) in Hl. rewrite length_app in Hl. cbn [length] in Hl.
    rewrite length_app. cbn [length] in *. lia.
  - now rewrite !length_map, length_seq.
Qed.

Lemma b64_tauchen_pmat_length (Phi : float -> float) (mu rho sigma : float) (N : nat)
    (y : list float) (d : float) :
  length y = N -> length (B64.tauchen_pmat Phi mu rho sigma N y d) = N.
Proof.
  intros Hy. unfold B64.tauchen_pmat, B64.set_col, B64.transpose.
  rewrite !length_zip_with, !length_map, length_seq, repeat_length, Hy. lia.
Qed.

(** A function that saturates exists. *)
Lemma saturates_step_cdf : B64.saturates B64.step_cdf.
Proof.
  split; [|split].
  - intros z H. unfold B64.step_cdf. rewrite !ltb_spec. rewrite leb_spec in H.
    replace (Prim2SF 40) with (S754_finite false 5629499534213120 (-47)) in H by reflexivity.
    replace (Prim2SF 0) with (S754_zero false) by reflexivity.
    destruct (Prim2SF z) as [s|s| |s m e]; try destruct s; simpl in *;
      try discriminate; reflexivity.
  - intros z H. unfold B64.step_cdf. rewrite !ltb_spec. rewrite leb_spec in H.
    replace (Prim2SF (-40)) with (S754_finite true 5629499534213120 (-47)) in H by reflexivity.
    replace (Prim2SF 0) with (S754_zero false) by reflexivity.
    destruct (Prim2SF z) as [s|s| |s m e]; try destruct s; simpl in *;
      try discriminate; reflexivity.
  - reflexivity.
Qed.

(** Evaluation with a distribution function that is only known to
    saturate: the arguments are computed, and the function is replaced by
    0, 1/2 or 1 wherever its argument allows. *)
Ltac saturate Phi Hhi Hlo H0 :=
  vm_compute;
  repeat match goal with
  | |- context [Phi ?z] =>
      first [ rewrite (Hhi z eq_refl) | rewrite (Hlo z eq_refl) | rewrite H0 ]
  end;
  vm_compute; reflexivity.

(** With the mean at 1e16, where neighbouring floats are 2 apart, and a
    grid step of 8/3, the grid points are rounded to [-8, -6, -2, 0, 2, 6,
    8] around the mean and the cell edges to 2 on either side of a point:
    the cells around -2, 0 and 2 overlap, and every row sums to 2. *)
Lemma tauchen_rounded_cells_overlap (Phi : float -> float) (sigma m : float) :
  B64.saturates Phi ->
  (sigma = 0.01 /\ m = 720 \/ sigma = 0.02 /\ m = 360)%float ->
  B64.tauchen Phi B64.sum 1e16 0 sigma 7 m =
  Some (Ok ([[9999999999999992; 9999999999999994; 9999999999999998;
              10000000000000000; 10000000000000002; 10000000000000006;
              10000000000000008]%float],
            repeat [0; 0; 0.5; 1; 0.5; 0; 0]%float 7)).
Proof.
  intros (Hhi & Hlo & H0) [[-> ->] | [-> ->]]; saturate Phi Hhi Hlo H0.
Qed.

(** With a grid step of 4/3 the cell edges are rounded onto the grid
    points themselves: every cell is empty, both tails are empty, every row
    sums to 0 and the check fires. *)
Lemma tauchen_rounded_cells_vanish (Phi : float -> float) :
  B64.saturates Phi ->
  B64.tauchen Phi B64.sum 1e16 0 0.01 7 400 =
  Some (Raise (DiscretizationError "Some columns of transition matrix don't sum to 1.")).
Proof.
  intros (Hhi & Hlo & H0).
  assert (E : B64.tauchen_pmat Phi 1e16 0 0.01 7
                (fst (B64.tauchen_grid 1e16 0 0.01 7 400))
                (snd (B64.tauchen_grid 1e16 0 0.01 7 400)) =
              repeat (repeat 0%float 7) 7)
    by saturate Phi Hhi Hlo H0.
  unfold B64.tauchen.
  replace (negb (abs 0 <? 1)%float) with false by reflexivity.
  destruct (B64.tauchen_grid 1e16 0 0.01 7 400) as [y d] eqn:Eg.
  cbn [fst snd] in E. cbn [Nat.eqb]. rewrite E. reflexivity.
Qed.

(** C1 (as the code has it): for a persistence in (-1,1), an innovation
    deviation above 0, at least 4 states and a positive spread multiple, in
    exact arithmetic [tauchen] returns its grid and an [N x N] matrix of
    which every row sums to exactly 1 (the first column holds the mass below
    the first cell's upper edge, the last column the mass above the last
    cell's lower edge, and the cells between telescope) and every entry
    lies in [[0,1]].  In binary64 a matrix that is returned has [N] rows,
    none of them with a sum below 0.999999; that it sums to 1 within 1e-6
    does not follow. *)
Theorem tauchen_rows_sum_to_one (Phi : R -> R) (mu rho sigma m : R) (N : nat) :
  (forall a b : R, a <= b -> Phi a <= Phi b) ->
  (forall x : R, 0 <= Phi x <= 1) ->
  -1 < rho < 1 -> 0 < sigma -> (4 <= N)%nat -> 0 < m ->
  (exists (y : vec) (pmat : mat),
     tauchen Phi mu rho sigma N m = Some (Ok ([y], pmat)) /\
     length y = N /\ length pmat = N /\
     forall j : nat, (j < N)%nat ->
       let row := nth j pmat [] in
       let d := snd (tauchen_grid mu rho sigma N m) in
       let mj := mu + rho * nth j y 0 in
       length row = N /\
       Np.vsum row = 1 /\
       nth 0 row 0 = Phi ((nth 0 y 0 + d / 2 - mj) / sigma) /\
       nth (N - 1) row 0 = 1 - Phi ((nth (N - 1) y 0 - d / 2 - mj) / sigma) /\
       Forall (fun x => 0 <= x <= 1) row) /\
  (forall (Phi64 : float -> float) (rowsum : list float -> float)
          (mu64 rho64 sigma64 m64 : float)
          (y : list (list float)) (pmat : list (list float)),
     B64.tauchen Phi64 rowsum mu64 rho64 sigma64 N m64 = Some (Ok (y, pmat)) ->
     length pmat = N /\
     forall row, In row pmat -> (rowsum row <? 0.999999)%float = false).
Proof.
  intros Hmono Hrange Hr Hs HN Hm. split.
  - pose proof (@tauchen_step_nonneg mu rho sigma m N Hr Hs ltac:(lia) Hm) as Hd.
    destruct N as [|[|n]]; [lia | lia |].
    pose proof (tauchen_returns Phi mu rho sigma m n) as Hret. cbv zeta in Hret.
    remember (snd (tauchen_grid mu rho sigma (S (S n)) m)) as d eqn:Ed. clear Ed.
    remember (mu / (1 - rho) - m * (sigma / sqrt (1 - rho ^ 2))) as y1 eqn:Ey1. clear Ey1.
    eexists. eexists. split; [exact Hret|].
    split; [now rewrite length_map, length_seq|].
    split; [apply tauchen_pmat_length|].
    intros j Hj. cbv zeta.
    split; [now apply tauchen_row_length|].
    split; [now apply tauchen_row_sum|].
    split; [now apply tauchen_first_column|].
    split; [now apply tauchen_last_column|].
    apply tauchen_row_unit_interval; auto. lra.
  - intros Phi64 rowsum mu64 rho64 sigma64 m64 y pmat. unfold B64.tauchen.
    destruct (negb (abs rho64 <? 1)%float); [discriminate|].
    destruct (B64.tauchen_grid mu64 rho64 sigma64 N m64) as [g d] eqn:Eg.
    destruct (N =? 0)%nat; [discriminate|].
    intros H. injection H as H. apply b64_tauchen_output_inv in H.
    destruct H as (E & Hrows). injection E as -> ->.
    split; [|exact Hrows].
    apply b64_tauchen_pmat_length.
    unfold B64.tauchen_grid in Eg.
    pose proof (b64_length_linspace
                  (mu64 / (1 - rho64) - m64 * (sigma64 / PrimFloat.sqrt (1 - rho64 * rho64)))
                  (mu64 / (1 - rho64) + m64 * (sigma64 / PrimFloat.sqrt (1 - rho64 * rho64)))
                  N)%float as L.
    cbv zeta in Eg. rewrite Eg in L. exact L.
Qed.

Lemma ramp_cdf_monotone (a b : R) : a <= b -> ramp_cdf a <= ramp_cdf b.
Proof.
  intros H. unfold ramp_cdf, Rmax, Rmin.
  repeat destruct Rle_dec; lra.
Qed.

Lemma ramp_cdf_range (x : R) : 0 <= ramp_cdf x <= 1.
Proof.
  unfold ramp_cdf, Rmax, Rmin. repeat destruct Rle_dec; lra.
Qed.

Lemma tauchen_rows_sum_to_one_witness :
  (exists (y : vec) (pmat : mat),
     tauchen ramp_cdf 0 (9 / 10) (7 / 100) 7 3 = Some (Ok ([y], pmat)) /\
     length y = 7%nat /\ length pmat = 7%nat /\
     forall j : nat, (j < 7)%nat ->
       let row := nth j pmat [] in
       let d := snd (tauchen_grid 0 (9 / 10) (7 / 100) 7 3) in
       let mj := 0 + 9 / 10 * nth j y 0 in
       length row = 7%nat /\
       Np.vsum row = 1 /\
       nth 0 row 0 = ramp_cdf ((nth 0 y 0 + d / 2 - mj) / (7 / 100)) /\
       nth (7 - 1) row 0 = 1 - ramp_cdf ((nth (7 - 1) y 0 - d / 2 - mj) / (7 / 100)) /\
       Forall (fun x => 0 <= x <= 1) row) /\
  (forall (Phi64 : float -> float) (rowsum : list float -> float)
          (mu64 rho64 sigma64 m64 : float)
          (y : list (list float)) (pmat : list (list float)),
     B64.tauchen Phi64 rowsum mu64 rho64 sigma64 7 m64 = Some (Ok (y, pmat)) ->
     length pmat = 7%nat /\
     forall row, In row pmat -> (rowsum row <? 0.999999)%float = false).
Proof.
  apply (@tauchen_rows_sum_to_one ramp_cdf 0 (9 / 10) (7 / 100) 3 7).
  - apply ramp_cdf_monotone.
  - apply ramp_cdf_range.
  - lra.
  - lra.
  - lia.
  - lra.
Defined.

(** C1, counterexample: in binary64 the rows do not sum to 1 within 1e-6,
    nor do the entries lie in [[0,1]], for every valid parameterization
    (persistence in (-1,1), deviation above 0, at least 4 states, spread
    above 0).  With intercept 1e10, persistence 0.5, deviation 1, 7 states
    and spread 3 the grid lies near 2e10, where neighbouring floats are
    3.8e-6 apart, and the first row of the returned matrix sums to more than
    1.000001.  With intercept 1e16, persistence 0, deviation 0.01 and
    spread 720 every row sums to 2, whatever the distribution function does
    between -40 and 40.  With deviation 1e308 and spread 3 the grid
    overflows and every entry of the returned matrix is not-a-number. *)
Lemma tauchen_row_sums_leave_one :
  ((abs 0.5 <? 1)%float = true /\ (0 <? 1)%float = true /\ (4 <= 7)%nat /\
   (0 <? 3)%float = true /\
   exists y pmat,
     B64.tauchen B64.series_cdf B64.sum 1e10 0.5 1 7 3 = Some (Ok (y, pmat)) /\
     (1.000001 <? B64.sum (nth 0 pmat []))%float = true) /\
  ((abs 0 <? 1)%float = true /\ (0 <? 0.01)%float = true /\ (0 <? 720)%float = true /\
   forall Phi : float -> float, B64.saturates Phi ->
     exists y pmat,
       B64.tauchen Phi B64.sum 1e16 0 0.01 7 720 = Some (Ok (y, pmat)) /\
       length pmat = 7%nat /\
       forall row, In row pmat -> B64.sum row = 2%float) /\
  ((0 <? 1e308)%float = true /\
   forall Phi : float -> float,
     exists y,
       B64.tauchen Phi B64.sum 0 0 1e308 7 3 = Some (Ok (y, repeat (repeat nan 7) 7))).
Proof.
  split; [|split].
  - repeat (split; [reflexivity || lia|]).
    eexists. eexists. split; [vm_compute; reflexivity|]. vm_compute. reflexivity.
  - repeat (split; [reflexivity|]).
    intros Phi HPhi. eexists. eexists.
    split; [apply (tauchen_rounded_cells_overlap HPhi); now left|].
    split; [reflexivity|].
    intros row Hin. apply repeat_spec in Hin. subst row. reflexivity.
  - split; [reflexivity|]. intros Phi. eexists. vm_compute. reflexivity.
Qed.

(** C2, counterexample: the documented failure when a row sums to more
    than 1.000001 does not happen.  In binary64, with intercept 1e14,
    persistence 0.9, deviation 0.07, 7 states and spread 3, [tauchen]
    returns a matrix of which every row sums to more than 1.4: it raises
    nothing although a row sum lies outside [[0.999999, 1.000001]].  The
    same with intercept 1e16, persistence 0, deviation 0.02 and spread 360,
    where every row sums to 2 whatever the distribution function does
    between -40 and 40. *)
Lemma tauchen_check_has_no_ceiling :
  (exists y pmat,
     B64.tauchen B64.series_cdf B64.sum 1e14 0.9 0.07 7 3 = Some (Ok (y, pmat)) /\
     length pmat = 7%nat /\
     (forall row, In row pmat -> (1.4 <? B64.sum row)%float = true) /\
     ~ (B64.tauchen B64.series_cdf B64.sum 1e14 0.9 0.07 7 3 =
          Some (Raise (DiscretizationError "Some columns of transition matrix don't sum to 1."))
        <->
        exists row, In row pmat /\
          ((B64.sum row <? 0.999999)%float = true \/
           (1.000001 <? B64.sum row)%float = true))) /\
  (forall Phi : float -> float, B64.saturates Phi ->
     exists y pmat,
       B64.tauchen Phi B64.sum 1e16 0 0.02 7 360 = Some (Ok (y, pmat)) /\
       exists row, In row pmat /\ (1.000001 <? B64.sum row)%float = true).
Proof.
  split.
  - eexists. eexists. split; [vm_compute; reflexivity|].
    split; [reflexivity|]. split.
    + intros row Hin. repeat (destruct Hin as [<- | Hin]; [vm_compute; reflexivity|]).
      destruct Hin.
    + intros [_ H].
      assert (E : B64.tauchen B64.series_cdf B64.sum 1e14 0.9 0.07 7 3 <>
                  Some (Raise (DiscretizationError
                                 "Some columns of transition matrix don't sum to 1.")))
        by (vm_compute; discriminate).
      apply E, H. eexists. split; [left; reflexivity|]. right. vm_compute. reflexivity.
  - intros Phi HPhi. eexists. eexists.
    split; [apply (tauchen_rounded_cells_overlap HPhi); now right|].
    eexists. split; [left; reflexivity|]. reflexivity.
Qed.

(** C2 (as the code has it): in binary64, for a persistence in (-1,1),
    [tauchen] raises its discretization error exactly when some row of the
    constructed matrix sums to less than 0.999999, and otherwise returns
    the grid and the matrix; there is no check from above.  Both happen:
    it raises with intercept 1e10, persistence 0.9, deviation 0.07, 7
    states and spread 3, and, whatever the distribution function does
    between -40 and 40, with intercept 1e16, persistence 0, deviation 0.01
    and spread 400; with the intercept at 0 instead of 1e10 it returns;
    and with a single state it returns the matrix [[nan]], the step of
    [linspace] being not-a-number there. *)
Theorem tauchen_raises_iff_below_floor :
  (forall (Phi : float -> float) (rowsum : list float -> float)
          (mu rho sigma m : float) (N : nat),
     (abs rho <? 1)%float = true ->
     let y := fst (B64.tauchen_grid mu rho sigma N m) in
     let d := snd (B64.tauchen_grid mu rho sigma N m) in
     let pmat := B64.tauchen_pmat Phi mu rho sigma N y d in
     (B64.tauchen Phi rowsum mu rho sigma N m =
        Some (Raise (DiscretizationError "Some columns of transition matrix don't sum to 1."))
      <-> exists row, In row pmat /\ (rowsum row <? 0.999999)%float = true) /\
     ((forall row, In row pmat -> (rowsum row <? 0.999999)%float = false) -> N <> O ->
      B64.tauchen Phi rowsum mu rho sigma N m = Some (Ok ([y], pmat)))) /\
  B64.tauchen B64.series_cdf B64.sum 1e10 0.9 0.07 7 3 =
    Some (Raise (DiscretizationError "Some columns of transition matrix don't sum to 1.")) /\
  (forall Phi : float -> float, B64.saturates Phi ->
     B64.tauchen Phi B64.sum 1e16 0 0.01 7 400 =
       Some (Raise (DiscretizationError "Some columns of transition matrix don't sum to 1."))) /\
  (exists y pmat, B64.tauchen B64.series_cdf B64.sum 0 0.9 0.07 7 3 = Some (Ok (y, pmat))) /\
  (forall Phi : float -> float,
     B64.tauchen Phi B64.sum 0 0 1 1 3 = Some (Ok ([[-3]], [[nan]]))%float).
Proof.
  split; [|split; [|split; [|split]]].
  - intros Phi rowsum mu rho sigma m N Hrho. cbv zeta. unfold B64.tauchen. rewrite Hrho.
    cbn [negb].
    destruct (B64.tauchen_grid mu rho sigma N m) as [y d]. cbn [fst snd].
    destruct (Nat.eqb_spec N 0) as [-> | HN].
    + split.
      * split; [discriminate|]. intros (row & Hin & _).
        unfold B64.tauchen_pmat, B64.set_col, zip_with in Hin. simpl in Hin. destruct Hin.
      * intros _ H. now elim H.
    + split.
      * split.
        -- intros H. injection H as H.
           destruct (in_dec bool_dec true
                       (B64.below_floor rowsum (B64.tauchen_pmat Phi mu rho sigma N y d)))
             as [Hin | Hnin].
           ++ now apply b64_below_floor_true.
           ++ rewrite b64_tauchen_output_returns in H; [discriminate|].
              intros Hex. apply Hnin. now apply b64_below_floor_true.
        -- intros Hex. f_equal. now apply b64_tauchen_output_raises.
      * intros Hall _. f_equal. apply b64_tauchen_output_returns.
        intros (row & Hin & Hlt). specialize (Hall row Hin).
        unfold B64.row_sum_floor in Hlt. congruence.
  - vm_compute. reflexivity.
  - intros Phi HPhi. exact (tauchen_rounded_cells_vanish HPhi).
  - eexists. eexists. vm_compute. reflexivity.
  - intros Phi. vm_compute. reflexivity.
Qed.

(** *** The script [ps1_3cd.py] *)

Lemma mem_in (x : string) (l : list string) :
  existsb (String.eqb x) l = true -> In x l.
Proof.
  intros H. apply existsb_exists in H. destruct H as (z & Hin & Heq).
  apply String.eqb_eq in Heq. now subst.
Qed.

Lemma not_mem_not_in (x : string) (l : list string) :
  existsb (String.eqb x) l = false -> ~ In x l.
Proof.
  intros H Hin. assert (E : existsb (String.eqb x) l = true).
  { apply existsb_exists. exists x. split; [assumption | apply String.eqb_refl]. }
  congruence.
Qed.

(** C10: run top to bottom, [ps1_3cd.py] stops at line 65 with a
    [NameError] for [simulate_markov_chain_fixed_start], whose [def] comes
    only at line 89 inside the later loop; up to there it has printed and
    saved the grid and the matrix but drawn no figure.  No statement of the
    file binds [gamma_values], the list that loop iterates over. *)
Theorem script_stops_with_name_error (trips : nat) :
  snd (run (ps1_3cd trips) initial_state) =
    Some (65%nat, "simulate_markov_chain_fixed_start"%string) /\
  trace (fst (run (ps1_3cd trips) initial_state)) =
    [DataFile "rouwenhorst_ar1_gamma_085.csv"; Stdout; Stdout; Stdout; Stdout;
     DataFile "state_space.npy"; DataFile "transition_matrix.npy"] /\
  ~ In Figure (trace (fst (run (ps1_3cd trips) initial_state))) /\
  ~ In "simulate_markov_chain_fixed_start"%string
       (flat_map stores_of (firstn 32 (ps1_3cd trips))) /\
  In "simulate_markov_chain_fixed_start"%string
     (flat_map stores_of (skipn 32 (ps1_3cd trips))) /\
  ~ In "gamma_values"%string (flat_map stores_of (ps1_3cd trips)).
Proof.
  assert (Et : trace (fst (run (ps1_3cd trips) initial_state)) =
               [DataFile "rouwenhorst_ar1_gamma_085.csv"; Stdout; Stdout; Stdout; Stdout;
                DataFile "state_space.npy"; DataFile "transition_matrix.npy"])
    by (vm_compute; reflexivity).
  split; [vm_compute; reflexivity|]. split; [exact Et|].
  split; [|split; [|split]].
  - rewrite Et. intros H. repeat (destruct H as [H | H]; [discriminate H|]). exact H.
  - apply not_mem_not_in. vm_compute. reflexivity.
  - apply mem_in. vm_compute. reflexivity.
  - apply not_mem_not_in. vm_compute. reflexivity.
Qed.

(** *** The grid and the fixed-start chain of [ps1_3cd.py] *)

Lemma linspace_nth (a b : R) (num k : nat) :
  (2 <= num)%nat -> (k < num)%nat ->
  nth k (Np.linspace a b num) 0 = INR k * Np.linspace_step a b num + a.
Proof.
  intros Hn Hk. rewrite linspace_affine by assumption. now rewrite nth_map_seq.
Qed.

Lemma linspace_step_nonneg (a b : R) (num : nat) :
  a <= b -> (2 <= num)%nat -> 0 <= Np.linspace_step a b num.
Proof.
  intros Hab Hn. unfold Np.linspace_step.
  apply Rmult_le_pos; [lra|].
  left. apply Rinv_0_lt_compat, lt_0_INR. lia.
Qed.

Lemma linspace_within_ends (a b : R) (num k : nat) :
  a <= b -> (2 <= num)%nat -> (k < num)%nat ->
  nth 0 (Np.linspace a b num) 0 <= nth k (Np.linspace a b num) 0
  <= nth (num - 1) (Np.linspace a b num) 0.
Proof.
  intros Hab Hn Hk. rewrite !linspace_nth by lia.
  pose proof (linspace_step_nonneg Hab Hn) as Hs.
  assert (H0 : 0 <= INR k) by apply pos_INR.
  assert (H1 : INR k <= INR (num - 1)) by (apply le_INR; lia).
  simpl INR at 1. split; nra.
Qed.

Section FixedStartChain.

Variable rng : Type.
Variable seed_rng : nat -> rng.
Variable choice : nat -> vec -> rng -> result (nat * rng).

(** What numpy promises of [choice]: on a probability vector over [N > 0]
    outcomes it returns one of them. *)
Hypothesis choice_in_range :
  forall (N : nat) (p : vec) (s : rng),
    (0 < N)%nat -> row_facts N 1 p ->
    exists (k : nat) (s' : rng), choice N p s = Ok (k, s') /\ (k < N)%nat.

Variable N : nat.
Variable P : mat.
Hypothesis N_pos : (0 < N)%nat.
Hypothesis P_stochastic : row_stochastic N P.

Lemma lookup_row (k : nat) :
  (k < N)%nat -> exists row, lookup P k = Ok row /\ row_facts N 1 row.
Proof.
  destruct P_stochastic as [HL HF]. intros Hk. unfold lookup.
  destruct (nth_error P k) as [row|] eqn:E.
  - exists row. split; [reflexivity|].
    apply nth_error_In in E. now apply (proj1 (Forall_forall _ _) HF).
  - apply nth_error_None in E. lia.
Qed.

Lemma simulate_states_in_range (steps : nat) :
  forall (prev : nat) (s : rng), (prev < N)%nat ->
  exists states, simulate_states choice P N steps prev s = Ok states /\
                 length states = steps /\ Forall (fun k => (k < N)%nat) states.
Proof.
  induction steps as [|steps IH]; intros prev s Hprev; simpl.
  - exists []. repeat split. constructor.
  - destruct (lookup_row Hprev) as (row & -> & Hrow). simpl.
    destruct (choice_in_range s N_pos Hrow) as (k & s' & -> & Hk). simpl.
    destruct (IH k s' Hk) as (states & -> & HL & HF). simpl.
    exists (k :: states). repeat split; [simpl; lia | now constructor].
Qed.

Lemma take_in_range (y : vec) (states : list nat) :
  Forall (fun k => (k < length y)%nat) states ->
  take y states = Ok (map (fun k => nth k y 0) states).
Proof.
  induction 1 as [|k states Hk HF IH]; simpl; [reflexivity|].
  unfold lookup. destruct (nth_error y k) as [v|] eqn:E.
  - simpl. rewrite IH. simpl. now rewrite (nth_error_nth _ _ _ E).
  - apply nth_error_None in E. lia.
Qed.

(** The simulated path: [T] values of the grid, the first of them [y[0]]. *)
Lemma fixed_start_path (y : vec) (T seed : nat) :
  length y = N -> (0 < T)%nat ->
  exists states,
    simulate_markov_chain_fixed_start seed_rng choice y P T seed =
      Ok (map (fun k => nth k y 0) (O :: states)) /\
    length states = (T - 1)%nat /\ Forall (fun k => (k < N)%nat) states.
Proof.
  intros Hy HT. unfold simulate_markov_chain_fixed_start.
  replace (T =? 0)%nat with false by (symmetry; apply Nat.eqb_neq; lia).
  rewrite Hy.
  destruct (@simulate_states_in_range (T - 1) O (seed_rng seed) N_pos)
    as (states & -> & HL & HF).
  cbn [bind]. exists states. split; [|now split].
  apply take_in_range. constructor; [lia|]. now rewrite Hy.
Qed.

End FixedStartChain.

Lemma first_state_value : nth 0 Ps1_3cd.y 0 = 10 / 3 - sqrt 6 / sqrt (1 - (85 / 100) ^ 2).
Proof.
  unfold Ps1_3cd.y. rewrite linspace_nth by (unfold Ps1_3cd.N; lia).
  unfold Ps1_3cd.mu, Ps1_3cd.c, Ps1_3cd.sigma_y, Ps1_3cd.sigma_epsilon, Ps1_3cd.gamma1.
  replace (INR (Ps1_3cd.N - 1)) with 6 by (unfold Ps1_3cd.N; simpl; lra).
  simpl INR. 
  assert (sqrt (1 - (85 / 100) ^ 2) <> 0).
  { intros H. apply sqrt_eq_0 in H; lra. }
  field. assumption.
Qed.

Lemma first_state_near (x : R) :
  x = 10 / 3 - sqrt 6 / sqrt (1 - (85 / 100) ^ 2) ->
  Rabs (x - (- (132 / 100))) < 5 / 1000.
Proof.
  intros ->.
  assert (HA : 0 <= sqrt 6) by apply sqrt_pos.
  assert (HA2 : sqrt 6 * sqrt 6 = 6) by (apply sqrt_sqrt; lra).
  assert (HB : 0 < sqrt (1 - (85 / 100) ^ 2)) by (apply sqrt_lt_R0; lra).
  assert (HB2 : sqrt (1 - (85 / 100) ^ 2) * sqrt (1 - (85 / 100) ^ 2) = 2775 / 10000)
    by (rewrite sqrt_sqrt; lra).
  set (A := sqrt 6) in *. set (B := sqrt (1 - (85 / 100) ^ 2)) in *.
  assert (HX : (A / B) * B = A) by (field; lra).
  set (X := A / B) in *.
  assert (HU : X < 10 / 3 + 1325 / 1000).
  { apply Rnot_le_lt. intros Hle.
    assert (0 <= X) by (unfold X; apply Rmult_le_pos; [assumption | left; now apply Rinv_0_lt_compat]).
    assert ((10 / 3 + 1325 / 1000) * B <= A) by nra.
    assert ((10 / 3 + 1325 / 1000) * B * ((10 / 3 + 1325 / 1000) * B) <= A * A) by nra.
    nra. }
  assert (HLo : 10 / 3 + 1315 / 1000 < X).
  { apply Rnot_le_lt. intros Hle.
    assert (0 <= X) by (unfold X; apply Rmult_le_pos; [assumption | left; now apply Rinv_0_lt_compat]).
    assert (A <= (10 / 3 + 1315 / 1000) * B) by nra.
    assert (A * A <= (10 / 3 + 1315 / 1000) * B * ((10 / 3 + 1315 / 1000) * B)) by nra.
    nra. }
  apply Rabs_def1; lra.
Qed.

Lemma grid_3cd_ends_ordered :
  Ps1_3cd.mu - Ps1_3cd.c * Ps1_3cd.sigma_y <= Ps1_3cd.mu + Ps1_3cd.c * Ps1_3cd.sigma_y.
Proof.
  assert (0 <= Ps1_3cd.c) by apply sqrt_pos.
  assert (0 < Ps1_3cd.sigma_y).
  { unfold Ps1_3cd.sigma_y, Ps1_3cd.sigma_epsilon, Ps1_3cd.gamma1.
    apply Rdiv_lt_0_compat; [lra|]. apply sqrt_lt_R0. lra. }
  nra.
Qed.

(** C8: with [N = 7], persistence 0.85, innovation deviation 1 and
    intercept 0.5 the first grid value is -1.32 to two decimals; and the
    chain started at that state and run for 50 periods under the matrix
    [rouwenhorst(7, 0.925)] is returned, has 50 values, starts at the first
    grid value and stays between the first and the last grid value. *)
Theorem first_state_and_fixed_start_chain
    (rng : Type) (seed_rng : nat -> rng)
    (choice : nat -> vec -> rng -> result (nat * rng)) (fuel : nat) :
  (forall (N : nat) (p : vec) (s : rng),
      (0 < N)%nat -> row_facts N 1 p ->
      exists (k : nat) (s' : rng), choice N p s = Ok (k, s') /\ (k < N)%nat) ->
  (5 < fuel)%nat ->
  Rabs (nth 0 Ps1_3cd.y 0 - (- (132 / 100))) < 5 / 1000 /\
  exists (P : mat) (path : vec),
    Ps1_3cd.P fuel = Ok P /\
    simulate_markov_chain_fixed_start seed_rng choice Ps1_3cd.y P Ps1_3cd.T Ps1_3cd.seed
      = Ok path /\
    length path = 50%nat /\
    nth 0 path 0 = nth 0 Ps1_3cd.y 0 /\
    Forall (fun v => nth 0 Ps1_3cd.y 0 <= v <= nth (Ps1_3cd.N - 1) Ps1_3cd.y 0) path.
Proof.
  intros Hchoice Hfuel. split; [apply first_state_near, first_state_value|].
  assert (Hp : 0 <= Ps1_3cd.p <= 1) by (unfold Ps1_3cd.p, Ps1_3cd.gamma1; lra).
  destruct (@rouwenhorst_returns Ps1_3cd.p Hp fuel Ps1_3cd.N) as (P & HP & HS);
    [unfold Ps1_3cd.N; lia | unfold Ps1_3cd.N; simpl; lia |].
  assert (Hy : length Ps1_3cd.y = Ps1_3cd.N) by apply length_linspace.
  destruct (@fixed_start_path rng seed_rng choice Hchoice Ps1_3cd.N P
              ltac:(unfold Ps1_3cd.N; lia) HS Ps1_3cd.y Ps1_3cd.T Ps1_3cd.seed Hy
              ltac:(unfold Ps1_3cd.T; lia))
    as (states & Hsim & HL & HF).
  exists P, (map (fun k => nth k Ps1_3cd.y 0) (O :: states)).
  split; [exact HP|]. split; [exact Hsim|]. split; [|split].
  - rewrite length_map. simpl. rewrite HL. reflexivity.
  - reflexivity.
  - apply Forall_map. constructor.
    + apply linspace_within_ends;
        [apply grid_3cd_ends_ordered | unfold Ps1_3cd.N; lia | unfold Ps1_3cd.N; lia].
    + eapply Forall_impl; [|exact HF]. intros k Hk. cbv beta.
      apply linspace_within_ends;
        [apply grid_3cd_ends_ordered | unfold Ps1_3cd.N; lia | exact Hk].
Qed.

Lemma first_state_and_fixed_start_chain_witness :
  Rabs (nth 0 Ps1_3cd.y 0 - (- (132 / 100))) < 5 / 1000 /\
  exists (P : mat) (path : vec),
    Ps1_3cd.P 6 = Ok P /\
    simulate_markov_chain_fixed_start (fun n : nat => n) counter_choice
      Ps1_3cd.y P Ps1_3cd.T Ps1_3cd.seed = Ok path /\
    length path = 50%nat /\
    nth 0 path 0 = nth 0 Ps1_3cd.y 0 /\
    Forall (fun v => nth 0 Ps1_3cd.y 0 <= v <= nth (Ps1_3cd.N - 1) Ps1_3cd.y 0) path.
Proof.
  apply (@first_state_and_fixed_start_chain nat (fun n : nat => n) counter_choice 6).
  - intros N p s HN _. exists (s mod N)%nat, (S s). split; [reflexivity|].
    apply Nat.mod_upper_bound. lia.
  - lia.
Defined.

(** *** Arithmetic of floating values on finite operands *)

Lemma Rpower_base_1 (e : R) : Rpower 1 e = 1.
Proof. unfold Rpower. now rewrite ln_1, Rmult_0_r, exp_0. Qed.

Lemma Rpower_pos (x e : R) : 0 < Rpower x e.
Proof. unfold Rpower. apply exp_pos. Qed.

Lemma Rpower_half_square (x : R) : 0 < x -> Rpower x (1 / 2) * Rpower x (1 / 2) = x.
Proof.
  intros Hx. rewrite <- Rpower_plus. replace (1 / 2 + 1 / 2) with 1 by lra.
  now apply Rpower_1.
Qed.

Lemma Rpower_inv_base (x e : R) : 0 < x -> Rpower (1 / x) e = / Rpower x e.
Proof.
  intros Hx. unfold Rpower. replace (1 / x) with (/ x) by lra.
  rewrite ln_Rinv by assumption. rewrite <- exp_Ropp. f_equal. lra.
Qed.

Lemma fpow_pos_base (x e : R) : 0 < x -> e <> 0 -> fpow (Fin x) e = Fin (Rpower x e).
Proof.
  intros Hx He. unfold fpow.
  destruct (Req_dec_T e 0); [contradiction|].
  destruct (Rlt_dec 0 x); [reflexivity | contradiction].
Qed.

Lemma fpow_zero_base (e : R) : 0 < e -> fpow (Fin 0) e = Fin 0.
Proof.
  intros He. unfold fpow.
  destruct (Req_dec_T e 0); [lra|].
  destruct (Rlt_dec 0 0); [lra|].
  destruct (Req_dec_T 0 0); [|lra].
  destruct (Rlt_dec 0 e); [reflexivity | contradiction].
Qed.

Lemma fdiv_fin (x y : R) : y <> 0 -> fdiv (Fin x) (Fin y) = Fin (x / y).
Proof. intros Hy. unfold fdiv. destruct (Req_dec_T y 0); [contradiction | reflexivity]. Qed.

Lemma fleb_fin (x y : R) : fleb (Fin x) (Fin y) = true <-> x <= y.
Proof. unfold fleb. destruct (Rle_dec x y); split; auto; discriminate. Qed.

Lemma fltb_fin (x y : R) : fltb (Fin x) (Fin y) = true <-> x < y.
Proof. unfold fltb. destruct (Rlt_dec x y); split; auto; discriminate. Qed.

(** *** The intratemporal condition at [k = k' = A = 1], [alpha = 1/2],
    [delta = 0], [sigma = 1], [nu = 1], [gamma = 8] *)

Lemma foc_at_unit_closed_form (n : R) :
  0 < n <= 1 -> foc_at_unit n = Fin (1 / (2 * n) - 8 * (1 - n)).
Proof.
  intros [Hn0 Hn1]. unfold foc_at_unit, intra_foc.
  destruct (Req_dec_T 1 1) as [_ | Hne]; [|now elim Hne].
  rewrite (fpow_pos_base (x := 1)) by lra.
  rewrite (fpow_pos_base (x := n)) by lra.
  rewrite fdiv_fin by lra.
  rewrite (fpow_pos_base (x := 1 / n)) by (try lra; now apply Rdiv_lt_0_compat; lra).
  assert (Hun : fpow (Fin (1 - n)) (1 / 1) = Fin (1 - n)).
  { destruct (Req_dec_T n 1) as [-> | Hne].
    - replace (1 - 1) with 0 by lra. apply fpow_zero_base. lra.
    - rewrite fpow_pos_base by lra. f_equal.
      replace (1 / 1) with 1 by lra. apply Rpower_1. lra. }
  rewrite Hun. clear Hun.
  rewrite Rpower_base_1, Rpower_inv_base by assumption.
  replace (1 - 1 / 2) with (1 / 2) by lra.
  pose proof (Rpower_pos n (1 / 2)) as Hs.
  pose proof (Rpower_half_square Hn0) as Hss.
  set (s := Rpower n (1 / 2)) in *.
  cbn [fmul fadd].
  rewrite fdiv_fin by nra.
  cbn [fmul fadd]. f_equal.
  rewrite <- Hss. field. lra.
Qed.

Lemma foc_at_unit_lower_bound (n : R) :
  0 < n -> - 4 <= 1 / (2 * n) - 8 * (1 - n).
Proof.
  intros Hn.
  replace (1 / (2 * n) - 8 * (1 - n)) with (- 4 + (4 * n - 1) * (4 * n - 1) / (2 * n))
    by (field; lra).
  assert (0 <= (4 * n - 1) * (4 * n - 1) / (2 * n)).
  { apply Rmult_le_pos; [apply Rle_0_sqr|]. left. apply Rinv_0_lt_compat. lra. }
  lra.
Qed.

Lemma foc_at_unit_minimum_unique (n : R) :
  0 < n -> 1 / (2 * n) - 8 * (1 - n) <= - 4 -> n = 1 / 4.
Proof.
  intros Hn H.
  replace (1 / (2 * n) - 8 * (1 - n)) with (- 4 + (4 * n - 1) * (4 * n - 1) / (2 * n))
    in H by (field; lra).
  assert (H1 : (4 * n - 1) * (4 * n - 1) / (2 * n) <= 0) by lra.
  assert (H2 : (4 * n - 1) * (4 * n - 1) = (4 * n - 1) * (4 * n - 1) / (2 * n) * (2 * n))
    by (field; lra).
  assert (H3 : (4 * n - 1) * (4 * n - 1) <= 0).
  { rewrite H2. replace 0 with (0 * (2 * n)) by lra.
    apply Rmult_le_compat_r; lra. }
  pose proof (Rle_0_sqr (4 * n - 1)) as H4. unfold Rsqr in H4.
  assert (H5 : (4 * n - 1) * (4 * n - 1) = 0) by lra.
  apply Rmult_integral in H5. lra.
Qed.

Lemma sqrt3_bounds : 1 < sqrt 3 < 2.
Proof.
  assert (H : sqrt 3 * sqrt 3 = 3) by (apply sqrt_sqrt; lra).
  assert (0 <= sqrt 3) by apply sqrt_pos.
  split; nra.
Qed.

Lemma foc_at_unit_has_zero :
  0 < (2 - sqrt 3) / 4 < 1 /\ foc_at_unit ((2 - sqrt 3) / 4) = Fin 0.
Proof.
  pose proof sqrt3_bounds as Hb.
  assert (H : sqrt 3 * sqrt 3 = 3) by (apply sqrt_sqrt; lra).
  split; [lra|].
  rewrite foc_at_unit_closed_form by lra. f_equal.
  set (r := sqrt 3) in *.
  replace (1 / (2 * ((2 - r) / 4))) with (2 * (2 + r) / ((2 - r) * (2 + r)))
    by (field; split; lra).
  replace ((2 - r) * (2 + r)) with 1 by nra. lra.
Qed.

Lemma labor_table_unit_cell (fminbound : (R -> fval) -> R -> R -> R) :
  n_at (labor_table fminbound par_unit) 0 0 0 = fminbound foc_at_unit 0 1.
Proof. reflexivity. Qed.

(** C4 at a concrete state: the labor table entry for [k = k' = A = 1] is
    what [fminbound] returns for the raw residual; when that is the
    minimizer over the interior of [[0,1]], which is what [fminbound] is
    asked for, it is [1/4], where the residual is [-4]; the residual does
    vanish, at [(2 - sqrt 3) / 4], but that is not what is returned. *)
Theorem labor_choice_minimizes_residual (fminbound : (R -> fval) -> R -> R -> R) :
  let n_star := n_at (labor_table fminbound par_unit) 0 0 0 in
  0 < n_star < 1 ->
  (forall n : R, 0 < n < 1 -> fleb (foc_at_unit n_star) (foc_at_unit n) = true) ->
  n_star = fminbound foc_at_unit 0 1 /\
  n_star = 1 / 4 /\
  foc_at_unit n_star = Fin (- 4) /\
  foc_at_unit n_star <> Fin 0 /\
  (0 < (2 - sqrt 3) / 4 < 1 /\ foc_at_unit ((2 - sqrt 3) / 4) = Fin 0).
Proof.
  intros n_star Hin Hmin.
  assert (E : n_star = 1 / 4).
  { specialize (Hmin (1 / 4) ltac:(lra)).
    rewrite !foc_at_unit_closed_form in Hmin by lra.
    apply fleb_fin in Hmin. apply foc_at_unit_minimum_unique; [lra|].
    replace (1 / (2 * (1 / 4)) - 8 * (1 - 1 / 4)) with (- 4) in Hmin by lra.
    exact Hmin. }
  assert (V : foc_at_unit n_star = Fin (- 4)).
  { rewrite E, foc_at_unit_closed_form by lra. f_equal. lra. }
  split; [apply labor_table_unit_cell|].
  split; [exact E|]. split; [exact V|]. split.
  - rewrite V. intros H. injection H. lra.
  - exact foc_at_unit_has_zero.
Qed.

Lemma labor_choice_minimizes_residual_witness :
  let n_star := n_at (labor_table fminbound_quarter par_unit) 0 0 0 in
  n_star = fminbound_quarter foc_at_unit 0 1 /\
  n_star = 1 / 4 /\
  foc_at_unit n_star = Fin (- 4) /\
  foc_at_unit n_star <> Fin 0 /\
  (0 < (2 - sqrt 3) / 4 < 1 /\ foc_at_unit ((2 - sqrt 3) / 4) = Fin 0).
Proof.
  apply (@labor_choice_minimizes_residual fminbound_quarter).
  - rewrite labor_table_unit_cell. unfold fminbound_quarter. lra.
  - rewrite labor_table_unit_cell. unfold fminbound_quarter.
    intros n Hn. rewrite !foc_at_unit_closed_form by lra.
    apply fleb_fin.
    replace (1 / (2 * (1 / 4)) - 8 * (1 - 1 / 4)) with (- 4) by lra.
    apply foc_at_unit_lower_bound. lra.
Defined.

(** *** Which errors the simulator can raise *)







Section SimulatorErrors.

Variable rng : Type.
Variable seed_rng : nat -> rng.
Variable choice_p : nat -> vec -> rng -> option (nat * rng).
Variable choice_uniform : nat -> rng -> option (nat * rng).
Variable rand : rng -> R * rng.
Variable par : params.
Variable sol : solution.








End SimulatorErrors.

(** *** The matrix power read by the simulator *)

Lemma length_matmul (c : nat) (A B : mat) : length (Np.matmul c A B) = length A.
Proof. unfold Np.matmul. apply length_map. Qed.

Lemma length_matrix_power (A : mat) (n : nat) :
  length (Np.matrix_power A n) = length A.
Proof.
  destruct n; simpl.
  - unfold Np.eye. now rewrite length_map, length_seq.
  - apply length_matmul.
Qed.

Lemma stationary_row_returns (pmat : mat) :
  pmat <> [] ->
  exists row, stationary_row pmat = Ok row /\ row = nth 0 (Np.matrix_power pmat 1000) [].
Proof.
  intros Hne. unfold stationary_row, lookup.
  destruct (nth_error (Np.matrix_power pmat 1000) 0) as [row|] eqn:E.
  - exists row. split; [reflexivity|]. symmetry. now apply nth_error_nth.
  - apply nth_error_None in E. rewrite length_matrix_power in E.
    destruct pmat; [contradiction | simpl in E; lia].
Qed.



(** *** The loop of the value function iteration *)

Lemma iter_shift {S : Type} (body : S -> S) (t : nat) (st : S) :
  Nat.iter t body (body st) = Nat.iter (Datatypes.S t) body st.
Proof. induction t as [|t IH]; simpl; [reflexivity|]. now rewrite IH. Qed.

(** A loop whose test fails within [bound] passes leaves with the state
    after the first pass count at which the test fails. *)
Lemma while_loop_leaves {S : Type} (test : S -> bool) (body : S -> S) :
  forall (fuel bound : nat) (st : S),
    (bound < fuel)%nat ->
    test (Nat.iter bound body st) = false ->
    exists t : nat,
      (t <= bound)%nat /\
      while_loop fuel test body st = Some (Nat.iter t body st) /\
      test (Nat.iter t body st) = false /\
      forall s : nat, (s < t)%nat -> test (Nat.iter s body st) = true.
Proof.
  induction fuel as [|fuel IH]; intros bound st Hb Hexit; [lia|].
  simpl. destruct (test st) eqn:Et.
  - destruct bound as [|bound]; [simpl in Hexit; congruence|].
    rewrite <- iter_shift in Hexit.
    destruct (IH bound (body st) ltac:(lia) Hexit) as (t & Ht & Hw & Hf & Hs).
    exists (Datatypes.S t). rewrite <- iter_shift.
    split; [lia|]. split; [exact Hw|]. split; [exact Hf|].
    intros [|s] Hlt; [exact Et|]. rewrite <- iter_shift. apply Hs. lia.
  - exists O. split; [lia|]. split; [reflexivity|]. split; [exact Et|].
    intros s Hlt. lia.
Qed.

Section VfiLoop.

Variable fminbound : (R -> fval) -> R -> R -> R.
Variable par : params.

Let n0 := labor_table fminbound par.
Let body := loop_body par n0.
Let init := initial_vfi_state par n0.

Lemma iter_count (t : nat) : iter (Nat.iter t body init) = t.
Proof. induction t as [|t IH]; simpl; [reflexivity|]. now rewrite IH. Qed.

Lemma last_pass_after (t : nat) :
  (0 < t)%nat -> exists v1 k1 n1, last_pass (Nat.iter t body init) = Some (v1, k1, n1).
Proof. intros Ht. destruct t as [|t]; [lia|]. simpl. eauto. Qed.

Lemma loop_test_initially : loop_test init = true.
Proof.
  unfold loop_test, init, initial_vfi_state, fgtb. simpl diff. simpl iter.
  apply andb_true_intro. split.
  - apply fltb_fin. unfold crit. lra.
  - apply Nat.ltb_lt. unfold maxiter. lia.
Qed.

Lemma loop_test_at_cap : loop_test (Nat.iter maxiter body init) = false.
Proof.
  unfold loop_test. rewrite iter_count.
  apply andb_false_intro2. apply Nat.ltb_ge. lia.
Qed.

(** The loop is left after between 1 and [maxiter] passes. *)
Lemma vfi_loop_leaves (fuel : nat) :
  (maxiter < fuel)%nat ->
  exists t : nat,
    (1 <= t <= maxiter)%nat /\
    while_loop fuel loop_test body init = Some (Nat.iter t body init) /\
    loop_test (Nat.iter t body init) = false /\
    forall s : nat, (s < t)%nat -> loop_test (Nat.iter s body init) = true.
Proof.
  intros Hf.
  destruct (while_loop_leaves loop_test body init Hf loop_test_at_cap)
    as (t & Ht & Hw & Hx & Hs).
  exists t. split; [|now split].
  split; [|exact Ht].
  destruct t as [|t]; [|lia]. simpl in Hx. rewrite loop_test_initially in Hx. discriminate.
Qed.

Lemma plan_allocations_returns (fuel : nat) :
  (maxiter < fuel)%nat -> shapes_ok par = true ->
  exists (t : nat) (v1 : ftable) (k1 n1 : mat),
    (1 <= t <= maxiter)%nat /\
    while_loop fuel loop_test body init = Some (Nat.iter t body init) /\
    last_pass (Nat.iter t body init) = Some (v1, k1, n1) /\
    plan_allocations fminbound par fuel = Some (Ok (policy_tables par v1 k1 n1)).
Proof.
  intros Hf Hs.
  destruct (vfi_loop_leaves Hf) as (t & Ht & Hw & _ & _).
  destruct (@last_pass_after t ltac:(lia)) as (v1 & k1 & n1 & HL).
  exists t, v1, k1, n1. split; [exact Ht|]. split; [exact Hw|]. split; [exact HL|].
  unfold plan_allocations. rewrite Hs. simpl negb. cbv iota zeta.
  unfold body, init, n0 in Hw, HL. rewrite Hw, HL. reflexivity.
Qed.

End VfiLoop.


(** *** The arg-max and the capital policy *)

Lemma argmax_from_range (l : list fval) :
  forall (best : nat) (m : fval) (i : nat),
    argmax_from best m i l = best \/
    (i <= argmax_from best m i l < i + length l)%nat.
Proof.
  induction l as [|x l IH]; intros best m i; simpl; [now left|].
  destruct m as [| | |r]; try (now left).
  - destruct (fleb x NegInf).
    + destruct (IH best NegInf (Datatypes.S i)) as [-> | H]; [now left | right; lia].
    + destruct (IH i x (Datatypes.S i)) as [-> | H]; right; lia.
  - destruct (fleb x PosInf).
    + destruct (IH best PosInf (Datatypes.S i)) as [-> | H]; [now left | right; lia].
    + destruct (IH i x (Datatypes.S i)) as [-> | H]; right; lia.
  - destruct (fleb x (Fin r)).
    + destruct (IH best (Fin r) (Datatypes.S i)) as [-> | H]; [now left | right; lia].
    + destruct (IH i x (Datatypes.S i)) as [-> | H]; right; lia.
Qed.

Lemma argmax_lt (l : list fval) (bound : nat) :
  (0 < bound)%nat -> (length l <= bound)%nat -> (argmax l < bound)%nat.
Proof.
  intros Hb Hl. destruct l as [|x l]; simpl; [exact Hb|].
  destruct (argmax_from_range l O x 1) as [-> | H]; simpl in *; lia.
Qed.

Lemma nth_error_lt {X : Type} (l : list X) (k : nat) (x : X) :
  nth_error l k = Some x -> (k < length l)%nat.
Proof. intros H. apply nth_error_Some. congruence. Qed.

Lemma length_table {X : Type} (rows cols : nat) (f : nat -> nat -> X) :
  length (table rows cols f) = rows.
Proof. unfold table. now rewrite length_map, length_seq. Qed.

Lemma table_cell {X : Type} (rows cols : nat) (f : nat -> nat -> X) (p j : nat) (x : X) :
  cell (table rows cols f) p j = Ok x -> (p < rows)%nat /\ (j < cols)%nat /\ x = f p j.
Proof.
  unfold cell, lookup, table. intros H.
  destruct (nth_error (map _ (seq 0 rows)) p) as [row|] eqn:Er; simpl in H; [|discriminate H].
  destruct (nth_error row j) as [x'|] eqn:Ec; [|discriminate H].
  injection H as ->.
  assert (Hp : (p < rows)%nat).
  { apply nth_error_lt in Er. now rewrite length_map, length_seq in Er. }
  rewrite nth_error_map in Er. rewrite nth_error_seq in Er.
  replace (p <? rows)%nat with true in Er by (symmetry; now apply Nat.ltb_lt).
  simpl in Er. injection Er as <-.
  assert (Hj : (j < cols)%nat).
  { apply nth_error_lt in Ec. now rewrite length_map, length_seq in Ec. }
  rewrite nth_error_map, nth_error_seq in Ec.
  replace (j <? cols)%nat with true in Ec by (symmetry; now apply Nat.ltb_lt).
  simpl in Ec. injection Ec as <-. auto.
Qed.

Lemma cell_in_table {X : Type} (rows cols : nat) (f : nat -> nat -> X) (p j : nat) :
  (p < rows)%nat -> (j < cols)%nat -> cell (table rows cols f) p j = Ok (f p j).
Proof.
  intros Hp Hj. unfold cell, lookup, table.
  rewrite nth_error_map, nth_error_seq.
  replace (p <? rows)%nat with true by (symmetry; now apply Nat.ltb_lt). simpl.
  rewrite nth_error_map, nth_error_seq.
  replace (j <? cols)%nat with true by (symmetry; now apply Nat.ltb_lt). reflexivity.
Qed.

Lemma cell_in_concat {X : Type} (t : list (list X)) (p j : nat) (x : X) :
  cell t p j = Ok x -> In x (concat t).
Proof.
  unfold cell, lookup. intros H.
  destruct (nth_error t p) as [row|] eqn:Er; simpl in H; [|discriminate H].
  destruct (nth_error row j) as [x'|] eqn:Ec; [|discriminate H].
  injection H as ->. apply in_concat. exists row. split; eapply nth_error_In; eauto.
Qed.

Lemma in_concat_table {X : Type} (rows cols : nat) (f : nat -> nat -> X) (x : X) :
  In x (concat (table rows cols f)) ->
  exists p j, (p < rows)%nat /\ (j < cols)%nat /\ x = f p j.
Proof.
  intros H. apply in_concat in H. destruct H as (row & Hrow & Hx).
  unfold table in Hrow. apply in_map_iff in Hrow. destruct Hrow as (p & <- & Hp).
  apply in_map_iff in Hx. destruct Hx as (j & <- & Hj).
  apply in_seq in Hp. apply in_seq in Hj. exists p, j. repeat split; lia.
Qed.

Lemma shapes_ok_inv (par : params) :
  shapes_ok par = true ->
  (2 <= klen par)%nat /\ length (kgrid par) = klen par /\
  length (nth 0 (Agrid par) []) = Alen par.
Proof.
  unfold shapes_ok. intros H.
  repeat (apply andb_prop in H; destruct H as [H ?]).
  apply Nat.leb_le in H. repeat match goal with
  | E : (_ =? _)%nat = true |- _ => apply Nat.eqb_eq in E
  end. auto.
Qed.

Section CapitalPolicy.

Variable par : params.
Hypothesis shapes : shapes_ok par = true.

Lemma length_choice_values (n0 : cube) (v0 : ftable) (p j : nat) :
  (length (choice_values par n0 v0 p j) <= klen par)%nat.
Proof.
  destruct (shapes_ok_inv par shapes) as (_ & HL & _).
  unfold choice_values. rewrite !length_zip_with, !length_map, length_seq. lia.
Qed.

(** The capital table of a pass holds grid points only. *)
Lemma loop_body_capital_on_grid (n0 : cube) (st : vfi_state) (v1 : ftable) (k1 n1 : mat) :
  last_pass (loop_body par n0 st) = Some (v1, k1, n1) ->
  forall k, In k (concat k1) ->
    exists idx, (idx < klen par)%nat /\ k = nth idx (kgrid par) 0.
Proof.
  destruct (shapes_ok_inv par shapes) as (H2 & HL & _).
  unfold loop_body. simpl last_pass. intros H. injection H as _ <- _.
  intros k Hk. apply in_concat_table in Hk. destruct Hk as (p & j & _ & _ & ->).
  eexists. split; [|reflexivity].
  apply argmax_lt; [lia | apply length_choice_values].
Qed.

End CapitalPolicy.

Lemma while_loop_result {S : Type} (test : S -> bool) (body : S -> S) :
  forall (fuel : nat) (st st' : S),
    while_loop fuel test body st = Some st' ->
    st' = st \/ exists st0, st' = body st0.
Proof.
  induction fuel as [|fuel IH]; intros st st' H; simpl in H; [discriminate H|].
  destruct (test st).
  - destruct (IH _ _ H) as [-> | Hex]; [right; eauto | now right].
  - injection H as <-. now left.
Qed.

(** What [plan_allocations] returns comes from a pass of the loop. *)
Lemma plan_allocations_inv
    (fminbound : (R -> fval) -> R -> R -> R) (par : params) (fuel : nat) (sol : solution) :
  plan_allocations fminbound par fuel = Some (Ok sol) ->
  shapes_ok par = true /\
  exists (st : vfi_state) (v1 : ftable) (k1 n1 : mat),
    last_pass (loop_body par (labor_table fminbound par) st) = Some (v1, k1, n1) /\
    sol = policy_tables par v1 k1 n1.
Proof.
  unfold plan_allocations. destruct (shapes_ok par) eqn:Es; simpl negb; cbv iota zeta;
    [|destruct (shape_failure par); discriminate].
  intros H. split; [reflexivity|].
  destruct (while_loop fuel loop_test _ _) as [st|] eqn:Ew; [|discriminate H].
  destruct (last_pass st) as [[[v1 k1] n1]|] eqn:EL; [|discriminate H].
  injection H as <-.
  apply while_loop_result in Ew. destruct Ew as [-> | (st0 & ->)].
  - simpl in EL. discriminate EL.
  - exists st0, v1, k1, n1. now split.
Qed.

(** *** Finding a grid point back by equality *)

Lemma where_eq_absent (x : R) (grid : vec) (s : nat) :
  ~ In x grid ->
  filter (fun ig : nat * R => if Req_dec_T x (snd ig) then true else false)
         (combine (seq s (length grid)) grid) = [].
Proof.
  revert s. induction grid as [|a grid IH]; intros s Hnin; simpl; [reflexivity|].
  destruct (Req_dec_T x a) as [-> | Hne]; [elim Hnin; now left|].
  apply IH. intros Hin. apply Hnin. now right.
Qed.

Lemma where_eq_unique_from (grid : vec) :
  NoDup grid ->
  forall (s idx : nat), (idx < length grid)%nat ->
    map fst (filter (fun ig : nat * R => if Req_dec_T (nth idx grid 0) (snd ig) then true else false)
                    (combine (seq s (length grid)) grid)) = [(s + idx)%nat].
Proof.
  induction 1 as [|a grid Hnin Hnd IH]; intros s idx Hidx; simpl in Hidx; [lia|].
  destruct idx as [|idx]; simpl.
  - destruct (Req_dec_T a a) as [_ | Hne]; [|now elim Hne].
    simpl. rewrite where_eq_absent by assumption. simpl. now rewrite Nat.add_0_r.
  - destruct (Req_dec_T (nth idx grid 0) a) as [E | Hne].
    + elim Hnin. rewrite <- E. apply nth_In. lia.
    + rewrite IH by lia. f_equal. lia.
Qed.

Lemma where_eq_unique (grid : vec) (idx : nat) :
  NoDup grid -> (idx < length grid)%nat -> where_eq (nth idx grid 0) grid = [idx].
Proof.
  intros Hnd Hidx. unfold where_eq. now rewrite where_eq_unique_from.
Qed.

Lemma linspace_increasing (a b : R) (num i j : nat) :
  a < b -> (2 <= num)%nat -> (i < j < num)%nat ->
  nth i (Np.linspace a b num) 0 < nth j (Np.linspace a b num) 0.
Proof.
  intros Hab Hn Hij. rewrite !linspace_nth by lia.
  assert (Hs : 0 < Np.linspace_step a b num).
  { unfold Np.linspace_step. apply Rdiv_lt_0_compat; [lra|]. apply lt_0_INR. lia. }
  assert (INR i < INR j) by (apply lt_INR; lia).
  nra.
Qed.

Lemma linspace_NoDup (a b : R) (num : nat) :
  a < b -> (2 <= num)%nat -> NoDup (Np.linspace a b num).
Proof.
  intros Hab Hn. apply (proj2 (NoDup_nth _ 0)).
  rewrite length_linspace. intros i j Hi Hj E.
  destruct (Nat.lt_trichotomy i j) as [Hlt | [-> | Hgt]]; [|reflexivity|].
  - pose proof (@linspace_increasing a b num i j Hab Hn ltac:(lia)). lra.
  - pose proof (@linspace_increasing a b num j i Hab Hn ltac:(lia)). lra.
Qed.

(** *** What [setup] hands to the solver *)

Lemma Rltb_true (a b : R) : Rltb a b = true <-> a < b.
Proof. unfold Rltb. destruct (Rlt_dec a b); split; auto; discriminate. Qed.

Lemma Rleb_true (a b : R) : Rleb a b = true <-> a <= b.
Proof. unfold Rleb. destruct (Rle_dec a b); split; auto; discriminate. Qed.

Lemma setup_asserts_grids (c : config) :
  setup_asserts c = true ->
  cfg_kmin c < cfg_kmax c /\ (5 < cfg_klen c)%nat /\ (3 < cfg_Alen c)%nat.
Proof.
  unfold setup_asserts. intros H.
  repeat (apply andb_prop in H; destruct H as [H ?]).
  repeat match goal with
  | E : Rltb _ _ = true |- _ => apply Rltb_true in E
  | E : (_ <? _)%nat = true |- _ => apply Nat.ltb_lt in E
  end. auto.
Qed.

Lemma setup_inv (Phi : R -> R) (kwargs : config -> config) (par : params) :
  setup Phi kwargs = Ok par ->
  let c := kwargs default_config in
  setup_asserts c = true /\
  klen par = cfg_klen c /\
  kgrid par = Np.linspace (cfg_kmin c) (cfg_kmax c) (cfg_klen c) /\
  Alen par = cfg_Alen c /\
  exists ap,
    tauchen Phi (cfg_mu c) (cfg_rho c) (cfg_sigma_eps c) (cfg_Alen c) (cfg_m c)
      = Some (Ok ap) /\
    Agrid par = map (map exp) (fst ap) /\ pmat par = snd ap.
Proof.
  unfold setup. cbv zeta.
  destruct (setup_asserts (kwargs default_config)) eqn:Ea; simpl negb; cbv iota;
    [|discriminate].
  destruct (tauchen _ _ _ _ _ _) as [[ap | e]|] eqn:Et; simpl bind; [|discriminate..].
  intros H. injection H as <-. simpl. repeat split. exists ap. repeat split.
Qed.

Lemma setup_grid_distinct (Phi : R -> R) (kwargs : config -> config) (par : params) :
  setup Phi kwargs = Ok par ->
  NoDup (kgrid par) /\ length (kgrid par) = klen par /\ (5 < klen par)%nat.
Proof.
  intros H. apply setup_inv in H. cbv zeta in H.
  destruct H as (Ha & Hk & Hg & _).
  apply setup_asserts_grids in Ha. destruct Ha as (Hkk & Hkl & _).
  rewrite Hg, Hk. split; [|split].
  - apply linspace_NoDup; [assumption | lia].
  - apply length_linspace.
  - assumption.
Qed.

Lemma tauchen_shapes (Phi : R -> R) (mu rho sigma m : R) (N : nat) :
  (2 <= N)%nat ->
  exists (y : vec) (pmat : mat),
    tauchen Phi mu rho sigma N m = Some (Ok ([y], pmat)) /\
    length y = N /\ length pmat = N /\ Forall (fun row => length row = N) pmat.
Proof.
  intros HN. destruct N as [|[|n]]; [lia | lia |].
  eexists. eexists. split; [apply tauchen_returns|].
  split; [now rewrite length_map, length_seq|].
  split; [apply tauchen_pmat_length|].
  apply Forall_forall. intros row Hin.
  apply (In_nth _ _ []) in Hin. destruct Hin as (j & Hj & <-).
  rewrite tauchen_pmat_length in Hj. now apply tauchen_row_length.
Qed.

Lemma setup_shapes (Phi : R -> R) (kwargs : config -> config) (par : params) :
  setup Phi kwargs = Ok par -> shapes_ok par = true.
Proof.
  intros H. pose proof (setup_grid_distinct _ _ H) as (_ & HL & H5).
  apply setup_inv in H. cbv zeta in H.
  destruct H as (Ha & Hk & Hg & HA & ap & Ht & HAg & Hp).
  apply setup_asserts_grids in Ha. destruct Ha as (_ & _ & H3).
  destruct (@tauchen_shapes Phi (cfg_mu (kwargs default_config))
              (cfg_rho (kwargs default_config)) (cfg_sigma_eps (kwargs default_config))
              (cfg_m (kwargs default_config)) (cfg_Alen (kwargs default_config))
              ltac:(lia))
    as (y & pm & Ht' & Hy & Hpm & Hrows).
  rewrite Ht' in Ht. injection Ht as <-. cbn [fst snd] in HAg, Hp.
  unfold shapes_ok. rewrite HAg, Hp, HA, HL. cbn [map nth].
  rewrite length_map, Hy, Hpm, !Nat.eqb_refl, Nat.leb_refl.
  replace (2 <=? klen par)%nat with true by (symmetry; apply Nat.leb_le; lia).
  cbn [andb length Nat.eqb negb]. rewrite firstn_all2 by (rewrite Hpm; lia).
  replace (cfg_Alen (kwargs default_config) =? 1)%nat with false
    by (symmetry; apply Nat.eqb_neq; lia).
  cbn [negb]. rewrite !andb_true_r.
  apply forallb_forall. intros row Hrow.
  apply Nat.eqb_eq. now apply (proj1 (Forall_forall _ _) Hrows).
Qed.

Lemma setup_returns (Phi : R -> R) (kwargs : config -> config) :
  setup_asserts (kwargs default_config) = true ->
  exists par, setup Phi kwargs = Ok par.
Proof.
  intros Ha. unfold setup. cbv zeta. rewrite Ha. simpl negb. cbv iota.
  apply setup_asserts_grids in Ha. destruct Ha as (_ & _ & H3).
  destruct (@tauchen_shapes Phi (cfg_mu (kwargs default_config))
              (cfg_rho (kwargs default_config)) (cfg_sigma_eps (kwargs default_config))
              (cfg_m (kwargs default_config)) (cfg_Alen (kwargs default_config))
              ltac:(lia))
    as (y & pm & -> & _).
  simpl bind. eauto.
Qed.

(** *** Recovering the capital index in the simulator *)

Lemma period_at_cells (par : params) (sol : solution) (kt At j : nat) (per : period) :
  period_at par sol kt At j = Ok per ->
  cell (sol_y sol) kt At = Ok (per_y per) /\
  cell (sol_c sol) kt At = Ok (per_c per) /\
  cell (sol_k sol) kt At = Ok (per_k per) /\
  cell (sol_i sol) kt At = Ok (per_i per).
Proof.
  unfold period_at. intros H.
  destruct (lookup (nth 0 (Agrid par) []) At) as [A|]; simpl in H; [|discriminate H].
  destruct (cell (sol_y sol) kt At) as [y|]; simpl in H; [|discriminate H].
  destruct (cell (sol_c sol) kt At) as [c|]; simpl in H; [|discriminate H].
  destruct (cell (sol_n sol) kt At) as [n|]; simpl in H; [|discriminate H].
  destruct (cell (sol_k sol) kt At) as [k|]; simpl in H; [|discriminate H].
  destruct (cell (sol_i sol) kt At) as [i|]; simpl in H; [|discriminate H].
  destruct (lookup (gamma_series par) j) as [g|]; simpl in H; [|discriminate H].
  injection H as <-. simpl. auto.
Qed.

Section IndexRecovery.

Variable par : params.
Variable sol : solution.

Hypothesis grid_distinct : NoDup (kgrid par).
Hypothesis policy_on_grid :
  forall k : R, In k (concat (sol_k sol)) ->
    exists idx : nat, (idx < length (kgrid par))%nat /\ k = nth idx (kgrid par) 0.


Variable rng : Type.
Variable rand : rng -> R * rng.


End IndexRecovery.


Lemma setup_asserts_colab : setup_asserts (kwargs_colab default_config) = true.
Proof.
  assert (Hk : 0 < default_kss) by apply Rpower_pos.
  unfold setup_asserts, kwargs_colab, default_config.
  cbn [cfg_main cfg_figout cfg_beta cfg_sigma cfg_gamma cfg_nu cfg_alpha cfg_delta
       cfg_sigma_eps cfg_rho cfg_Alen cfg_m cfg_klen cfg_kmin cfg_kmax].
  rewrite Rabs_pos_eq by lra.
  repeat (apply andb_true_intro; split);
    try reflexivity;
    try (apply Rltb_true; lra);
    try (apply Rleb_true; lra).
Qed.


(** *** Finite values *)

Lemma fsub_fin_inv (a b : fval) (r : R) :
  fsub a b = Fin r -> exists x y : R, a = Fin x /\ b = Fin y.
Proof. destruct a, b; simpl; intros H; try discriminate H. eauto. Qed.

Lemma fadd_sq_fin_inv (acc x : fval) (r : R) :
  fadd acc (fmul x x) = Fin r -> (exists a, acc = Fin a) /\ (exists y, x = Fin y).
Proof.
  destruct acc, x; simpl; intros H; try discriminate H; eauto.
Qed.

Lemma fold_sq_not_fin (l : list fval) :
  forall acc : fval,
    (forall a, acc <> Fin a) ->
    forall r, fold_left (fun acc x => fadd acc (fmul x x)) l acc <> Fin r.
Proof.
  induction l as [|x l IH]; intros acc Hacc r; simpl; [apply Hacc|].
  apply IH. intros a H. apply fadd_sq_fin_inv in H. destruct H as [(a' & ->) _].
  now apply (Hacc a').
Qed.

Lemma fold_sq_fin_inv (l : list fval) :
  forall (acc : fval) (r : R),
    fold_left (fun acc x => fadd acc (fmul x x)) l acc = Fin r ->
    Forall (fun x => exists y, x = Fin y) l.
Proof.
  induction l as [|x l IH]; intros acc r H; simpl in H; [constructor|].
  destruct (fadd acc (fmul x x)) as [| | |s] eqn:E;
    try (exfalso; revert H; apply fold_sq_not_fin; intros a Ha; discriminate Ha).
  apply fadd_sq_fin_inv in E. destruct E as [_ Hx].
  constructor; [exact Hx | eapply IH; eauto].
Qed.

Lemma norm_fin_inv (a : ftable) (d : R) :
  norm a = Fin d -> Forall (fun x => exists y, x = Fin y) (concat a).
Proof.
  unfold norm. intros H.
  destruct (fold_left _ (concat a) (Fin 0)) as [| | |s] eqn:E; simpl in H;
    try discriminate H.
  eapply fold_sq_fin_inv; eauto.
Qed.

Lemma fleb_crit_fin (x : fval) (c : R) :
  fleb x (Fin c) = true -> x = NegInf \/ exists d, x = Fin d /\ d <= c.
Proof.
  destruct x as [| | |d]; simpl; intros H; try discriminate H; [now left | right].
  exists d. split; [reflexivity|]. destruct (Rle_dec d c); [assumption | discriminate H].
Qed.

Lemma fsqrt_not_neginf (x : fval) : fsqrt x <> NegInf.
Proof. destruct x as [| | |r]; simpl; try discriminate. destruct (Rlt_dec r 0); discriminate. Qed.

(** *** Elementwise operations cell by cell *)

Lemma nth_error_combine_inv {U V : Type} (l : list U) :
  forall (l' : list V) (k : nat) (u : U) (v : V),
    nth_error (combine l l') k = Some (u, v) ->
    nth_error l k = Some u /\ nth_error l' k = Some v.
Proof.
  induction l as [|u0 l IH]; intros [|v0 l'] [|k] u v Hk; simpl in *;
    try discriminate Hk.
  - injection Hk as -> ->. now split.
  - now apply IH.
Qed.

Lemma nth_error_combine {U V : Type} (l : list U) :
  forall (l' : list V) (k : nat) (u : U) (v : V),
    nth_error l k = Some u -> nth_error l' k = Some v ->
    nth_error (combine l l') k = Some (u, v).
Proof.
  induction l as [|u0 l IH]; intros [|v0 l'] [|k] u v Hu Hv; simpl in *;
    try discriminate.
  - injection Hu as ->. injection Hv as ->. reflexivity.
  - now apply IH.
Qed.

Lemma cell_zip_with {X Y Z : Type} (f : X -> Y -> Z)
      (a : list (list X)) (b : list (list Y)) (p j : nat) (z : Z) :
  cell (zip_with (zip_with f) a b) p j = Ok z ->
  exists x y, cell a p j = Ok x /\ cell b p j = Ok y /\ z = f x y.
Proof.
  unfold cell, lookup. intros H.
  destruct (nth_error (zip_with (zip_with f) a b) p) as [row|] eqn:Er; simpl in H;
    [|discriminate H].
  destruct (nth_error row j) as [z'|] eqn:Ec; [|discriminate H]. injection H as ->.
  unfold zip_with in Er. rewrite nth_error_map in Er.
  destruct (nth_error (combine a b) p) as [[ra rb]|] eqn:Eab; simpl in Er; [|discriminate Er].
  injection Er as <-.
  unfold zip_with in Ec. rewrite nth_error_map in Ec.
  destruct (nth_error (combine ra rb) j) as [[x y]|] eqn:Exy; simpl in Ec; [|discriminate Ec].
  injection Ec as <-.
  apply nth_error_combine_inv in Eab. destruct Eab as [Ea Eb].
  apply nth_error_combine_inv in Exy. destruct Exy as [Ex Ey].
  exists x, y. rewrite Ea, Eb. simpl. rewrite Ex, Ey. auto.
Qed.

Lemma cell_zip_with_both {X Y Z : Type} (f : X -> Y -> Z)
      (a : list (list X)) (b : list (list Y)) (p j : nat) (x : X) (y : Y) :
  cell a p j = Ok x -> cell b p j = Ok y ->
  cell (zip_with (zip_with f) a b) p j = Ok (f x y).
Proof.
  unfold cell, lookup. intros Ha Hb.
  destruct (nth_error a p) as [ra|] eqn:Era; simpl in Ha; [|discriminate Ha].
  destruct (nth_error ra j) as [x'|] eqn:Ex; [|discriminate Ha]. injection Ha as ->.
  destruct (nth_error b p) as [rb|] eqn:Erb; simpl in Hb; [|discriminate Hb].
  destruct (nth_error rb j) as [y'|] eqn:Ey; [|discriminate Hb]. injection Hb as ->.
  unfold zip_with. rewrite nth_error_map, (nth_error_combine _ _ _ Era Erb). simpl.
  rewrite nth_error_map, (nth_error_combine _ _ _ Ex Ey). reflexivity.
Qed.

(** *** The maximum and where it is attained *)

Lemma argmax_from_value (l : list fval) :
  forall (pre : list fval) (best : nat) (m : fval),
    nth best pre NaN = m -> (best < length pre)%nat ->
    nth (argmax_from best m (length pre) l) (pre ++ l) NaN = argmax_val_from m l.
Proof.
  induction l as [|x l IH]; intros pre best m Hm Hb; simpl.
  - rewrite app_nth1 by assumption. exact Hm.
  - assert (Hlen : Datatypes.S (length pre) = length (pre ++ [x]))
      by (rewrite length_app; simpl; lia).
    assert (Hshift : pre ++ x :: l = (pre ++ [x]) ++ l) by (now rewrite <- app_assoc).
    assert (Hkeep : forall m', nth best pre NaN = m' ->
              nth (argmax_from best m' (Datatypes.S (length pre)) l) (pre ++ x :: l) NaN
              = argmax_val_from m' l).
    { intros m' Hm'. rewrite Hshift, Hlen. apply IH.
      - rewrite app_nth1 by assumption. exact Hm'.
      - rewrite <- Hlen. lia. }
    assert (Hmove :
              nth (argmax_from (length pre) x (Datatypes.S (length pre)) l) (pre ++ x :: l) NaN
              = argmax_val_from x l).
    { rewrite Hshift, Hlen. apply IH.
      - rewrite app_nth2 by lia. now rewrite Nat.sub_diag.
      - rewrite <- Hlen. lia. }
    destruct m as [| | |r].
    + rewrite app_nth1 by assumption. exact Hm.
    + destruct (fleb x NegInf); [now apply Hkeep | exact Hmove].
    + destruct (fleb x PosInf); [now apply Hkeep | exact Hmove].
    + destruct (fleb x (Fin r)); [now apply Hkeep | exact Hmove].
Qed.

Lemma argmax_value (l : list fval) :
  l <> [] ->
  nth (argmax l) l NaN = match l with [] => NaN | x :: l' => argmax_val_from x l' end.
Proof.
  destruct l as [|x l]; [contradiction|]. intros _. unfold argmax.
  exact (@argmax_from_value l [x] O x eq_refl ltac:(simpl; lia)).
Qed.

Lemma fleb_false_fgtb (x m : fval) :
  x <> NaN -> m <> NaN -> fleb x m = false -> fgtb x m = true.
Proof.
  unfold fgtb. destruct x as [| | |a], m as [| | |b]; simpl; intros Hx Hm H;
    try congruence.
  destruct (Rle_dec a b); [discriminate H|]. destruct (Rlt_dec b a); [reflexivity | lra].
Qed.

Lemma fleb_true_fgtb (x m : fval) : fleb x m = true -> fgtb x m = false.
Proof.
  unfold fgtb. destruct x as [| | |a], m as [| | |b]; simpl; intros H; try congruence.
  destruct (Rle_dec a b); [|discriminate H]. destruct (Rlt_dec b a); [lra | reflexivity].
Qed.

(** A finite maximum is attained at the arg-max, unless a not-a-number
    sits there. *)
Lemma py_max_from_attained (l : list fval) :
  forall (m : fval) (r : R),
    py_max_from m l = Fin r ->
    argmax_val_from m l = Fin r \/ argmax_val_from m l = NaN.
Proof.
  induction l as [|x l IH]; intros m r H; simpl in *; [now left|].
  destruct m as [| | |b] eqn:Em; [now right | | |];
    (destruct (fleb x _) eqn:El;
     [rewrite (fleb_true_fgtb _ _ El) in H; now apply IH
     |destruct x as [| | |a] eqn:Ex;
      [right; destruct l; reflexivity
      |rewrite fleb_false_fgtb in H by (assumption || discriminate); now apply IH
      |rewrite fleb_false_fgtb in H by (assumption || discriminate); now apply IH
      |rewrite fleb_false_fgtb in H by (assumption || discriminate); now apply IH]]).
Qed.

Lemma py_max_attained (l : list fval) (r : R) :
  py_max l = Fin r -> nth (argmax l) l NaN <> NegInf.
Proof.
  destruct l as [|x l]; [discriminate|]. intros H.
  rewrite argmax_value by discriminate.
  simpl in H. destruct (py_max_from_attained _ _ H) as [-> | ->]; discriminate.
Qed.

(** *** The budget identity in a cell *)

Lemma clamp_budget (y c : fval) (i : R) :
  c = clamp0 (y - Fin i)%fval -> fleb c (Fin 0) = false ->
  (c + Fin i)%fval = y /\
  fltb c (Fin 0) = false /\
  (forall r : R, y = Fin r -> (y - Fin i - c)%fval = Fin 0 /\ c = Fin (r - i) /\ 0 < r - i).
Proof.
  intros -> Hpos. unfold clamp0 in *. destruct y as [| | |s]; simpl in *.
  - repeat split; intros; try reflexivity; congruence.
  - destruct (Rle_dec 0 0); [discriminate Hpos | lra].
  - repeat split; intros; try reflexivity; congruence.
  - destruct (Rlt_dec (s + - i) 0) as [Hneg | Hnn]; simpl in *.
    + destruct (Rle_dec 0 0); [discriminate Hpos | lra].
    + destruct (Rle_dec (s + - i) 0) as [Hle | Hgt]; [discriminate Hpos|].
      split; [f_equal; lra|].
      split; [destruct (Rlt_dec (s + - i) 0); [contradiction | reflexivity]|].
      intros r' H. injection H as <-.
      split; [f_equal; lra|]. split; [f_equal; lra | lra].
Qed.

Lemma clamp_never_negative (x : fval) : fltb (clamp0 x) (Fin 0) = false.
Proof.
  unfold clamp0. destruct (fltb x (Fin 0)) eqn:E; [|exact E].
  simpl. destruct (Rlt_dec 0 0); [lra | reflexivity].
Qed.

Lemma mask_not_neginf (c v : fval) :
  mask_infeasible c v <> NegInf -> fleb c (Fin 0) = false.
Proof. unfold mask_infeasible. destruct (fleb c (Fin 0)); [congruence | reflexivity]. Qed.

Lemma nth_table {X : Type} (rows cols : nat) (f : nat -> nat -> X) (p j : nat) (d : X) :
  (p < rows)%nat -> (j < cols)%nat -> nth j (nth p (table rows cols f) []) d = f p j.
Proof.
  intros Hp Hj. unfold table.
  rewrite (nth_map_seq _ _ []) by assumption. now rewrite nth_map_seq.
Qed.

Section FeasibleChoice.

Variable par : params.
Hypothesis shapes : shapes_ok par = true.
Variable n0 : cube.

Let kg (p : nat) : R := nth p (kgrid par) 0.
Let Ag (j : nat) : R := nth j (nth 0 (Agrid par) []) 0.

(** Consumption at capital choice [a] in state ([p], [j]), as the loop and
    the final tables both compute it. *)
Let consumption (p a j : nat) : fval :=
  clamp0 (output_of par (Ag j) (kg p) (n_at n0 p a j)
          - Fin (kg a - (1 - delta par) * kg p))%fval.

Lemma choice_values_length (v0 : ftable) (p j : nat) :
  length v0 = klen par -> length (choice_values par n0 v0 p j) = klen par.
Proof.
  intros Hv. destruct (shapes_ok_inv par shapes) as (_ & HL & _).
  unfold choice_values.
  rewrite !length_zip_with, length_combine, !length_zip_with, !length_map, length_seq. lia.
Qed.

Lemma choice_values_nth (v0 : ftable) (p j a : nat) :
  length v0 = klen par -> (a < klen par)%nat ->
  exists v, nth a (choice_values par n0 v0 p j) NaN = mask_infeasible (consumption p a j) v.
Proof.
  intros Hv Ha. destruct (shapes_ok_inv par shapes) as (_ & HL & _).
  unfold choice_values.
  set (n_pj := map (fun h2 => n_at n0 p h2 j) (seq 0 (klen par))).
  set (y := map (fun n => output_of par (nth j (nth 0 (Agrid par) []) 0)
                            (nth p (kgrid par) 0) n) n_pj).
  set (i := map (fun kp => kp - (1 - delta par) * nth p (kgrid par) 0) (kgrid par)).
  set (c := zip_with (fun y i => clamp0 (y - Fin i)%fval) y i).
  set (vall := zip_with _ (combine c n_pj) _).
  assert (Ln : length n_pj = klen par) by (unfold n_pj; now rewrite length_map, length_seq).
  assert (Ly : length y = klen par) by (unfold y; now rewrite length_map).
  assert (Li : length i = klen par) by (unfold i; now rewrite length_map).
  assert (Lc : length c = klen par) by (unfold c; rewrite length_zip_with; lia).
  assert (Lv : length vall = klen par)
    by (unfold vall; rewrite length_zip_with, length_combine, length_map; lia).
  rewrite (@nth_zip_with _ _ _ mask_infeasible c vall a NaN NaN NaN) by lia.
  exists (nth a vall NaN). f_equal.
  unfold c. rewrite (@nth_zip_with _ _ _ _ y i a NaN 0 NaN) by lia.
  unfold consumption. f_equal. f_equal.
  - unfold y. rewrite (nth_indep _ NaN (output_of par (nth j (nth 0 (Agrid par) []) 0)
                                         (nth p (kgrid par) 0) 0))
      by (rewrite length_map; lia).
    rewrite (map_nth (fun n => output_of par _ _ n)). unfold n_pj.
    now rewrite nth_map_seq.
  - f_equal. unfold i.
    rewrite (nth_indep _ 0 ((fun kp => kp - (1 - delta par) * nth p (kgrid par) 0) 0))
      by (rewrite length_map; lia).
    now rewrite (map_nth (fun kp => kp - (1 - delta par) * nth p (kgrid par) 0)).
Qed.

(** Where the maximum over the choices is finite, the chosen capital leaves
    positive consumption. *)
Lemma finite_maximum_is_feasible (v0 : ftable) (p j : nat) (r : R) :
  length v0 = klen par ->
  py_max (choice_values par n0 v0 p j) = Fin r ->
  fleb (consumption p (argmax (choice_values par n0 v0 p j)) j) (Fin 0) = false.
Proof.
  intros Hv Hmax. destruct (shapes_ok_inv par shapes) as (H2 & _ & _).
  set (a := argmax (choice_values par n0 v0 p j)).
  assert (Ha : (a < klen par)%nat)
    by (apply argmax_lt; [lia | rewrite choice_values_length by assumption; lia]).
  destruct (@choice_values_nth v0 p j a Hv Ha) as (v & Hnth).
  apply py_max_attained in Hmax. fold a in Hmax. rewrite Hnth in Hmax.
  now apply mask_not_neginf in Hmax.
Qed.

(** The final tables, cell by cell, from the tables of a pass. *)
Lemma policy_tables_cell (st : vfi_state) (v1 : ftable) (k1 n1 : mat)
      (p j : nat) (y c : fval) (i : R) :
  last_pass (loop_body par n0 st) = Some (v1, k1, n1) ->
  cell (sol_y (policy_tables par v1 k1 n1)) p j = Ok y ->
  cell (sol_c (policy_tables par v1 k1 n1)) p j = Ok c ->
  cell (sol_i (policy_tables par v1 k1 n1)) p j = Ok i ->
  (p < klen par)%nat /\ (j < Alen par)%nat /\
  c = clamp0 (y - Fin i)%fval /\
  c = consumption p (argmax (choice_values par n0 (v0 st) p j)) j /\
  cell v1 p j = Ok (py_max (choice_values par n0 (v0 st) p j)).
Proof.
  unfold loop_body. simpl last_pass. intros H. injection H as <- <- <-.
  unfold policy_tables. simpl sol_y. simpl sol_c. simpl sol_i.
  intros Hy Hc Hi.
  apply table_cell in Hy. destruct Hy as (Hp & Hj & ->).
  apply table_cell in Hi. destruct Hi as (_ & _ & ->).
  apply cell_zip_with in Hc. destruct Hc as (y' & i' & Hy' & Hi' & ->).
  apply table_cell in Hy'. destruct Hy' as (_ & _ & ->).
  apply table_cell in Hi'. destruct Hi' as (_ & _ & ->).
  split; [assumption|]. split; [assumption|]. split; [reflexivity|].
  split; [|now apply cell_in_table].
  unfold consumption, kg, Ag. rewrite !nth_table by assumption. reflexivity.
Qed.

End FeasibleChoice.

(** *** The tables when the loop leaves with a finite difference *)

Lemma while_loop_from_invariant {S : Type} (P : S -> Prop)
      (test : S -> bool) (body : S -> S) :
  (forall s, P s -> P (body s)) ->
  forall (fuel : nat) (st st' : S),
    P st -> while_loop fuel test body st = Some st' ->
    st' = st \/ exists s0, P s0 /\ st' = body s0.
Proof.
  intros Hbody. induction fuel as [|fuel IH]; intros st st' HP H; simpl in H;
    [discriminate H|].
  destruct (test st).
  - destruct (IH _ _ (Hbody _ HP) H) as [-> | Hex]; [right; eauto | now right].
  - injection H as <-. now left.
Qed.

Section FiniteDifference.

Variable par : params.
Hypothesis shapes : shapes_ok par = true.
Variable n0 : cube.

Lemma full_table_initial : full_table par (v0 (initial_vfi_state par n0)).
Proof. unfold initial_vfi_state, initial_guess. simpl v0. eexists. reflexivity. Qed.

Lemma full_table_loop_body (st : vfi_state) : full_table par (v0 (loop_body par n0 st)).
Proof. unfold loop_body. simpl v0. eexists. reflexivity. Qed.

Lemma finite_difference_finite_maximum (st : vfi_state) (d : R) (p j : nat) :
  full_table par (v0 st) ->
  diff (loop_body par n0 st) = Fin d ->
  (p < klen par)%nat -> (j < Alen par)%nat ->
  exists r : R, py_max (choice_values par n0 (v0 st) p j) = Fin r.
Proof.
  intros (f & Hf) Hd Hp Hj. unfold loop_body in Hd. simpl diff in Hd.
  apply norm_fin_inv in Hd.
  assert (Hcell : cell (zip_with (zip_with fsub)
                          (table (klen par) (Alen par)
                             (fun p j => py_max (choice_values par n0 (v0 st) p j)))
                          (v0 st)) p j
                  = Ok (fsub (py_max (choice_values par n0 (v0 st) p j)) (f p j))).
  { apply cell_zip_with_both; [now apply cell_in_table|].
    rewrite Hf. now apply cell_in_table. }
  apply cell_in_concat in Hcell.
  destruct (proj1 (Forall_forall _ _) Hd _ Hcell) as (y & Hy).
  apply fsub_fin_inv in Hy. destruct Hy as (x & _ & Hx & _). eauto.
Qed.

Lemma budget_when_difference_finite
      (st : vfi_state) (d : R) (v1 : ftable) (k1 n1 : mat)
      (p j : nat) (y c : fval) (i : R) :
  full_table par (v0 st) ->
  diff (loop_body par n0 st) = Fin d ->
  last_pass (loop_body par n0 st) = Some (v1, k1, n1) ->
  cell (sol_y (policy_tables par v1 k1 n1)) p j = Ok y ->
  cell (sol_c (policy_tables par v1 k1 n1)) p j = Ok c ->
  cell (sol_i (policy_tables par v1 k1 n1)) p j = Ok i ->
  (c + Fin i)%fval = y /\
  fltb c (Fin 0) = false /\
  (forall r : R, y = Fin r -> (y - Fin i - c)%fval = Fin 0 /\ c = Fin (r - i) /\ 0 < r - i).
Proof.
  intros Hfull Hd Hlast Hy Hc Hi.
  destruct (@policy_tables_cell par n0 st v1 k1 n1 p j y c i Hlast Hy Hc Hi)
    as (Hp & Hj & Hclamp & Hcons & _).
  destruct (@finite_difference_finite_maximum st d p j Hfull Hd Hp Hj) as (r & Hr).
  assert (Hlen : length (v0 st) = klen par).
  { destruct Hfull as (f & ->). apply length_table. }
  pose proof (@finite_maximum_is_feasible par shapes n0 (v0 st) p j r Hlen Hr) as Hfeas.
  apply clamp_budget; [exact Hclamp | rewrite Hcons; exact Hfeas].
Qed.

End FiniteDifference.

(** *** The periods of a simulation are cells of the tables *)

Section SimulatedCells.

Variable rng : Type.
Variable seed_rng : nat -> rng.
Variable choice_p : nat -> vec -> rng -> option (nat * rng).
Variable choice_uniform : nat -> rng -> option (nat * rng).
Variable rand : rng -> R * rng.
Variable par : params.
Variable sol : solution.

Lemma period_at_from_cell (kt At j : nat) (per : period) :
  period_at par sol kt At j = Ok per -> from_cell sol per.
Proof.
  intros H. apply period_at_cells in H. destruct H as (Hy & Hc & _ & Hi).
  exists kt, At. auto.
Qed.

Lemma sim_loop_from_cells (cmat : mat) (steps : nat) :
  forall (j : nat) (k_prev : R) (At : nat) (s : rng) (pers : list period),
    sim_loop rand par sol cmat steps j k_prev At s = Ok pers ->
    Forall (from_cell sol) pers.
Proof.
  induction steps as [|steps IH]; intros j k_prev At s pers H; simpl in H.
  - injection H as <-. constructor.
  - destruct (capital_index par k_prev) as [kt|]; simpl in H; [|discriminate H].
    destruct (period_at par sol kt At j) as [per|] eqn:Ep; simpl in H; [|discriminate H].
    destruct (next_A rand cmat At s) as [nx|]; simpl in H; [|discriminate H].
    destruct (sim_loop rand par sol cmat steps (S j) (per_k per) (fst nx) (snd nx))
      as [rest|] eqn:Er; simpl in H; [|discriminate H].
    injection H as <-. constructor; [now apply period_at_from_cell in Ep | eauto].
Qed.

Lemma simulate_periods_from_cells (pers : list period) :
  simulate_periods seed_rng choice_p choice_uniform rand par sol = Ok pers ->
  Forall (from_cell sol) pers.
Proof.
  unfold simulate_periods. intros H.
  destruct (stationary_row (pmat par)) as [pmat0|]; simpl in H; [|discriminate H].
  destruct (draw (choice_p _ _ _)) as [a0|]; simpl in H; [|discriminate H].
  destruct (draw (choice_uniform _ _)) as [k0|]; simpl in H; [|discriminate H].
  destruct (_ =? 0)%nat; [discriminate H|].
  destruct (period_at par sol (fst k0) (fst a0) 0) as [per0|] eqn:Ep; simpl in H;
    [|discriminate H].
  destruct (next_A _ _ _ _) as [nx|]; simpl in H; [|discriminate H].
  destruct (sim_loop _ _ _ _ _ _ _ _ _) as [rest|] eqn:Er; simpl in H; [|discriminate H].
  injection H as <-.
  constructor; [now apply period_at_from_cell in Ep | now apply sim_loop_from_cells in Er].
Qed.

Lemma in_skipn {X : Type} (n : nat) (l : list X) (x : X) : In x (skipn n l) -> In x l.
Proof. intros H. rewrite <- (firstn_skipn n l). apply in_or_app. now right. Qed.

(** Period [t] of the retained path, read back from its series. *)
Lemma grow_economy_period (sim : simulation) (t : nat) (y c : fval) (i : R) :
  grow_economy seed_rng choice_p choice_uniform rand par sol = Ok sim ->
  nth_error (ysim sim) t = Some y ->
  nth_error (csim sim) t = Some c ->
  nth_error (isim sim) t = Some i ->
  exists per, from_cell sol per /\ per_y per = y /\ per_c per = c /\ per_i per = i.
Proof.
  unfold grow_economy. intros H Hy Hc Hi.
  destruct (simulate_periods _ _ _ _ _ _) as [pers|] eqn:Ep; simpl in H; [|discriminate H].
  injection H as <-. simpl in Hy, Hc, Hi.
  rewrite nth_error_map in Hy, Hc, Hi.
  destruct (nth_error (skipn (T par) pers) t) as [per|] eqn:Et; simpl in *;
    [|discriminate Hy].
  injection Hy as <-. injection Hc as <-. injection Hi as <-.
  exists per. split; [|auto].
  apply simulate_periods_from_cells in Ep.
  apply nth_error_In, in_skipn in Et.
  exact (proj1 (Forall_forall _ _) Ep _ Et).
Qed.

Lemma grow_economy_lengths (sim : simulation) :
  grow_economy seed_rng choice_p choice_uniform rand par sol = Ok sim ->
  length (csim sim) = length (ysim sim) /\ length (isim sim) = length (ysim sim).
Proof.
  unfold grow_economy. intros H.
  destruct (simulate_periods _ _ _ _ _ _) as [pers|]; simpl in H; [|discriminate H].
  injection H as <-. simpl. now rewrite !length_map.
Qed.

End SimulatedCells.

(** The six tables built from a pass of the loop have a cell for every
    state. *)
Lemma policy_tables_cells (par : params) (n0 : cube) (st : vfi_state)
    (v1 : ftable) (k1 n1 : mat) (p j : nat) :
  last_pass (loop_body par n0 st) = Some (v1, k1, n1) ->
  (p < klen par)%nat -> (j < Alen par)%nat ->
  exists (y c v : fval) (k n i : R),
    cell (sol_y (policy_tables par v1 k1 n1)) p j = Ok y /\
    cell (sol_k (policy_tables par v1 k1 n1)) p j = Ok k /\
    cell (sol_n (policy_tables par v1 k1 n1)) p j = Ok n /\
    cell (sol_i (policy_tables par v1 k1 n1)) p j = Ok i /\
    cell (sol_c (policy_tables par v1 k1 n1)) p j = Ok c /\
    cell (sol_v (policy_tables par v1 k1 n1)) p j = Ok v.
Proof.
  intros Hlast Hp Hj.
  unfold loop_body in Hlast. cbn [last_pass] in Hlast. injection Hlast as <- <- <-.
  unfold policy_tables. cbn [sol_y sol_k sol_n sol_i sol_c sol_v].
  do 6 eexists.
  split; [now apply cell_in_table|]. split; [now apply cell_in_table|].
  split; [now apply cell_in_table|]. split; [now apply cell_in_table|].
  assert (Cc : forall fy fi,
            cell (zip_with (zip_with (fun (y0 : fval) (i0 : R) => clamp0 (y0 - Fin i0)%fval))
                    (table (klen par) (Alen par) fy) (table (klen par) (Alen par) fi)) p j =
            Ok (clamp0 (fy p j - Fin (fi p j))%fval)).
  { intros fy fi.
    apply (@cell_zip_with_both _ _ _ (fun (y0 : fval) (i0 : R) => clamp0 (y0 - Fin i0)%fval));
      now apply cell_in_table. }
  split; [apply Cc|].
  apply cell_zip_with_both; [apply Cc | now apply cell_in_table].
Qed.

(** C5: when the iteration has converged (the loop is left with a
    difference of at most 1e-6), the policy tables have a cell for every
    capital state and productivity state, and in every cell output equals
    consumption plus investment and consumption is not negative; every
    retained period of a simulated path is read from one cell, so the same
    holds period by period, with output minus investment minus consumption
    equal to zero. *)
Theorem budget_identity_after_convergence
    (fminbound : (R -> fval) -> R -> R -> R) (par : params) (fuel : nat)
    (st : vfi_state) (sol : solution) :
  let n0 := labor_table fminbound par in
  while_loop fuel loop_test (loop_body par n0) (initial_vfi_state par n0) = Some st ->
  fleb (diff st) (Fin (1 / 1000000)) = true ->
  plan_allocations fminbound par fuel = Some (Ok sol) ->
  (forall p j : nat, (p < klen par)%nat -> (j < Alen par)%nat ->
     exists (y c : fval) (i : R),
       cell (sol_y sol) p j = Ok y /\ cell (sol_c sol) p j = Ok c /\
       cell (sol_i sol) p j = Ok i) /\
  (forall (p j : nat) (y c : fval) (i : R),
      cell (sol_y sol) p j = Ok y ->
      cell (sol_c sol) p j = Ok c ->
      cell (sol_i sol) p j = Ok i ->
      (c + Fin i)%fval = y /\ fltb c (Fin 0) = false /\
      (forall r : R, y = Fin r -> (y - Fin i - c)%fval = Fin 0)) /\
  (forall (rng : Type) (seed_rng : nat -> rng)
          (choice_p : nat -> vec -> rng -> option (nat * rng))
          (choice_uniform : nat -> rng -> option (nat * rng))
          (rand : rng -> R * rng) (sim : simulation),
      grow_economy seed_rng choice_p choice_uniform rand par sol = Ok sim ->
      length (csim sim) = length (ysim sim) /\
      length (isim sim) = length (ysim sim) /\
      forall (t : nat) (y c : fval) (i : R),
        nth_error (ysim sim) t = Some y ->
        nth_error (csim sim) t = Some c ->
        nth_error (isim sim) t = Some i ->
        (c + Fin i)%fval = y /\ fltb c (Fin 0) = false /\
        (forall r : R, y = Fin r -> (y - Fin i - c)%fval = Fin 0)).
Proof.
  intros n0 Hloop Hconv Hplan.
  assert (Hshapes : shapes_ok par = true)
    by exact (proj1 (plan_allocations_inv _ _ _ Hplan)).
  assert (Hsol : exists s0 d v1 k1 n1,
             full_table par (v0 s0) /\
             diff (loop_body par n0 s0) = Fin d /\
             last_pass (loop_body par n0 s0) = Some (v1, k1, n1) /\
             sol = policy_tables par v1 k1 n1).
  { destruct (@while_loop_from_invariant _ (fun s => full_table par (v0 s)) loop_test
                (loop_body par n0) (fun s _ => full_table_loop_body par n0 s) fuel _ _
                (full_table_initial par n0) Hloop) as [-> | (s0 & Hfull & ->)].
    - unfold initial_vfi_state in Hconv. simpl diff in Hconv.
      apply fleb_fin in Hconv. lra.
    - apply fleb_crit_fin in Hconv. destruct Hconv as [Hinf | (d & Hd & _)].
      + unfold loop_body in Hinf. simpl diff in Hinf. unfold norm in Hinf.
        now apply fsqrt_not_neginf in Hinf.
      + unfold plan_allocations in Hplan. rewrite Hshapes in Hplan.
        simpl negb in Hplan. cbv iota zeta in Hplan. fold n0 in Hplan.
        rewrite Hloop in Hplan.
        destruct (last_pass (loop_body par n0 s0)) as [[[v1 k1] n1]|] eqn:EL;
          [|discriminate Hplan].
        injection Hplan as <-. exists s0, d, v1, k1, n1. auto. }
  destruct Hsol as (s0 & d & v1 & k1 & n1 & Hfull & Hd & Hlast & ->).
  assert (Hcells : forall (p j : nat) (y c : fval) (i : R),
             cell (sol_y (policy_tables par v1 k1 n1)) p j = Ok y ->
             cell (sol_c (policy_tables par v1 k1 n1)) p j = Ok c ->
             cell (sol_i (policy_tables par v1 k1 n1)) p j = Ok i ->
             (c + Fin i)%fval = y /\ fltb c (Fin 0) = false /\
             (forall r : R, y = Fin r -> (y - Fin i - c)%fval = Fin 0)).
  { intros p j y c i Hy Hc Hi.
    destruct (@budget_when_difference_finite par Hshapes n0 s0 d v1 k1 n1 p j y c i
                Hfull Hd Hlast Hy Hc Hi) as (H1 & H2 & H3).
    split; [exact H1|]. split; [exact H2|]. intros r Hr. exact (proj1 (H3 r Hr)). }
  split.
  { intros p j Hp Hj.
    destruct (@policy_tables_cells par n0 s0 v1 k1 n1 p j Hlast Hp Hj)
      as (y & c & _ & _ & _ & i & Cy & _ & _ & Ci & Cc & _).
    exists y, c, i. auto. }
  split; [exact Hcells|].
  intros rng seed_rng choice_p choice_uniform rand sim Hsim.
  destruct (grow_economy_lengths _ _ _ _ _ _ Hsim) as (L1 & L2).
  split; [exact L1|]. split; [exact L2|].
  intros t y c i Hy Hc Hi.
  destruct (grow_economy_period _ _ _ _ _ _ _ Hsim Hy Hc Hi)
    as (per & (kt & At & Cy & Cc & Ci) & <- & <- & <-).
  exact (Hcells kt At _ _ _ Cy Cc Ci).
Qed.

(** *** A model that converges in one pass *)

Lemma Rpower_quarter_half : Rpower (1 / 4) (1 / 2) = 1 / 2.
Proof.
  pose proof (Rpower_pos (1 / 4) (1 / 2)) as Hs.
  pose proof (@Rpower_half_square (1 / 4) ltac:(lra)) as Hss.
  set (s := Rpower (1 / 4) (1 / 2)) in *. nra.
Qed.

Lemma Rpower_four_half : Rpower 4 (1 / 2) = 2.
Proof.
  pose proof (Rpower_pos 4 (1 / 2)) as Hs.
  pose proof (@Rpower_half_square 4 ltac:(lra)) as Hss.
  set (s := Rpower 4 (1 / 2)) in *. nra.
Qed.

Lemma Rpower_minus_one (c : R) : 0 < c -> Rpower c (1 - 2) = / c.
Proof.
  intros Hc. replace (1 - 2) with (- (1)) by lra.
  rewrite Rpower_Ropp, Rpower_1 by assumption. reflexivity.
Qed.

Lemma util_two_points (c : R) :
  0 < c -> util (Fin c) (1 / 4) 2 1 1 = Fin (leisure_quarter - / c).
Proof.
  intros Hc. unfold util.
  destruct (Req_dec_T 2 1) as [E | _]; [lra|].
  rewrite (fpow_pos_base (x := 1 - 1 / 4)) by lra.
  rewrite (fpow_pos_base (x := c)) by lra.
  rewrite !fdiv_fin by lra. cbn [fmul fadd].
  rewrite Rpower_minus_one by assumption. unfold leisure_quarter.
  f_equal. field. lra.
Qed.

Lemma output_identity_low (A : R) : output_of par_identity A 1 (1 / 4) = Fin (A / 2).
Proof.
  unfold output_of. cbn [alpha par_identity].
  rewrite !fpow_pos_base by lra. cbn [fmul].
  replace (1 - 1 / 2) with (1 / 2) by lra.
  rewrite Rpower_base_1, Rpower_quarter_half. f_equal. lra.
Qed.

Lemma output_identity_high (A : R) : output_of par_identity A 4 (1 / 4) = Fin A.
Proof.
  unfold output_of. cbn [alpha par_identity].
  rewrite !fpow_pos_base by lra. cbn [fmul].
  replace (1 - 1 / 2) with (1 / 2) by lra.
  rewrite Rpower_four_half, Rpower_quarter_half. f_equal. lra.
Qed.

Lemma clamp0_fin (x : R) : 0 <= x -> clamp0 (Fin x) = Fin x.
Proof.
  intros Hx. unfold clamp0. simpl. destruct (Rlt_dec x 0); [lra | reflexivity].
Qed.

Lemma clamp0_fin_neg (x : R) : x < 0 -> clamp0 (Fin x) = Fin 0.
Proof.
  intros Hx. unfold clamp0. simpl. destruct (Rlt_dec x 0); [reflexivity | lra].
Qed.

Lemma mask_feasible (c : R) (v : fval) : 0 < c -> mask_infeasible (Fin c) v = v.
Proof.
  intros Hc. unfold mask_infeasible. simpl. destruct (Rle_dec c 0); [lra | reflexivity].
Qed.

Lemma mask_zero (v : fval) : mask_infeasible (Fin 0) v = NegInf.
Proof. unfold mask_infeasible. simpl. destruct (Rle_dec 0 0); [reflexivity | lra]. Qed.

Lemma labor_table_identity :
  labor_table fminbound_quarter par_identity =
  [[[1 / 4; 1 / 4]; [1 / 4; 1 / 4]]; [[1 / 4; 1 / 4]; [1 / 4; 1 / 4]]].
Proof. reflexivity. Qed.

Lemma fsub_fin (x y : R) : fsub (Fin x) (Fin y) = Fin (x - y).
Proof. reflexivity. Qed.

(** The first guess: the value of staying at the current capital for
    ever. *)
Lemma initial_guess_identity :
  initial_guess par_identity (labor_table fminbound_quarter par_identity) = identity_values.
Proof.
  rewrite labor_table_identity.
  unfold initial_guess, table. cbn [map seq klen Alen par_identity].
  unfold n_at. cbn [nth kgrid Agrid delta sigma nu gamma beta par_identity].
  rewrite !output_identity_low, !output_identity_high, !fsub_fin.
  rewrite !clamp0_fin, !mask_feasible, !util_two_points by lra.
  rewrite !fdiv_fin by lra.
  unfold identity_values.
  repeat (f_equal; try lra).
Qed.

(** The value of the two capital choices in each of the four states. *)
Lemma choice_values_identity_low (j : nat) :
  (j < 2)%nat ->
  choice_values par_identity (labor_table fminbound_quarter par_identity)
    identity_values 0 j =
  [nth j (nth 0 identity_values []) NaN; NegInf].
Proof.
  intros Hj. rewrite labor_table_identity.
  unfold choice_values. cbn [map seq klen Alen par_identity].
  unfold n_at.
  destruct j as [|[|j]]; [| |lia];
    cbn [nth kgrid Agrid pmat identity2 delta sigma nu gamma beta par_identity map
         identity_values];
    rewrite !output_identity_low;
    unfold zip_with; cbn [combine map fst snd]; rewrite !fsub_fin;
    (rewrite clamp0_fin by lra); (rewrite clamp0_fin_neg by lra);
    rewrite mask_zero; (rewrite mask_feasible by lra);
    (rewrite util_two_points by lra);
    unfold fdot, zip_with; cbn [combine map fst snd fold_left fmul fadd];
    f_equal; f_equal; lra.
Qed.

Lemma choice_values_identity_high_first :
  choice_values par_identity (labor_table fminbound_quarter par_identity)
    identity_values 1 0 =
  [Fin (25 * leisure_quarter - 193 / 4); Fin (25 * (leisure_quarter - 1))].
Proof.
  rewrite labor_table_identity.
  unfold choice_values. cbn [map seq klen Alen par_identity].
  unfold n_at.
  cbn [nth kgrid Agrid pmat identity2 delta sigma nu gamma beta par_identity map
       identity_values].
  rewrite !output_identity_high.
  unfold zip_with. cbn [combine map fst snd]. rewrite !fsub_fin.
  rewrite !clamp0_fin by lra. rewrite !mask_feasible by lra.
  rewrite !util_two_points by lra.
  unfold fdot, zip_with. cbn [combine map fst snd fold_left fmul fadd].
  f_equal; [f_equal; lra | f_equal; f_equal; lra].
Qed.

Lemma choice_values_identity_high_second :
  choice_values par_identity (labor_table fminbound_quarter par_identity)
    identity_values 1 1 =
  [Fin (25 * leisure_quarter - 121 / 5); Fin (25 * (leisure_quarter - / 2))].
Proof.
  rewrite labor_table_identity.
  unfold choice_values. cbn [map seq klen Alen par_identity].
  unfold n_at.
  cbn [nth kgrid Agrid pmat identity2 delta sigma nu gamma beta par_identity map
       identity_values].
  rewrite !output_identity_high.
  unfold zip_with. cbn [combine map fst snd]. rewrite !fsub_fin.
  rewrite !clamp0_fin by lra. rewrite !mask_feasible by lra.
  rewrite !util_two_points by lra.
  unfold fdot, zip_with. cbn [combine map fst snd fold_left fmul fadd].
  f_equal; [f_equal; lra | f_equal; f_equal; lra].
Qed.

Lemma py_max_pair (x y : R) : x < y -> py_max [Fin x; Fin y] = Fin y.
Proof.
  intros H. unfold py_max, py_max_from, fgtb.
  now rewrite (proj2 (fltb_fin x y) H).
Qed.

Lemma argmax_pair (x y : R) : x < y -> argmax [Fin x; Fin y] = 1%nat.
Proof.
  intros H. unfold argmax, argmax_from.
  assert (E : fleb (Fin y) (Fin x) = false).
  { unfold fleb. destruct (Rle_dec y x); [lra | reflexivity]. }
  now rewrite E.
Qed.

Lemma norm_zero_difference (a b c d : R) :
  norm (zip_with (zip_with fsub) [[Fin a; Fin b]; [Fin c; Fin d]]
          [[Fin a; Fin b]; [Fin c; Fin d]]) = Fin 0.
Proof.
  unfold norm, zip_with. cbn [combine map fst snd concat app fold_left].
  rewrite !fsub_fin. cbn [fmul fadd].
  replace (0 + (a - a) * (a - a) + (b - b) * (b - b) + (c - c) * (c - c)
           + (d - d) * (d - d)) with 0 by ring.
  unfold fsqrt. destruct (Rlt_dec 0 0); [lra|]. now rewrite sqrt_0.
Qed.

(** The first pass leaves the first guess as it is: in every state staying
    is the best choice. *)
Lemma loop_body_identity :
  loop_body par_identity (labor_table fminbound_quarter par_identity)
    (initial_vfi_state par_identity (labor_table fminbound_quarter par_identity)) =
  {| v0 := identity_values;
     last_pass := Some (identity_values, identity_capital, identity_labor);
     diff := Fin 0;
     iter := 1 |}.
Proof.
  unfold loop_body, initial_vfi_state. cbn [v0 iter].
  rewrite initial_guess_identity.
  unfold table. cbn [map seq klen Alen par_identity].
  rewrite !choice_values_identity_low by lia.
  rewrite choice_values_identity_high_first, choice_values_identity_high_second.
  rewrite !py_max_pair, !argmax_pair by lra.
  cbn [nth identity_values].
  change (py_max [Fin (25 * (leisure_quarter - 2)); NegInf])
    with (Fin (25 * (leisure_quarter - 2))).
  change (py_max [Fin (25 * (leisure_quarter - 1)); NegInf])
    with (Fin (25 * (leisure_quarter - 1))).
  change (argmax [Fin (25 * (leisure_quarter - 2)); NegInf]) with O.
  change (argmax [Fin (25 * (leisure_quarter - 1)); NegInf]) with O.
  unfold identity_values at 1. rewrite norm_zero_difference, labor_table_identity.
  reflexivity.
Qed.

Lemma identity_converges (fuel : nat) :
  (2 <= fuel)%nat ->
  while_loop fuel loop_test
    (loop_body par_identity (labor_table fminbound_quarter par_identity))
    (initial_vfi_state par_identity (labor_table fminbound_quarter par_identity))
  = Some (loop_body par_identity (labor_table fminbound_quarter par_identity)
            (initial_vfi_state par_identity
               (labor_table fminbound_quarter par_identity))) /\
  fleb (diff (loop_body par_identity (labor_table fminbound_quarter par_identity)
                (initial_vfi_state par_identity
                   (labor_table fminbound_quarter par_identity))))
       (Fin (1 / 1000000)) = true.
Proof.
  intros Hf. destruct fuel as [|[|fuel]]; [lia | lia |].
  cbn [while_loop]. rewrite loop_test_initially.
  rewrite loop_body_identity.
  assert (E : loop_test
                {| v0 := identity_values;
                   last_pass := Some (identity_values, identity_capital, identity_labor);
                   diff := Fin 0;
                   iter := 1 |} = false).
  { unfold loop_test. cbn [diff iter]. apply andb_false_intro1.
    unfold fgtb, fltb, crit. destruct (Rlt_dec (1 / 1000000) 0); [lra | reflexivity]. }
  rewrite E. split; [reflexivity|].
  cbn [diff]. apply fleb_fin. lra.
Qed.

(** [plan_allocations] on [par_identity]: one pass, and the tables of
    staying. *)
Lemma plan_allocations_identity (fuel : nat) :
  (2 <= fuel)%nat ->
  plan_allocations fminbound_quarter par_identity fuel =
  Some (Ok (policy_tables par_identity identity_values identity_capital identity_labor)).
Proof.
  intros Hf. unfold plan_allocations.
  change (shapes_ok par_identity) with true. cbn [negb]. cbv zeta.
  rewrite (proj1 (identity_converges Hf)).
  rewrite loop_body_identity. reflexivity.
Qed.

(** *** The simulation runs to its end *)

Lemma lookup_in_range {X : Type} (l : list X) (k : nat) (d : X) :
  (k < length l)%nat -> lookup l k = Ok (nth k l d).
Proof.
  intros H. unfold lookup. rewrite (nth_error_nth' l d H). reflexivity.
Qed.

(** A draw not above the total of a row is reached by one of its running
    sums, at an index of the row. *)
Lemma first_reached_from (u : R) (v : vec) :
  forall (acc : R) (s : nat),
    v <> [] -> u <= acc + Np.vsum v ->
    exists (ic : nat * R) (rest : list (nat * R)),
      filter (fun ic => Rleb u (snd ic))
             (combine (seq s (length (Np.cumsum_from acc v))) (Np.cumsum_from acc v))
      = ic :: rest /\ (s <= fst ic < s + length v)%nat.
Proof.
  induction v as [|x v IH]; intros acc s Hne Hu; [congruence|].
  simpl. destruct (Rleb u (acc + x)) eqn:E.
  - eexists. eexists. split; [reflexivity|]. simpl. lia.
  - destruct v as [|x' v].
    + simpl in Hu. assert (Rleb u (acc + x) = true) by (apply Rleb_true; lra).
      congruence.
    + destruct (IH (acc + x) (S s)) as (ic & rest & Hf & Hr).
      * discriminate.
      * simpl in Hu |- *. lra.
      * exists ic, rest. split; [exact Hf|]. simpl in Hr |- *. lia.
Qed.

Lemma first_reached_returns (u : R) (row : vec) :
  row <> [] -> u <= Np.vsum row ->
  exists k : nat, first_reached u (Np.cumsum row) = Ok k /\ (k < length row)%nat.
Proof.
  intros Hne Hu. unfold first_reached, Np.cumsum.
  destruct (@first_reached_from u row 0 0%nat Hne ltac:(lra)) as (ic & rest & Hf & Hr).
  rewrite Hf. exists (fst ic). split; [reflexivity | lia].
Qed.

Lemma shapes_ok_rows (par : params) (j : nat) :
  shapes_ok par = true -> (j < Alen par)%nat ->
  (j < length (pmat par))%nat /\ length (nth j (pmat par) []) = Alen par.
Proof.
  unfold shapes_ok. intros H Hj.
  apply andb_prop in H. destruct H as [H _].
  apply andb_prop in H. destruct H as [H _].
  apply andb_prop in H. destruct H as [H Hrows].
  apply andb_prop in H. destruct H as [_ Hlen]. apply Nat.leb_le in Hlen.
  split; [lia|].
  rewrite forallb_forall in Hrows.
  apply Nat.eqb_eq, Hrows.
  rewrite <- (firstn_skipn (Alen par) (pmat par)) at 1.
  assert (L : length (firstn (Alen par) (pmat par)) = Alen par)
    by (rewrite length_firstn; lia).
  rewrite app_nth1 by lia. apply nth_In. lia.
Qed.

Section SimulationRuns.

Variable rng : Type.
Variable seed_rng : nat -> rng.
Variable choice_p : nat -> vec -> rng -> option (nat * rng).
Variable choice_uniform : nat -> rng -> option (nat * rng).
Variable rand : rng -> R * rng.

(** What is asked of the generator: a draw among [N > 0] outcomes gives one
    of them, and a uniform draw is at most 1. *)
Hypothesis choice_p_in_range :
  forall (N : nat) (p : vec) (s : rng), (0 < N)%nat ->
    exists (k : nat) (s' : rng), choice_p N p s = Some (k, s') /\ (k < N)%nat.
Hypothesis choice_uniform_in_range :
  forall (N : nat) (s : rng), (0 < N)%nat ->
    exists (k : nat) (s' : rng), choice_uniform N s = Some (k, s') /\ (k < N)%nat.
Hypothesis rand_unit : forall s : rng, fst (rand s) <= 1.

Variable par : params.
Hypothesis shapes : shapes_ok par = true.
Hypothesis grid_distinct : NoDup (kgrid par).
Hypothesis states : (0 < Alen par)%nat.
Hypothesis horizon : (0 < T par)%nat.
Hypothesis rows_sum :
  forall j : nat, (j < Alen par)%nat -> Np.vsum (nth j (pmat par) []) = 1.

Variable n0 : cube.
Variable st : vfi_state.
Variable v1 : ftable.
Variables k1 n1 : mat.
Hypothesis pass : last_pass (loop_body par n0 st) = Some (v1, k1, n1).

Let sol := policy_tables par v1 k1 n1.

Lemma next_A_returns (At : nat) (s : rng) :
  (At < Alen par)%nat ->
  exists At' : nat,
    next_A rand (map Np.cumsum (pmat par)) At s = Ok (At', snd (rand s)) /\
    (At' < Alen par)%nat.
Proof.
  intros HA. destruct (@shapes_ok_rows par At shapes HA) as (Hlt & Hlen).
  unfold next_A.
  rewrite (@lookup_in_range _ (map Np.cumsum (pmat par)) At (Np.cumsum []))
    by (rewrite length_map; exact Hlt).
  rewrite map_nth. cbn [bind].
  destruct (@first_reached_returns (fst (rand s)) (nth At (pmat par) [])) as (k & Hk & Hr).
  - intros E. rewrite E in Hlen. simpl in Hlen. lia.
  - rewrite (rows_sum HA). apply rand_unit.
  - rewrite Hk. cbn [bind]. exists k. split; [reflexivity | lia].
Qed.

Lemma period_at_returns (kt At j : nat) :
  (kt < klen par)%nat -> (At < Alen par)%nat -> (j < 2 * T par)%nat ->
  exists per : period,
    period_at par sol kt At j = Ok per /\ In (per_k per) (concat k1).
Proof.
  intros Hk HA Hj.
  destruct (@shapes_ok_inv par shapes) as (_ & _ & HAg).
  assert (Ek : exists fk, k1 = table (klen par) (Alen par) fk).
  { unfold loop_body in pass. simpl last_pass in pass. injection pass as _ <- _.
    eexists. reflexivity. }
  assert (En : exists fn, n1 = table (klen par) (Alen par) fn).
  { unfold loop_body in pass. simpl last_pass in pass. injection pass as _ _ <-.
    eexists. reflexivity. }
  destruct Ek as (fk & Ek). destruct En as (fn & En).
  assert (Ck : cell k1 kt At = Ok (fk kt At)) by (rewrite Ek; now apply cell_in_table).
  assert (Cn : cell n1 kt At = Ok (fn kt At)) by (rewrite En; now apply cell_in_table).
  clear Ek En. unfold period_at.
  rewrite (@lookup_in_range _ (nth 0 (Agrid par) []) At 0) by lia. cbn [bind].
  unfold sol, policy_tables. cbn [sol_y sol_c sol_n sol_k sol_i].
  rewrite (@cell_in_table _ (klen par) (Alen par) _ kt At Hk HA). cbn [bind].
  rewrite (@cell_zip_with_both _ _ _ _ _ _ kt At _ _
             (@cell_in_table _ (klen par) (Alen par) _ kt At Hk HA)
             (@cell_in_table _ (klen par) (Alen par) _ kt At Hk HA)).
  cbn [bind].
  rewrite Cn. cbn [bind]. rewrite Ck. cbn [bind].
  rewrite (@cell_in_table _ (klen par) (Alen par) _ kt At Hk HA). cbn [bind].
  rewrite (@lookup_in_range _ (gamma_series par) j 0)
    by (unfold gamma_series; rewrite length_map, length_linspace; exact Hj).
  cbn [bind]. eexists. split; [reflexivity|].
  cbn [per_k]. exact (@cell_in_concat _ _ _ _ _ Ck).
Qed.

Lemma capital_index_returns (k : R) :
  In k (concat k1) -> exists kt : nat, capital_index par k = Ok kt /\ (kt < klen par)%nat.
Proof.
  intros Hin.
  destruct (@loop_body_capital_on_grid par shapes _ _ _ _ _ pass k Hin) as (idx & Hidx & ->).
  destruct (@shapes_ok_inv par shapes) as (_ & HL & _).
  exists idx. split; [|exact Hidx].
  unfold capital_index. rewrite where_eq_unique; [reflexivity | exact grid_distinct | lia].
Qed.

Lemma sim_loop_returns (steps : nat) :
  forall (j : nat) (k_prev : R) (At : nat) (s : rng),
    (j + steps <= 2 * T par)%nat ->
    In k_prev (concat k1) -> (At < Alen par)%nat ->
    exists pers : list period,
      sim_loop rand par sol (map Np.cumsum (pmat par)) steps j k_prev At s = Ok pers /\
      length pers = steps.
Proof.
  induction steps as [|steps IH]; intros j k_prev At s Hj Hin HA.
  - exists []. split; reflexivity.
  - destruct (@capital_index_returns k_prev Hin) as (kt & Hkt & Hlt).
    destruct (@period_at_returns kt At j Hlt HA ltac:(lia)) as (per & Hper & Hk).
    destruct (@next_A_returns At s HA) as (At' & HnA & HA').
    destruct (IH (S j) (per_k per) At' (snd (rand s)) ltac:(lia) Hk HA')
      as (rest & Hrest & Hlen).
    exists (per :: rest). split; [|simpl; now rewrite Hlen].
    cbn [sim_loop]. rewrite Hkt. cbn [bind]. rewrite Hper. cbn [bind].
    rewrite HnA. cbn [bind fst snd]. rewrite Hrest. reflexivity.
Qed.

Lemma simulate_periods_returns :
  exists pers : list period,
    simulate_periods seed_rng choice_p choice_uniform rand par sol = Ok pers /\
    length pers = (2 * T par)%nat.
Proof.
  destruct (@shapes_ok_inv par shapes) as (Hk2 & _ & _).
  destruct (@shapes_ok_rows par 0 shapes states) as (Hp & _).
  destruct (@stationary_row_returns (pmat par)) as (row & Hrow & _).
  { intros E. rewrite E in Hp. simpl in Hp. lia. }
  destruct (@choice_p_in_range (Alen par) row (seed_rng (seed_sim par)) states)
    as (a0 & s1 & Ha0 & HA0).
  destruct (@choice_uniform_in_range (klen par) s1 ltac:(lia)) as (k0 & s2 & Hk0 & HK0).
  destruct (@period_at_returns k0 a0 0 HK0 HA0 ltac:(lia)) as (per0 & Hper0 & Hin0).
  destruct (@next_A_returns a0 s2 HA0) as (At' & HnA & HA').
  destruct (@sim_loop_returns (2 * T par - 1) 1 (per_k per0) At' (snd (rand s2))
              ltac:(lia) Hin0 HA') as (rest & Hrest & Hlen).
  exists (per0 :: rest). split; [|simpl length; lia].
  unfold simulate_periods. rewrite Hrow. cbn [bind]. cbv zeta.
  rewrite Ha0. cbn [draw bind fst snd]. rewrite Hk0. cbn [draw bind fst snd].
  destruct (2 * T par =? 0)%nat eqn:E; [apply Nat.eqb_eq in E; lia|].
  rewrite Hper0. cbn [bind]. rewrite HnA. cbn [bind fst snd].
  rewrite Hrest. reflexivity.
Qed.

(** With a generator that draws in range, the simulation returns a path of
    [T] retained periods. *)
Lemma grow_economy_returns :
  exists sim : simulation,
    grow_economy seed_rng choice_p choice_uniform rand par sol = Ok sim /\
    length (ysim sim) = T par /\ length (csim sim) = T par /\
    length (isim sim) = T par.
Proof.
  destruct simulate_periods_returns as (pers & Hp & Hlen).
  unfold grow_economy. rewrite Hp. cbn [bind]. eexists. split; [reflexivity|].
  cbn [ysim csim isim]. rewrite !length_map, !length_skipn. lia.
Qed.

End SimulationRuns.

Lemma setup_rows_sum (Phi : R -> R) (kwargs : config -> config) (par : params) :
  setup Phi kwargs = Ok par ->
  (3 < Alen par)%nat /\
  forall j : nat, (j < Alen par)%nat -> Np.vsum (nth j (pmat par) []) = 1.
Proof.
  intros H. apply setup_inv in H. cbv zeta in H.
  destruct H as (Ha & _ & _ & HA & ap & Ht & _ & Hp).
  apply setup_asserts_grids in Ha. destruct Ha as (_ & _ & H3).
  rewrite HA, Hp. split; [exact H3|].
  destruct (cfg_Alen (kwargs default_config)) as [|[|n]]; [lia | lia |].
  pose proof (tauchen_returns Phi (cfg_mu (kwargs default_config))
                (cfg_rho (kwargs default_config)) (cfg_sigma_eps (kwargs default_config))
                (cfg_m (kwargs default_config)) n) as Hret.
  cbv zeta in Hret. rewrite Hret in Ht. injection Ht as <-. cbn [snd].
  intros j Hj. now apply tauchen_row_sum.
Qed.

Lemma setup_horizon (Phi : R -> R) (kwargs : config -> config) (par : params) :
  setup Phi kwargs = Ok par -> T par = cfg_T (kwargs default_config).
Proof.
  unfold setup. cbv zeta.
  destruct (setup_asserts (kwargs default_config)); simpl negb; cbv iota; [|discriminate].
  destruct (tauchen _ _ _ _ _ _) as [[ap | e]|]; simpl bind; [|discriminate..].
  intros H. injection H as <-. reflexivity.
Qed.

Lemma counter_choice_p_in_range (N : nat) (p : vec) (s : nat) :
  (0 < N)%nat ->
  exists (k s' : nat), counter_choice_p N p s = Some (k, s') /\ (k < N)%nat.
Proof.
  intros HN. unfold counter_choice_p.
  destruct (N =? 0)%nat eqn:E; [apply Nat.eqb_eq in E; lia|].
  eexists. eexists. split; [reflexivity|]. apply Nat.mod_upper_bound. lia.
Qed.

Lemma counter_choice_uniform_in_range (N : nat) (s : nat) :
  (0 < N)%nat ->
  exists (k s' : nat), counter_choice_uniform N s = Some (k, s') /\ (k < N)%nat.
Proof.
  intros HN. unfold counter_choice_uniform.
  destruct (N =? 0)%nat eqn:E; [apply Nat.eqb_eq in E; lia|].
  eexists. eexists. split; [reflexivity|]. apply Nat.mod_upper_bound. lia.
Qed.

(** With the constant labor choice and the counter for the generator,
    [plan_allocations] and [grow_economy] return for every model of the
    right shapes whose chain has rows summing to 1. *)
Lemma counter_simulation_runs (par : params) :
  shapes_ok par = true -> NoDup (kgrid par) ->
  (0 < Alen par)%nat -> (0 < T par)%nat ->
  (forall j : nat, (j < Alen par)%nat -> Np.vsum (nth j (pmat par) []) = 1) ->
  exists (sol : solution) (sim : simulation),
    plan_allocations fminbound_quarter par (Z.to_nat 10001) = Some (Ok sol) /\
    grow_economy (fun seed : nat => seed) counter_choice_p counter_choice_uniform
                 counter_rand par sol = Ok sim /\
    length (ysim sim) = T par /\ length (csim sim) = T par /\
    length (isim sim) = T par.
Proof.
  intros Hshapes Hnd HA HT Hrows.
  destruct (@plan_allocations_returns fminbound_quarter par (Z.to_nat 10001)
              ltac:(unfold maxiter; lia) Hshapes)
    as (t & v1 & k1 & n1 & Ht & _ & _ & Hplan).
  destruct (plan_allocations_inv _ _ _ Hplan) as (_ & st & v1' & k1' & n1' & Hlast & Esol).
  destruct (@grow_economy_returns nat (fun seed : nat => seed) counter_choice_p
              counter_choice_uniform counter_rand
              counter_choice_p_in_range counter_choice_uniform_in_range
              ltac:(intros s; simpl; lra)
              par Hshapes Hnd HA HT Hrows _ st v1' k1' n1' Hlast)
    as (sim & Hsim & L1 & L2 & L3).
  exists (policy_tables par v1 k1 n1), sim.
  split; [exact Hplan|]. rewrite Esol. auto.
Qed.

(** The whole program on the arguments of [run_colab.py], with the ramp for
    the normal distribution function: [setup], [plan_allocations] and
    [grow_economy] all return, and the retained path has 100 periods. *)
Lemma simulation_runs_after_setup :
  exists (par : params) (sol : solution) (sim : simulation),
    setup ramp_cdf kwargs_colab = Ok par /\
    plan_allocations fminbound_quarter par (Z.to_nat 10001) = Some (Ok sol) /\
    grow_economy (fun seed : nat => seed) counter_choice_p counter_choice_uniform
                 counter_rand par sol = Ok sim /\
    length (ysim sim) = 100%nat /\ length (csim sim) = 100%nat /\
    length (isim sim) = 100%nat.
Proof.
  destruct (setup_returns ramp_cdf kwargs_colab setup_asserts_colab) as (par & Hsetup).
  destruct (setup_grid_distinct _ _ Hsetup) as (Hnd & _ & _).
  destruct (setup_rows_sum _ _ Hsetup) as (HA & Hrows).
  pose proof (setup_horizon _ _ Hsetup) as HT.
  change (cfg_T (kwargs_colab default_config)) with 100%nat in HT.
  destruct (@counter_simulation_runs par (setup_shapes _ _ Hsetup) Hnd
              ltac:(lia) ltac:(lia) Hrows)
    as (sol & sim & Hplan & Hsim & L1 & L2 & L3).
  exists par, sol, sim. rewrite HT in L1, L2, L3. repeat split; assumption.
Qed.

(** *** The converged model: budget identity, termination, grid policy *)

Lemma identity_grid_distinct : NoDup (kgrid par_identity).
Proof.
  cbn [kgrid par_identity]. constructor.
  - simpl. intros [H | []]. lra.
  - constructor; [simpl; tauto | constructor].
Qed.

(** The simulation of the model that converges in one pass returns, with
    one retained period. *)
Lemma simulation_runs_identity :
  exists sim : simulation,
    grow_economy (fun seed : nat => seed) counter_choice_p counter_choice_uniform
                 counter_rand par_identity
                 (policy_tables par_identity identity_values identity_capital identity_labor)
      = Ok sim /\
    length (ysim sim) = 1%nat /\ length (csim sim) = 1%nat /\ length (isim sim) = 1%nat.
Proof.
  assert (Hrows : forall j : nat, (j < Alen par_identity)%nat ->
                    Np.vsum (nth j (pmat par_identity) []) = 1).
  { cbn [Alen pmat par_identity]. intros [|[|j]] Hj; [| |lia];
      unfold identity2, Np.vsum; simpl; lra. }
  assert (Hpass : last_pass
                    (loop_body par_identity
                       (labor_table fminbound_quarter par_identity)
                       (initial_vfi_state par_identity
                          (labor_table fminbound_quarter par_identity)))
                  = Some (identity_values, identity_capital, identity_labor))
    by (rewrite loop_body_identity; reflexivity).
  exact (@grow_economy_returns nat (fun seed : nat => seed) counter_choice_p
           counter_choice_uniform counter_rand
           counter_choice_p_in_range counter_choice_uniform_in_range
           ltac:(intros s; simpl; lra)
           par_identity eq_refl identity_grid_distinct
           ltac:(simpl; lia) ltac:(simpl; lia) Hrows
           _ _ _ _ _ Hpass).
Qed.

Lemma budget_identity_after_convergence_witness :
  let par := par_identity in
  let sol := policy_tables par identity_values identity_capital identity_labor in
  plan_allocations fminbound_quarter par 2 = Some (Ok sol) /\
  (exists sim : simulation,
     grow_economy (fun seed : nat => seed) counter_choice_p counter_choice_uniform
                  counter_rand par sol = Ok sim /\
     length (ysim sim) = 1%nat /\ length (csim sim) = 1%nat /\ length (isim sim) = 1%nat) /\
  (forall p j : nat, (p < klen par)%nat -> (j < Alen par)%nat ->
     exists (y c : fval) (i : R),
       cell (sol_y sol) p j = Ok y /\ cell (sol_c sol) p j = Ok c /\
       cell (sol_i sol) p j = Ok i) /\
  (forall (p j : nat) (y c : fval) (i : R),
      cell (sol_y sol) p j = Ok y ->
      cell (sol_c sol) p j = Ok c ->
      cell (sol_i sol) p j = Ok i ->
      (c + Fin i)%fval = y /\ fltb c (Fin 0) = false /\
      (forall r : R, y = Fin r -> (y - Fin i - c)%fval = Fin 0)) /\
  (forall (rng : Type) (seed_rng : nat -> rng)
          (choice_p : nat -> vec -> rng -> option (nat * rng))
          (choice_uniform : nat -> rng -> option (nat * rng))
          (rand : rng -> R * rng) (sim : simulation),
      grow_economy seed_rng choice_p choice_uniform rand par sol = Ok sim ->
      length (csim sim) = length (ysim sim) /\
      length (isim sim) = length (ysim sim) /\
      forall (t : nat) (y c : fval) (i : R),
        nth_error (ysim sim) t = Some y ->
        nth_error (csim sim) t = Some c ->
        nth_error (isim sim) t = Some i ->
        (c + Fin i)%fval = y /\ fltb c (Fin 0) = false /\
        (forall r : R, y = Fin r -> (y - Fin i - c)%fval = Fin 0)).
Proof.
  intros par sol.
  split; [exact (@plan_allocations_identity 2 ltac:(lia))|].
  split; [exact simulation_runs_identity|].
  apply (@budget_identity_after_convergence fminbound_quarter par_identity 2
           (loop_body par_identity (labor_table fminbound_quarter par_identity)
              (initial_vfi_state par_identity
                 (labor_table fminbound_quarter par_identity)))
           sol).
  - exact (proj1 (@identity_converges 2 ltac:(lia))).
  - exact (proj2 (@identity_converges 2 ltac:(lia))).
  - exact (@plan_allocations_identity 2 ltac:(lia)).
Defined.


Lemma where_eq_sound (x : R) (grid : vec) :
  forall (s idx : nat),
    In idx (map fst (filter (fun ig : nat * R => if Req_dec_T x (snd ig) then true else false)
                            (combine (seq s (length grid)) grid))) ->
    (s <= idx < s + length grid)%nat /\ nth (idx - s) grid 0 = x.
Proof.
  induction grid as [|a grid IH]; intros s idx Hin; cbn [length seq combine filter snd] in Hin.
  - destruct Hin.
  - destruct (Req_dec_T x a) as [E | NE].
    + cbn [map fst In] in Hin. destruct Hin as [<- | Hin].
      * rewrite Nat.sub_diag. cbn [length nth]. split; [lia | now symmetry].
      * apply IH in Hin. destruct Hin as (Hr & Hn). cbn [length]. split; [lia|].
        replace (idx - s)%nat with (S (idx - S s)) by lia. exact Hn.
    + apply IH in Hin. destruct Hin as (Hr & Hn). cbn [length]. split; [lia|].
      replace (idx - s)%nat with (S (idx - S s)) by lia. exact Hn.
Qed.

Lemma capital_index_sound (par : params) (k : R) (idx : nat) :
  capital_index par k = Ok idx ->
  (idx < length (kgrid par))%nat /\ nth idx (kgrid par) 0 = k.
Proof.
  unfold capital_index. intros H.
  destruct (where_eq k (kgrid par)) as [|kt [|kt' rest]] eqn:E; try discriminate H.
  injection H as ->.
  assert (Hin : In idx (where_eq k (kgrid par))) by (rewrite E; now left).
  unfold where_eq in Hin. apply where_eq_sound in Hin.
  rewrite Nat.sub_0_r in Hin. destruct Hin as (Hr & Hn). split; [lia | exact Hn].
Qed.






(** *** A chain that is not ergodic *)



(** ** Part III: further properties of the programs *)

(** *** [rouwenhorst]: below two states, entries, symmetry *)

(** X1: called with fewer than two states, [rouwenhorst] never meets its base
    case [N == 2]: whatever recursion depth is allowed, the call ends in a
    [RecursionError]. *)
Theorem rouwenhorst_below_two_states (fuel N : nat) (p : R) :
  (N < 2)%nat -> rouwenhorst fuel N p = Raise RecursionError.
Proof.
  revert N. induction fuel as [|fuel IH]; intros N HN; [reflexivity|].
  cbn [rouwenhorst].
  destruct (Nat.eqb_spec N 2) as [E | _]; [lia|].
  rewrite IH by lia. reflexivity.
Qed.

Lemma rouwenhorst_below_two_states_witness :
  rouwenhorst 1000 1 (1 / 2) = Raise RecursionError.
Proof. apply rouwenhorst_below_two_states. lia. Defined.

Lemma nth_vadd (u v : vec) (j : nat) :
  length u = length v -> nth j (Np.vadd u v) 0 = nth j u 0 + nth j v 0.
Proof.
  revert v j. induction u as [|a u IH]; intros [|b v] j H; simpl in H; try discriminate H.
  - destruct j; simpl; lra.
  - destruct j as [|j]; simpl; [reflexivity|]. apply IH. lia.
Qed.

Lemma nth_vscale (s : R) (v : vec) (j : nat) :
  nth j (Np.vscale s v) 0 = s * nth j v 0.
Proof.
  revert j. induction v as [|a v IH]; intros [|j]; simpl; try lra. apply IH.
Qed.

Lemma nth_halved (v : vec) (j : nat) :
  nth j (map (fun x => x / 2) v) 0 = nth j v 0 / 2.
Proof.
  revert j. induction v as [|a v IH]; intros [|j]; simpl; try lra. apply IH.
Qed.

Lemma nth_pad_right (r : vec) (j : nat) : nth j (r ++ repeat 0 1) 0 = nth j r 0.
Proof.
  revert j. induction r as [|a r IH]; intros [|j]; simpl; try reflexivity.
  - now destruct j.
  - apply IH.
Qed.

Lemma nth_zero_row (k j : nat) : nth j (repeat 0 k) 0 = 0.
Proof. revert j. induction k as [|k IH]; intros [|j]; simpl; auto. Qed.

Lemma nth_zero_row_app (a b j : nat) : nth j (repeat 0 a ++ repeat 0 b) 0 = 0.
Proof. rewrite <- repeat_app. apply nth_zero_row. Qed.

Lemma length_vscale_row (s : R) (v : vec) : length (Np.vscale s v) = length v.
Proof. apply length_map. Qed.

(** The entries of one level of the recursion, from those of the level
    below: the four weighted blocks shift the matrix by nothing, by one
    column, by one row, and by both; rows [1 .. n-1] are halved. *)
Lemma rouwenhorst_step_entry (p : R) (n : nat) (P_prev : mat) :
  length P_prev = n -> Forall (fun r => length r = n) P_prev -> (1 <= n)%nat ->
  forall i j : nat, (i <= n)%nat ->
    entry (rouwenhorst_step (S n) p P_prev) i j =
    let raw :=
      p * entry P_prev i j
      + (1 - p) * match j with O => 0 | S j' => entry P_prev i j' end
      + (1 - p) * match i with O => 0 | S i' => entry P_prev i' j end
      + p * match i, j with S i', S j' => entry P_prev i' j' | _, _ => 0 end in
    if ((1 <=? i) && (i <? n))%nat then raw / 2 else raw.
Proof.
  intros HL Hrows Hn i j Hi.
  assert (Hrow : forall k, (k < n)%nat -> length (nth k P_prev []) = n).
  { intros k Hk. apply (proj1 (Forall_nth _ _) Hrows). lia. }
  assert (Hout : forall k c, (n <= k)%nat -> entry P_prev k c = 0).
  { intros k c Hk. unfold entry. rewrite (nth_overflow P_prev) by lia. now destruct c. }
  unfold entry at 1. unfold rouwenhorst_step. replace (S n - 1)%nat with n by lia.
  set (B1 := Np.block P_prev (Np.zeros n 1) (Np.zeros 1 n) (Np.zeros 1 1)).
  set (B2 := Np.block (Np.zeros n 1) P_prev (Np.zeros 1 n) (Np.zeros 1 1)).
  set (B3 := Np.block (Np.zeros 1 1) (Np.zeros 1 n) P_prev (Np.zeros n 1)).
  set (B4 := Np.block (Np.zeros 1 1) (Np.zeros 1 n) (Np.zeros n 1) P_prev).
  assert (L1 : length B1 = S n)
    by (unfold B1; rewrite length_block; rewrite ?length_zeros; lia).
  assert (L2 : length B2 = S n)
    by (unfold B2; rewrite length_block; rewrite ?length_zeros; lia).
  assert (L3 : length B3 = S n)
    by (unfold B3; rewrite length_block; rewrite ?length_zeros; lia).
  assert (L4 : length B4 = S n)
    by (unfold B4; rewrite length_block; rewrite ?length_zeros; lia).
  assert (R1 : length (nth i B1 []) = S n /\
               forall c, nth c (nth i B1 []) 0 = entry P_prev i c).
  { unfold B1. destruct (Nat.eq_dec i n) as [-> | Hin].
    - rewrite nth_block_lower by (rewrite ?length_zeros; simpl; lia).
      rewrite HL, Nat.sub_diag, !nth_zeros by lia.
      split; [rewrite length_app, !repeat_length; lia|].
      intros c. rewrite nth_zero_row_app, Hout by lia. reflexivity.
    - rewrite nth_block_upper by (rewrite ?length_zeros; lia).
      rewrite nth_zeros by lia.
      split; [rewrite length_app, Hrow, repeat_length by lia; lia|].
      intros c. apply nth_pad_right. }
  assert (R2 : length (nth i B2 []) = S n /\
               forall c, nth c (nth i B2 []) 0 =
                         match c with O => 0 | S c' => entry P_prev i c' end).
  { unfold B2. destruct (Nat.eq_dec i n) as [-> | Hin].
    - rewrite nth_block_lower by (rewrite ?length_zeros; simpl; lia).
      rewrite length_zeros, Nat.sub_diag, !nth_zeros by lia.
      split; [rewrite length_app, !repeat_length; lia|].
      intros c. rewrite nth_zero_row_app. destruct c; [reflexivity|].
      now rewrite Hout by lia.
    - rewrite nth_block_upper by (rewrite ?length_zeros; lia).
      rewrite nth_zeros by lia.
      split; [rewrite length_app, Hrow, repeat_length by lia; lia|].
      intros [|c]; reflexivity. }
  assert (R3 : length (nth i B3 []) = S n /\
               forall c, nth c (nth i B3 []) 0 =
                         match i with O => 0 | S i' => entry P_prev i' c end).
  { unfold B3. destruct i as [|i'].
    - rewrite nth_block_upper by (rewrite ?length_zeros; simpl; lia).
      rewrite !nth_zeros by lia.
      split; [rewrite length_app, !repeat_length; lia|].
      intros c. apply nth_zero_row_app.
    - rewrite nth_block_lower by (rewrite ?length_zeros; simpl; lia).
      rewrite length_zeros. replace (S i' - 1)%nat with i' by lia.
      rewrite nth_zeros by lia.
      split; [rewrite length_app, Hrow, repeat_length by lia; lia|].
      intros c. apply nth_pad_right. }
  assert (R4 : length (nth i B4 []) = S n /\
               forall c, nth c (nth i B4 []) 0 =
                         match i, c with
                         | S i', S c' => entry P_prev i' c'
                         | _, _ => 0
                         end).
  { unfold B4. destruct i as [|i'].
    - rewrite nth_block_upper by (rewrite ?length_zeros; simpl; lia).
      rewrite !nth_zeros by lia.
      split; [rewrite length_app, !repeat_length; lia|].
      intros c. apply nth_zero_row_app.
    - rewrite nth_block_lower by (rewrite ?length_zeros; simpl; lia).
      rewrite length_zeros. replace (S i' - 1)%nat with i' by lia.
      rewrite nth_zeros by lia.
      split; [rewrite length_app, Hrow, repeat_length by lia; lia|].
      intros [|c]; reflexivity. }
  destruct R1 as [K1 E1]. destruct R2 as [K2 E2].
  destruct R3 as [K3 E3]. destruct R4 as [K4 E4].
  set (Praw := Np.madd _ _).
  assert (LP : length Praw = S n)
    by (unfold Praw; rewrite !length_madd, !length_scale; lia).
  assert (Eraw : nth j (nth i Praw []) 0 =
                 p * entry P_prev i j
                 + (1 - p) * match j with O => 0 | S j' => entry P_prev i j' end
                 + (1 - p) * match i with O => 0 | S i' => entry P_prev i' j end
                 + p * match i, j with S i', S j' => entry P_prev i' j' | _, _ => 0 end).
  { unfold Praw.
    rewrite !nth_madd by (rewrite ?length_madd, ?length_scale; lia).
    rewrite !nth_scale.
    rewrite !nth_vadd, !nth_vscale, E1, E2, E3, E4;
      rewrite ?length_vadd, ?length_vscale_row; try lia.
    reflexivity. }
  rewrite nth_halve_interior_rows by lia. rewrite LP.
  replace (S n - 1)%nat with n by lia. cbv zeta.
  destruct ((1 <=? i) && (i <? n))%nat%bool.
  - rewrite nth_halved, Eraw. reflexivity.
  - exact Eraw.
Qed.


Lemma binom_0_r (n : nat) : binom n 0 = 1%nat.
Proof. now destruct n. Qed.

Lemma binom_above (n : nat) : forall k : nat, (n < k)%nat -> binom n k = O.
Proof.
  induction n as [|n IH]; intros [|k] Hk; try lia; simpl; [reflexivity|].
  rewrite !IH by lia. reflexivity.
Qed.

Lemma entry_outside_rows (P : mat) (i j : nat) :
  (length P <= i)%nat -> entry P i j = 0.
Proof. intros H. unfold entry. rewrite (nth_overflow P) by lia. now destruct j. Qed.

Lemma entry_outside_columns (n : nat) (P : mat) (i j : nat) :
  Forall (fun r => length r = n) P -> (n <= j)%nat -> entry P i j = 0.
Proof.
  intros HF Hj. unfold entry.
  destruct (Nat.lt_ge_cases i (length P)) as [Hi | Hi].
  - apply nth_overflow. rewrite (proj1 (Forall_nth _ _) HF i [] Hi). exact Hj.
  - rewrite (nth_overflow P) by lia. now destruct j.
Qed.

Lemma row_stochastic_shape (N : nat) (P : mat) :
  row_stochastic N P -> length P = N /\ Forall (fun r => length r = N) P.
Proof.
  intros [HL HF]. split; [exact HL|].
  apply Forall_forall. intros r Hr.
  exact (proj1 (proj1 (Forall_forall _ _) HF r Hr)).
Qed.

(** The first row of one level is the binomial expansion of the first row
    of the level below. *)
Lemma rouwenhorst_step_first_row (p : R) (m : nat) (P_prev : mat) :
  length P_prev = S m -> Forall (fun r => length r = S m) P_prev ->
  (forall j, entry P_prev 0 j = INR (binom m j) * p ^ (m - j) * (1 - p) ^ j) ->
  forall j, entry (rouwenhorst_step (S (S m)) p P_prev) 0 j =
            INR (binom (S m) j) * p ^ (S m - j) * (1 - p) ^ j.
Proof.
  intros HL HF Hrow j.
  rewrite (@rouwenhorst_step_entry p (S m) P_prev HL HF ltac:(lia) 0 j ltac:(lia)).
  cbv zeta. cbn [Nat.leb andb].
  destruct j as [|j'].
  - rewrite Hrow, !binom_0_r, !Nat.sub_0_r. simpl. ring.
  - rewrite !Hrow. cbn [binom]. rewrite plus_INR.
    replace (S m - S j')%nat with (m - j')%nat by lia.
    destruct (Nat.lt_ge_cases m (S j')) as [Hlt | Hge].
    + rewrite (binom_above Hlt). simpl. ring.
    + replace (m - j')%nat with (S (m - S j')) by lia. simpl. ring.
Qed.

(** One level keeps the symmetry under reversal of rows and columns. *)
Lemma rouwenhorst_step_symmetric (p : R) (n : nat) (P_prev : mat) :
  length P_prev = n -> Forall (fun r => length r = n) P_prev -> (1 <= n)%nat ->
  (forall a b, (a < n)%nat -> (b < n)%nat ->
     entry P_prev (n - 1 - a) (n - 1 - b) = entry P_prev a b) ->
  forall i i' j j', (i + i' = n)%nat -> (j + j' = n)%nat ->
    entry (rouwenhorst_step (S n) p P_prev) i' j' =
    entry (rouwenhorst_step (S n) p P_prev) i j.
Proof.
  intros HL HF Hn Hsym i i' j j' Hi Hj.
  assert (A : forall i i' j j', (i + i' = n)%nat -> (j + j' = n)%nat ->
            entry P_prev i' j' =
            match i, j with S a, S b => entry P_prev a b | _, _ => 0 end).
  { intros [|a] x [|b] y Hx Hy.
    - apply entry_outside_rows. lia.
    - apply entry_outside_rows. lia.
    - apply (entry_outside_columns _ HF). lia.
    - replace x with (n - 1 - a)%nat by lia. replace y with (n - 1 - b)%nat by lia.
      apply Hsym; lia. }
  assert (B : forall i i' j j', (i + i' = n)%nat -> (j + j' = n)%nat ->
            match j' with O => 0 | S c => entry P_prev i' c end =
            match i with O => 0 | S a => entry P_prev a j end).
  { intros [|a] x b [|c] Hx Hy.
    - reflexivity.
    - apply entry_outside_rows. lia.
    - symmetry. apply (entry_outside_columns _ HF). lia.
    - replace x with (n - 1 - a)%nat by lia. replace c with (n - 1 - b)%nat by lia.
      apply Hsym; lia. }
  rewrite (@rouwenhorst_step_entry p n P_prev HL HF Hn i' j' ltac:(lia)).
  rewrite (@rouwenhorst_step_entry p n P_prev HL HF Hn i j ltac:(lia)).
  cbv zeta.
  replace ((1 <=? i') && (i' <? n))%nat%bool with ((1 <=? i) && (i <? n))%nat%bool.
  2:{ destruct (Nat.leb_spec 1 i), (Nat.ltb_spec i n), (Nat.leb_spec 1 i'),
        (Nat.ltb_spec i' n); try reflexivity; lia. }
  rewrite (A i i' j j' Hi Hj).
  rewrite (B i i' j j' Hi Hj).
  rewrite <- (B i' i j' j ltac:(lia) ltac:(lia)).
  rewrite <- (A i' i j' j ltac:(lia) ltac:(lia)).
  destruct ((1 <=? i) && (i <? n))%nat%bool; destruct i, j; unfold Rdiv; ring.
Qed.

(** The matrix [rouwenhorst] returns, its first row and its symmetry. *)
Lemma rouwenhorst_entries (p : R) (Hp : 0 <= p <= 1) :
  forall (fuel N : nat), (2 <= N)%nat -> (N - 2 < fuel)%nat ->
  exists P, rouwenhorst fuel N p = Ok P /\ row_stochastic N P /\
    (forall j, entry P 0 j = INR (binom (N - 1) j) * p ^ (N - 1 - j) * (1 - p) ^ j) /\
    (forall a b, (a < N)%nat -> (b < N)%nat ->
       entry P (N - 1 - a) (N - 1 - b) = entry P a b).
Proof.
  induction fuel as [|fuel IH]; intros N HN Hf; [lia|].
  cbn [rouwenhorst]. destruct (Nat.eqb_spec N 2) as [-> | Hne].
  - eexists. split; [reflexivity|].
    split; [now apply rouwenhorst_base_stochastic|]. split.
    + intros [|[|j]]; unfold entry; simpl; try ring.
      destruct j; simpl; ring.
    + intros [|[|a]] [|[|b]] Ha Hb; try lia; reflexivity.
  - destruct (IH (N - 1)%nat) as (P' & HP' & HS' & Hrow & Hsym); [lia | lia |].
    rewrite HP'. cbn [bind]. eexists. split; [reflexivity|].
    destruct (row_stochastic_shape HS') as (HL & HF).
    destruct N as [|[|[|m]]]; try lia.
    replace (S (S (S m)) - 1)%nat with (S (S m)) in * by lia.
    split; [apply rouwenhorst_step_stochastic; auto; lia|]. split.
    + replace (S (S m) - 1)%nat with (S m) in Hrow by lia.
      apply rouwenhorst_step_first_row; assumption.
    + intros a b Ha Hb.
      apply (@rouwenhorst_step_symmetric p (S (S m)) P' HL HF ltac:(lia) Hsym); lia.
Qed.

(** X2: the first row of the matrix [rouwenhorst] returns is the binomial
    distribution: the entry in column [j] is
    [C(N-1, j) * p^(N-1-j) * (1-p)^j]. *)
Theorem rouwenhorst_first_row_binomial (N : nat) (p : R) (fuel : nat) :
  (2 <= N)%nat -> 0 <= p <= 1 -> (N - 2 < fuel)%nat ->
  exists P, rouwenhorst fuel N p = Ok P /\
    forall j, (j < N)%nat ->
      entry P 0 j = INR (binom (N - 1) j) * p ^ (N - 1 - j) * (1 - p) ^ j.
Proof.
  intros HN Hp Hf.
  destruct (rouwenhorst_entries Hp HN Hf) as (P & HP & _ & Hrow & _).
  exists P. split; [exact HP|]. intros j _. apply Hrow.
Qed.

Lemma rouwenhorst_first_row_binomial_witness :
  exists P, rouwenhorst 6 7 (37 / 40) = Ok P /\
    forall j, (j < 7)%nat ->
      entry P 0 j = INR (binom (7 - 1) j) * (37 / 40) ^ (7 - 1 - j) * (1 - 37 / 40) ^ j.
Proof.
  apply (@rouwenhorst_first_row_binomial 7 (37 / 40) 6); [lia | lra | simpl; lia].
Defined.

(** X3: the matrix [rouwenhorst] returns is unchanged when both its rows and
    its columns are reversed: the chain treats the states below and above
    the middle alike. *)
Theorem rouwenhorst_centrosymmetric (N : nat) (p : R) (fuel : nat) :
  (2 <= N)%nat -> 0 <= p <= 1 -> (N - 2 < fuel)%nat ->
  exists P, rouwenhorst fuel N p = Ok P /\
    forall i j, (i < N)%nat -> (j < N)%nat ->
      entry P (N - 1 - i) (N - 1 - j) = entry P i j.
Proof.
  intros HN Hp Hf.
  destruct (rouwenhorst_entries Hp HN Hf) as (P & HP & _ & _ & Hsym).
  exists P. split; [exact HP | exact Hsym].
Qed.

Lemma rouwenhorst_centrosymmetric_witness :
  exists P, rouwenhorst 6 7 (37 / 40) = Ok P /\
    forall i j, (i < 7)%nat -> (j < 7)%nat ->
      entry P (7 - 1 - i) (7 - 1 - j) = entry P i j.
Proof.
  apply (@rouwenhorst_centrosymmetric 7 (37 / 40) 6); [lia | lra | simpl; lia].
Defined.


(** *** [simulate_markov_chain_fixed_start] on any grid *)

(** X4: for every grid of [N > 0] values, every row-stochastic [N x N]
    matrix and every horizon [T > 0], with a generator whose draws from a
    probability vector are in range, the fixed-start simulation returns [T]
    values, each of them a value of the grid, the first one [y[0]]. *)
Theorem fixed_start_path_on_grid
    (rng : Type) (seed_rng : nat -> rng)
    (choice : nat -> vec -> rng -> result (nat * rng))
    (y : vec) (P : mat) (T seed : nat) :
  (forall (N : nat) (p : vec) (s : rng),
      (0 < N)%nat -> row_facts N 1 p ->
      exists (k : nat) (s' : rng), choice N p s = Ok (k, s') /\ (k < N)%nat) ->
  (0 < length y)%nat -> row_stochastic (length y) P -> (0 < T)%nat ->
  exists path : vec,
    simulate_markov_chain_fixed_start seed_rng choice y P T seed = Ok path /\
    length path = T /\
    nth_error path 0 = nth_error y 0 /\
    Forall (fun v => In v y) path.
Proof.
  intros Hchoice Hy HP HT.
  destruct (@fixed_start_path rng seed_rng choice Hchoice (length y) P Hy HP y T seed
              eq_refl HT) as (states & Hsim & HL & HF).
  exists (map (fun k => nth k y 0) (O :: states)).
  split; [exact Hsim|]. split; [|split].
  - rewrite length_map. simpl. lia.
  - destruct y as [|v y']; [simpl in Hy; lia | reflexivity].
  - apply Forall_map. constructor.
    + apply nth_In. exact Hy.
    + eapply Forall_impl; [|exact HF]. intros k Hk. now apply nth_In.
Qed.

Lemma fixed_start_path_on_grid_witness :
  exists path : vec,
    simulate_markov_chain_fixed_start (fun n : nat => n) counter_choice
      [10; 20] [[1 / 2; 1 - 1 / 2]; [1 - 1 / 2; 1 / 2]] 3 2025 = Ok path /\
    length path = 3%nat /\
    nth_error path 0 = nth_error [10; 20] 0 /\
    Forall (fun v => In v [10; 20]) path.
Proof.
  apply (@fixed_start_path_on_grid nat (fun n : nat => n) counter_choice
           [10; 20] [[1 / 2; 1 - 1 / 2]; [1 - 1 / 2; 1 / 2]] 3 2025).
  - intros N p s HN _. exists (s mod N)%nat, (S s). split; [reflexivity|].
    apply Nat.mod_upper_bound. lia.
  - simpl. lia.
  - apply rouwenhorst_base_stochastic. lra.
  - lia.
Defined.


(** *** [util]: zero consumption, monotonicity *)

Lemma frisch_exponent_pos (nu : R) : 0 < nu -> 0 < 1 + 1 / nu.
Proof.
  intros H. assert (0 < 1 / nu) by (apply Rdiv_lt_0_compat; lra). lra.
Qed.

(** The leisure term of [util] for labor at most 1: a finite number, 0 at
    [n = 1]. *)
Lemma leisure_term (n nu : R) :
  0 < nu -> n <= 1 ->
  (fpow (Fin (1 - n)) (1 + 1 / nu) / Fin (1 + 1 / nu))%fval =
  Fin ((if Rlt_dec 0 (1 - n) then Rpower (1 - n) (1 + 1 / nu) else 0) / (1 + 1 / nu)).
Proof.
  intros Hnu Hn. pose proof (frisch_exponent_pos Hnu) as He.
  destruct (Rlt_dec 0 (1 - n)) as [Hpos | Hnpos].
  - rewrite fpow_pos_base by lra. apply fdiv_fin. lra.
  - replace (1 - n) with 0 by lra. rewrite fpow_zero_base by lra. apply fdiv_fin. lra.
Qed.

Lemma Rpower_decreasing_base (x y e : R) :
  0 < x < y -> e < 0 -> Rpower y e < Rpower x e.
Proof.
  intros Hxy He. unfold Rpower. apply exp_increasing.
  assert (ln x < ln y) by (apply ln_increasing; lra). nra.
Qed.

(** X5: at zero consumption [util] is minus infinity, for log utility
    ([sigma = 1]) and for power utility ([sigma > 1]) alike, whatever the
    labor supply [n <= 1]; so the value the solver writes over the cells
    with [c <= 0] is the value [util] has at [c = 0]. *)
Theorem util_zero_consumption (n sigma nu gamma : R) :
  1 <= sigma -> 0 < nu -> n <= 1 ->
  util (Fin 0) n sigma nu gamma = NegInf.
Proof.
  intros Hs Hnu Hn. unfold util. rewrite leisure_term by assumption.
  destruct (Req_dec_T sigma 1) as [E | NE].
  - unfold flog. destruct (Rlt_dec 0 0) as [H | _]; [lra|].
    destruct (Req_dec_T 0 0) as [_ | H]; [reflexivity | lra].
  - unfold fpow.
    destruct (Req_dec_T (1 - sigma) 0) as [H | _]; [lra|].
    destruct (Rlt_dec 0 0) as [H | _]; [lra|].
    destruct (Req_dec_T 0 0) as [_ | H]; [|lra].
    destruct (Rlt_dec 0 (1 - sigma)) as [H | _]; [lra|].
    unfold fdiv. destruct (Rlt_dec (1 - sigma) 0) as [_ | H]; [reflexivity | lra].
Qed.

Lemma util_zero_consumption_witness :
  util (Fin 0) (1 / 4) 2 (4 / 100) 1 = NegInf.
Proof. apply util_zero_consumption; lra. Defined.

(** [util] at positive consumption: a finite number. *)
Lemma util_positive_consumption (c n sigma nu gamma : R) :
  1 <= sigma -> 0 < nu -> n <= 1 -> 0 < c ->
  util (Fin c) n sigma nu gamma =
  Fin ((if Req_dec_T sigma 1 then ln c else Rpower c (1 - sigma) / (1 - sigma))
       + gamma * ((if Rlt_dec 0 (1 - n) then Rpower (1 - n) (1 + 1 / nu) else 0)
                  / (1 + 1 / nu))).
Proof.
  intros Hs Hnu Hn Hc. unfold util. rewrite leisure_term by assumption.
  destruct (Req_dec_T sigma 1) as [E | NE].
  - unfold flog. destruct (Rlt_dec 0 c) as [_ | H]; [reflexivity | lra].
  - rewrite fpow_pos_base by lra. rewrite fdiv_fin by lra. reflexivity.
Qed.

(** X6: above zero consumption, [util] is finite, strictly increasing in
    consumption and, for a positive weight on leisure, strictly decreasing
    in labor up to [n = 1]. *)
Theorem util_monotone (c1 c2 n1 n2 sigma nu gamma : R) :
  1 <= sigma -> 0 < nu -> 0 < gamma ->
  0 < c1 < c2 -> n1 < n2 <= 1 ->
  exists u11 u21 u12 : R,
    util (Fin c1) n1 sigma nu gamma = Fin u11 /\
    util (Fin c2) n1 sigma nu gamma = Fin u21 /\
    util (Fin c1) n2 sigma nu gamma = Fin u12 /\
    u11 < u21 /\ u12 < u11.
Proof.
  intros Hs Hnu Hg Hc Hn. pose proof (frisch_exponent_pos Hnu) as He.
  rewrite !util_positive_consumption by lra.
  eexists. eexists. eexists.
  split; [reflexivity|]. split; [reflexivity|]. split; [reflexivity|].
  split.
  - apply Rplus_lt_compat_r.
    destruct (Req_dec_T sigma 1) as [E | NE].
    + apply ln_increasing; lra.
    + assert (H : Rpower c2 (1 - sigma) < Rpower c1 (1 - sigma))
        by (apply Rpower_decreasing_base; lra).
      assert (K : / (1 - sigma) < 0) by (apply Rinv_lt_0_compat; lra).
      unfold Rdiv. nra.
  - apply Rplus_lt_compat_l. apply Rmult_lt_compat_l; [exact Hg|].
    unfold Rdiv. apply Rmult_lt_compat_r; [apply Rinv_0_lt_compat; exact He|].
    destruct (Rlt_dec 0 (1 - n1)) as [_ | H]; [|lra].
    destruct (Rlt_dec 0 (1 - n2)) as [Hp | _].
    + apply Rlt_Rpower_l; lra.
    + apply Rpower_pos.
Qed.

Lemma util_monotone_witness :
  exists u11 u21 u12 : R,
    util (Fin 1) (1 / 4) 2 (4 / 100) 1 = Fin u11 /\
    util (Fin 2) (1 / 4) 2 (4 / 100) 1 = Fin u21 /\
    util (Fin 1) (1 / 2) 2 (4 / 100) 1 = Fin u12 /\
    u11 < u21 /\ u12 < u11.
Proof. apply util_monotone; lra. Defined.


(** *** [tauchen]: the interior cells *)





(** *** [plan_allocations]: the maximization of a pass *)

Lemma fgtb_not_fleb (x m : fval) :
  x <> NaN -> m <> NaN -> fgtb x m = negb (fleb x m).
Proof.
  intros Hx Hm. unfold fgtb.
  destruct x, m; try congruence; simpl; try reflexivity.
  destruct (Rlt_dec r0 r), (Rle_dec r r0); simpl; try reflexivity; lra.
Qed.

Lemma fleb_refl (x : fval) : x <> NaN -> fleb x x = true.
Proof.
  intros Hx. destruct x; try congruence; simpl; try reflexivity.
  destruct (Rle_dec r r); [reflexivity | lra].
Qed.

Lemma fleb_trans (x y z : fval) :
  fleb x y = true -> fleb y z = true -> fleb x z = true.
Proof.
  destruct x, y, z; simpl; try discriminate; try reflexivity.
  destruct (Rle_dec r r0), (Rle_dec r0 r1), (Rle_dec r r1);
    try discriminate; try reflexivity; lra.
Qed.

Lemma fleb_false_reverse (x m : fval) :
  x <> NaN -> m <> NaN -> fleb x m = false -> fleb m x = true.
Proof.
  intros Hx Hm. destruct x, m; try congruence; simpl; try discriminate; try reflexivity.
  destruct (Rle_dec r r0), (Rle_dec r0 r); try discriminate; try reflexivity; lra.
Qed.

(** On values that are numbers or infinities, Python's [max] and numpy's
    [argmax] agree, and the result is above every value. *)
Lemma py_max_from_spec (l : list fval) :
  forall m : fval,
    m <> NaN -> Forall (fun x => x <> NaN) l ->
    py_max_from m l = argmax_val_from m l /\
    fleb m (py_max_from m l) = true /\
    Forall (fun x => fleb x (py_max_from m l) = true) l.
Proof.
  induction l as [|x l IH]; intros m Hm HF.
  - simpl. split; [reflexivity|]. split; [now apply fleb_refl | constructor].
  - inversion HF as [|x' l' Hx HF']; subst.
    assert (E : argmax_val_from m (x :: l) =
                if fleb x m then argmax_val_from m l else argmax_val_from x l)
      by (destruct m; try congruence; reflexivity).
    rewrite E. cbn [py_max_from]. rewrite (fgtb_not_fleb Hx Hm).
    destruct (fleb x m) eqn:Ele; cbn [negb].
    + destruct (IH m Hm HF') as (E1 & E2 & E3).
      split; [exact E1|]. split; [exact E2|].
      constructor; [exact (fleb_trans _ _ _ Ele E2) | exact E3].
    + destruct (IH x Hx HF') as (E1 & E2 & E3).
      split; [exact E1|]. split; [|constructor; [exact E2 | exact E3]].
      exact (fleb_trans _ _ _ (fleb_false_reverse Hx Hm Ele) E2).
Qed.

Lemma py_max_is_maximum (l : list fval) :
  l <> [] -> Forall (fun x => x <> NaN) l ->
  py_max l = nth (argmax l) l NaN /\
  forall b, (b < length l)%nat -> fleb (nth b l NaN) (nth (argmax l) l NaN) = true.
Proof.
  intros Hne HF. rewrite (argmax_value Hne).
  destruct l as [|x l]; [congruence|].
  inversion HF as [|x' l' Hx HF']; subst.
  destruct (py_max_from_spec Hx HF') as (E1 & E2 & E3).
  cbn [py_max]. rewrite <- E1. split; [reflexivity|].
  intros [|b] Hb; cbn [nth]; [exact E2|].
  apply (proj1 (Forall_nth _ _) E3). simpl in Hb. lia.
Qed.

(** X12: one pass of the iteration maximizes: in a state where the value of
    no capital choice is not-a-number, the value written to [v1] is the
    value of the choice [argmax] picks, no choice has a larger value, and
    the capital and labor written to [k1] and [n1] are those of that same
    choice. *)
Theorem bellman_pass_is_optimal
    (fminbound : (R -> fval) -> R -> R -> R) (par : params) (st : vfi_state)
    (p j : nat) :
  shapes_ok par = true -> length (v0 st) = klen par ->
  (p < klen par)%nat -> (j < Alen par)%nat ->
  let n0 := labor_table fminbound par in
  let vall := choice_values par n0 (v0 st) p j in
  Forall (fun x => x <> NaN) vall ->
  exists (v1 : ftable) (k1 n1 : mat),
    last_pass (loop_body par n0 st) = Some (v1, k1, n1) /\
    (argmax vall < klen par)%nat /\
    cell v1 p j = Ok (nth (argmax vall) vall NaN) /\
    cell k1 p j = Ok (nth (argmax vall) (kgrid par) 0) /\
    cell n1 p j = Ok (n_at n0 p (argmax vall) j) /\
    forall b, (b < klen par)%nat ->
      fleb (nth b vall NaN) (nth (argmax vall) vall NaN) = true.
Proof.
  intros Hshapes Hv Hp Hj n0 vall HF.
  destruct (shapes_ok_inv par Hshapes) as (Hk2 & _ & _).
  assert (HL : length vall = klen par) by (apply choice_values_length; assumption).
  assert (Hne : vall <> []) by (intros E; rewrite E in HL; simpl in HL; lia).
  destruct (py_max_is_maximum Hne HF) as (Emax & Hmax).
  eexists. eexists. eexists. split; [reflexivity|].
  split; [apply argmax_lt; lia|].
  rewrite !cell_in_table by assumption. fold vall. rewrite Emax.
  split; [reflexivity|]. split; [reflexivity|]. split; [reflexivity|].
  intros b Hb. apply Hmax. lia.
Qed.

Lemma bellman_pass_is_optimal_witness :
  let par := par_identity in
  let n0 := labor_table fminbound_quarter par in
  let vall := choice_values par n0 (v0 (initial_vfi_state par n0)) 1 1 in
  exists (v1 : ftable) (k1 n1 : mat),
    last_pass (loop_body par n0 (initial_vfi_state par n0)) = Some (v1, k1, n1) /\
    (argmax vall < klen par)%nat /\
    cell v1 1 1 = Ok (nth (argmax vall) vall NaN) /\
    cell k1 1 1 = Ok (nth (argmax vall) (kgrid par) 0) /\
    cell n1 1 1 = Ok (n_at n0 1 (argmax vall) 1) /\
    forall b, (b < klen par)%nat ->
      fleb (nth b vall NaN) (nth (argmax vall) vall NaN) = true.
Proof.
  apply (@bellman_pass_is_optimal fminbound_quarter par_identity
           (initial_vfi_state par_identity
              (labor_table fminbound_quarter par_identity)) 1 1).
  - reflexivity.
  - reflexivity.
  - simpl. lia.
  - simpl. lia.
  - cbn [initial_vfi_state v0].
    rewrite initial_guess_identity, choice_values_identity_high_second.
    repeat constructor; discriminate.
Defined.

(** X13: whatever parameters [setup] accepts and whatever the minimizer
    answers, [plan_allocations] returns, and each of its six tables has a
    cell for every capital state and productivity state. *)
Theorem solver_returns_after_setup
    (Phi : R -> R) (kwargs : config -> config)
    (fminbound : (R -> fval) -> R -> R -> R) (par : params) :
  setup Phi kwargs = Ok par ->
  exists sol : solution,
    plan_allocations fminbound par (Z.to_nat 10001) = Some (Ok sol) /\
    forall p j : nat, (p < klen par)%nat -> (j < Alen par)%nat ->
      exists (y c v : fval) (k n i : R),
        cell (sol_y sol) p j = Ok y /\ cell (sol_k sol) p j = Ok k /\
        cell (sol_n sol) p j = Ok n /\ cell (sol_i sol) p j = Ok i /\
        cell (sol_c sol) p j = Ok c /\ cell (sol_v sol) p j = Ok v.
Proof.
  intros Hsetup. pose proof (setup_shapes _ _ Hsetup) as Hshapes.
  destruct (@plan_allocations_returns fminbound par (Z.to_nat 10001)
              ltac:(unfold maxiter; lia) Hshapes)
    as (t & v1 & k1 & n1 & Ht & _ & _ & Hplan).
  destruct (plan_allocations_inv _ _ _ Hplan) as (_ & st & v1' & k1' & n1' & Hlast & Esol).
  exists (policy_tables par v1 k1 n1). split; [exact Hplan|].
  rewrite Esol. intros p j Hp Hj.
  unfold loop_body in Hlast. cbn [last_pass] in Hlast. injection Hlast as <- <- <-.
  unfold policy_tables. cbn [sol_y sol_k sol_n sol_i sol_c sol_v].
  do 6 eexists.
  split; [now apply cell_in_table|]. split; [now apply cell_in_table|].
  split; [now apply cell_in_table|]. split; [now apply cell_in_table|].
  assert (Cc : forall fy fi,
            cell (zip_with (zip_with (fun (y0 : fval) (i0 : R) => clamp0 (y0 - Fin i0)%fval))
                    (table (klen par) (Alen par) fy) (table (klen par) (Alen par) fi)) p j =
            Ok (clamp0 (fy p j - Fin (fi p j))%fval)).
  { intros fy fi.
    apply (@cell_zip_with_both _ _ _ (fun (y0 : fval) (i0 : R) => clamp0 (y0 - Fin i0)%fval));
      now apply cell_in_table. }
  split; [apply Cc|].
  apply cell_zip_with_both; [apply Cc | now apply cell_in_table].
Qed.

Lemma solver_returns_after_setup_witness :
  exists (par : params) (sol : solution),
    setup ramp_cdf kwargs_colab = Ok par /\
    plan_allocations fminbound_quarter par (Z.to_nat 10001) = Some (Ok sol) /\
    forall p j : nat, (p < klen par)%nat -> (j < Alen par)%nat ->
      exists (y c v : fval) (k n i : R),
        cell (sol_y sol) p j = Ok y /\ cell (sol_k sol) p j = Ok k /\
        cell (sol_n sol) p j = Ok n /\ cell (sol_i sol) p j = Ok i /\
        cell (sol_c sol) p j = Ok c /\ cell (sol_v sol) p j = Ok v.
Proof.
  destruct (setup_returns ramp_cdf kwargs_colab setup_asserts_colab) as (par & Hsetup).
  destruct (@solver_returns_after_setup ramp_cdf kwargs_colab fminbound_quarter par Hsetup)
    as (sol & Hplan & Hcells).
  exists par, sol. split; [exact Hsetup|]. split; [exact Hplan | exact Hcells].
Defined.


(** *** The matrix power of a chain is a chain *)

Lemma vsum_cons (x : R) (v : vec) : Np.vsum (x :: v) = x + Np.vsum v.
Proof. reflexivity. Qed.

Lemma vsum_map_zero {X : Type} (l : list X) : Np.vsum (map (fun _ => 0) l) = 0.
Proof. induction l as [|x l IH]; [reflexivity|]. cbn [map]. rewrite vsum_cons, IH. lra. Qed.

Lemma vsum_map_plus {X : Type} (f g : X -> R) (l : list X) :
  Np.vsum (map (fun k => f k + g k) l) = Np.vsum (map f l) + Np.vsum (map g l).
Proof.
  induction l as [|x l IH]; cbn [map]; rewrite ?vsum_cons; [unfold Np.vsum; simpl; lra|].
  rewrite IH. lra.
Qed.

Lemma vsum_map_scale {X : Type} (a : R) (f : X -> R) (l : list X) :
  Np.vsum (map (fun k => a * f k) l) = a * Np.vsum (map f l).
Proof.
  induction l as [|x l IH]; cbn [map]; rewrite ?vsum_cons; [unfold Np.vsum; simpl; lra|].
  rewrite IH. lra.
Qed.

Lemma vsum_columns (row : vec) :
  Np.vsum (map (fun k => nth k row 0) (seq 0 (length row))) = Np.vsum row.
Proof.
  induction row as [|a row IH]; [reflexivity|].
  cbn [length seq map nth]. rewrite <- seq_shift, map_map. cbn [nth].
  rewrite !vsum_cons, IH. reflexivity.
Qed.

Lemma dot_cons (a x : R) (r c : vec) : Np.dot (a :: r) (x :: c) = a * x + Np.dot r c.
Proof. reflexivity. Qed.

Lemma dot_nil_r (r : vec) : Np.dot r [] = 0.
Proof. now destruct r. Qed.

(** Summing a row of a product over its columns. *)
Lemma vsum_dot_columns (n : nat) (B : mat) :
  Forall (fun row => length row = n) B ->
  forall r : vec,
    Np.vsum (map (fun k => Np.dot r (map (fun row => nth k row 0) B)) (seq 0 n)) =
    Np.vsum (map (fun ab => fst ab * Np.vsum (snd ab)) (combine r B)).
Proof.
  induction 1 as [|row B Hrow HF IH]; intros r.
  - rewrite (map_ext _ (fun _ => 0)) by (intros k; apply dot_nil_r).
    rewrite vsum_map_zero. now destruct r.
  - destruct r as [|a r].
    + rewrite (map_ext _ (fun _ => 0)) by reflexivity. now rewrite vsum_map_zero.
    + rewrite (map_ext _ (fun k => a * nth k row 0
                                   + Np.dot r (map (fun row => nth k row 0) B)))
        by (intros k; apply dot_cons).
      rewrite vsum_map_plus, vsum_map_scale, IH.
      rewrite <- Hrow at 1. rewrite vsum_columns.
      cbn [combine map fst snd]. now rewrite vsum_cons.
Qed.

Lemma vsum_weights (B : mat) :
  Forall (fun row => Np.vsum row = 1) B ->
  forall r : vec, length r = length B ->
    Np.vsum (map (fun ab => fst ab * Np.vsum (snd ab)) (combine r B)) = Np.vsum r.
Proof.
  induction 1 as [|row B Hrow HF IH]; intros [|a r] HL; simpl in HL; try discriminate HL;
    [reflexivity|].
  cbn [combine map fst snd]. rewrite !vsum_cons, Hrow, IH by lia. lra.
Qed.

Lemma dot_nonneg (r : vec) :
  Forall nonneg r -> forall c : vec, Forall nonneg c -> 0 <= Np.dot r c.
Proof.
  induction 1 as [|a r Ha HF IH]; intros [|x c] Hc; try (unfold Np.dot, Np.vsum; simpl; lra).
  inversion Hc as [|x' c' Hx Hc']; subst.
  rewrite dot_cons. specialize (IH c Hc'). unfold nonneg in *. nra.
Qed.

Lemma matmul_stochastic (n : nat) (A B : mat) :
  row_stochastic n A -> row_stochastic n B -> row_stochastic n (Np.matmul n A B).
Proof.
  intros [LA FA] [LB FB]. split; [now rewrite length_matmul|].
  unfold Np.matmul, Np.transpose. apply Forall_map.
  eapply Forall_impl; [|exact FA]. intros r (Lr & Sr & Nr). rewrite map_map.
  split; [now rewrite length_map, length_seq|]. split.
  - rewrite vsum_dot_columns.
    + rewrite vsum_weights; [exact Sr | | lia].
      eapply Forall_impl; [|exact FB]. now intros row (_ & S & _).
    + eapply Forall_impl; [|exact FB]. now intros row (L & _).
  - apply Forall_map. apply Forall_forall. intros k _.
    apply dot_nonneg; [exact Nr|]. apply Forall_map.
    eapply Forall_impl; [|exact FB]. intros row (_ & _ & Nrow).
    destruct (Nat.lt_ge_cases k (length row)) as [Hk | Hk].
    + exact (proj1 (Forall_nth _ _) Nrow k 0 Hk).
    + rewrite nth_overflow by lia. unfold nonneg. lra.
Qed.

Lemma vsum_indicator (i len : nat) :
  forall s : nat,
    Np.vsum (map (fun j => if (i =? j)%nat then 1 else 0) (seq s len)) =
    if ((s <=? i) && (i <? s + len))%nat then 1 else 0.
Proof.
  induction len as [|len IH]; intros s.
  - cbn [seq map]. destruct (Nat.leb_spec s i), (Nat.ltb_spec i (s + 0)); try reflexivity; lia.
  - cbn [seq map]. rewrite vsum_cons, IH.
    destruct (Nat.eqb_spec i s), (Nat.leb_spec (S s) i), (Nat.ltb_spec i (S s + len)),
      (Nat.leb_spec s i), (Nat.ltb_spec i (s + S len)); cbn [andb]; try lra; lia.
Qed.

Lemma eye_stochastic (n : nat) : row_stochastic n (Np.eye n).
Proof.
  unfold Np.eye. split; [now rewrite length_map, length_seq|].
  apply Forall_map. apply Forall_forall. intros i Hi. apply in_seq in Hi.
  split; [now rewrite length_map, length_seq|]. split.
  - rewrite vsum_indicator.
    destruct (Nat.leb_spec 0 i), (Nat.ltb_spec i (0 + n)); cbn [andb]; try reflexivity; lia.
  - apply Forall_map. apply Forall_forall. intros j _.
    unfold nonneg. destruct (i =? j)%nat; lra.
Qed.

Lemma matrix_power_stochastic (n : nat) (A : mat) (k : nat) :
  row_stochastic n A -> row_stochastic n (Np.matrix_power A k).
Proof.
  intros HA. pose proof (proj1 HA) as HL.
  induction k as [|k IH]; cbn [Np.matrix_power]; rewrite HL.
  - apply eye_stochastic.
  - now apply matmul_stochastic.
Qed.

Lemma stationary_row_stochastic (n : nat) (pmat : mat) :
  (0 < n)%nat -> row_stochastic n pmat ->
  exists row, stationary_row pmat = Ok row /\ row_facts n 1 row.
Proof.
  intros Hn HP. pose proof (matrix_power_stochastic 1000 HP) as [HL HF].
  unfold stationary_row.
  rewrite (@lookup_in_range _ (Np.matrix_power pmat 1000) 0 []) by lia.
  eexists. split; [reflexivity|].
  apply (proj1 (Forall_nth _ _) HF). lia.
Qed.

(** X14: for a square row-stochastic transition matrix with at least one
    state, the stationary step [matrix_power(pmat, 1000)[0, :]] returns a
    probability vector: as many entries as states, none negative, summing
    to 1; so [choice] is handed a distribution. *)
Theorem stationary_row_is_distribution (n : nat) (pmat : mat) :
  (0 < n)%nat -> length pmat = n ->
  Forall (fun row => length row = n /\ Np.vsum row = 1 /\ Forall (fun x => 0 <= x) row) pmat ->
  exists row,
    stationary_row pmat = Ok row /\
    length row = n /\ Np.vsum row = 1 /\ Forall (fun x => 0 <= x) row.
Proof.
  intros Hn HL HF.
  destruct (@stationary_row_stochastic n pmat Hn (conj HL HF)) as (row & Hrow & Hfacts).
  exists row. split; [exact Hrow | exact Hfacts].
Qed.

Lemma stationary_row_is_distribution_witness :
  exists row,
    stationary_row [[1 / 2; 1 - 1 / 2]; [1 - 1 / 2; 1 / 2]] = Ok row /\
    length row = 2%nat /\ Np.vsum row = 1 /\ Forall (fun x => 0 <= x) row.
Proof.
  apply (@stationary_row_is_distribution 2 [[1 / 2; 1 - 1 / 2]; [1 - 1 / 2; 1 / 2]]).
  - lia.
  - reflexivity.
  - exact (proj2 (@rouwenhorst_base_stochastic (1 / 2) ltac:(lra))).
Defined.


(** *** The simulator's two index searches *)

Lemma Rleb_false (a b : R) : Rleb a b = false <-> b < a.
Proof.
  unfold Rleb. destruct (Rle_dec a b); split; intros H; try discriminate; try reflexivity; lra.
Qed.

Lemma first_reached_filter (u : R) (cum : vec) :
  forall s : nat,
    match filter (fun ic : nat * R => Rleb u (snd ic)) (combine (seq s (length cum)) cum) with
    | [] => forall c, In c cum -> c < u
    | ic :: _ =>
        (s <= fst ic < s + length cum)%nat /\
        u <= nth (fst ic - s) cum 0 /\
        forall b, (b < fst ic - s)%nat -> nth b cum 0 < u
    end.
Proof.
  induction cum as [|x cum IH]; intros s; cbn [length seq combine filter snd].
  - intros c [].
  - destruct (Rleb u x) eqn:E.
    + cbn [fst]. apply Rleb_true in E. rewrite Nat.sub_diag.
      split; [lia|]. split; [exact E|]. intros b Hb. lia.
    + apply Rleb_false in E. specialize (IH (S s)).
      destruct (filter _ (combine (seq (S s) (length cum)) cum)) as [|ic rest].
      * intros c [<- | Hc]; [exact E | now apply IH].
      * destruct IH as (Hr & Hu & Hb). split; [lia|].
        replace (fst ic - s)%nat with (S (fst ic - S s)) by lia. cbn [nth].
        split; [exact Hu|].
        intros [|b] Hlt; [exact E | apply Hb; lia].
Qed.

(** X15: the search for the next productivity state,
    [where(u <= cum)[0][0]], returns the first index whose cumulative
    probability reaches the draw [u]: every earlier cumulative sum is below
    [u].  It fails, with an [IndexError], exactly when every cumulative sum
    is below the draw. *)
Theorem first_reached_is_first (u : R) (cum : vec) :
  (forall k, first_reached u cum = Ok k ->
     (k < length cum)%nat /\ u <= nth k cum 0 /\
     forall b, (b < k)%nat -> nth b cum 0 < u) /\
  (first_reached u cum = Raise IndexError <-> forall c, In c cum -> c < u) /\
  (forall e, first_reached u cum = Raise e -> e = IndexError).
Proof.
  pose proof (first_reached_filter u cum 0) as H. unfold first_reached.
  destruct (filter _ (combine (seq 0 (length cum)) cum)) as [|ic rest].
  - split; [intros k Hk; discriminate Hk|]. split.
    + split; [intros _; exact H | reflexivity].
    + intros e He. now injection He as <-.
  - destruct H as (Hr & Hu & Hb). rewrite Nat.sub_0_r in Hu, Hb.
    split; [|split].
    + intros k Hk. injection Hk as <-. split; [lia|]. split; [exact Hu | exact Hb].
    + split; [discriminate|]. intros Hall.
      assert (nth (fst ic) cum 0 < u) by (apply Hall, nth_In; lia). lra.
    + intros e He. discriminate He.
Qed.

(** X16: on a capital grid without repeated points, the search
    [where(k == kgrid)] of the simulator finds the index [idx] exactly when
    [kgrid[idx]] is [k]; for a capital that is no point of the grid it
    finds nothing and the period cannot be read: a [ValueError]. *)
Theorem capital_index_spec (par : params) (k : R) :
  NoDup (kgrid par) ->
  (forall idx, capital_index par k = Ok idx <->
     (idx < length (kgrid par))%nat /\ nth idx (kgrid par) 0 = k) /\
  (capital_index par k = Raise ValueError <-> ~ In k (kgrid par)).
Proof.
  intros Hnd. split.
  - intros idx. split; [apply capital_index_sound|].
    intros (Hidx & <-). unfold capital_index. now rewrite where_eq_unique.
  - split.
    + intros H Hin. apply (In_nth _ _ 0) in Hin. destruct Hin as (idx & Hidx & <-).
      unfold capital_index in H. rewrite where_eq_unique in H by assumption.
      discriminate H.
    + intros Hnin. unfold capital_index, where_eq.
      now rewrite where_eq_absent.
Qed.

Lemma capital_index_spec_witness :
  (forall idx, capital_index par_two_points 4 = Ok idx <->
     (idx < length (kgrid par_two_points))%nat /\ nth idx (kgrid par_two_points) 0 = 4) /\
  (capital_index par_two_points 4 = Raise ValueError <-> ~ In 4 (kgrid par_two_points)).
Proof.
  apply (@capital_index_spec par_two_points 4).
  cbn [kgrid par_two_points]. constructor.
  - simpl. intros [H | []]. lra.
  - constructor; [simpl; tauto | constructor].
Defined.

Section SimulatedSeries.

Variable rng : Type.
Variable seed_rng : nat -> rng.
Variable choice_p : nat -> vec -> rng -> option (nat * rng).
Variable choice_uniform : nat -> rng -> option (nat * rng).
Variable rand : rng -> R * rng.
Variable par : params.
Variable sol : solution.

(** The series of [sim] are those of the periods after the first [T]. *)
Lemma grow_economy_inv (sim : simulation) :
  grow_economy seed_rng choice_p choice_uniform rand par sol = Ok sim ->
  exists pers : list period,
    simulate_periods seed_rng choice_p choice_uniform rand par sol = Ok pers /\
    sim_gamma_series sim = skipn (T par) (gamma_series par) /\
    Asim sim = map per_A (skipn (T par) pers) /\
    ysim sim = map per_y (skipn (T par) pers) /\
    ksim sim = map per_k (skipn (T par) pers) /\
    csim sim = map per_c (skipn (T par) pers) /\
    nsim sim = map per_n (skipn (T par) pers) /\
    isim sim = map per_i (skipn (T par) pers) /\
    usim sim = map per_u (skipn (T par) pers).
Proof.
  unfold grow_economy. intros H.
  destruct (simulate_periods _ _ _ _ _ _) as [pers|]; cbn [bind] in H; [|discriminate H].
  injection H as <-. exists pers. repeat split.
Qed.

Lemma length_gamma_series : length (gamma_series par) = (2 * T par)%nat.
Proof. unfold gamma_series. now rewrite length_map, length_linspace. Qed.

Lemma nth_error_map_inv {X Y : Type} (f : X -> Y) (l : list X) (t : nat) (y : Y) :
  nth_error (map f l) t = Some y -> exists x, nth_error l t = Some x /\ f x = y.
Proof.
  rewrite nth_error_map. destruct (nth_error l t) as [x|]; [|discriminate].
  intros H. injection H as <-. now exists x.
Qed.

Lemma sim_loop_follows (cmat : mat) (steps : nat) :
  forall (j : nat) (k_prev : R) (At : nat) (s : rng) (pers : list period),
    sim_loop rand par sol cmat steps j k_prev At s = Ok pers ->
    (forall per, nth_error pers 0 = Some per -> follows par sol k_prev per) /\
    (forall t per per',
        nth_error pers t = Some per -> nth_error pers (S t) = Some per' ->
        follows par sol (per_k per) per').
Proof.
  induction steps as [|steps IH]; intros j k_prev At s pers H; cbn [sim_loop] in H.
  - injection H as <-. split; [intros per Hp | intros [|t] per per' Hp]; discriminate Hp.
  - destruct (capital_index par k_prev) as [kt|] eqn:Ek; cbn [bind] in H; [|discriminate H].
    destruct (period_at par sol kt At j) as [per0|] eqn:Ep; cbn [bind] in H; [|discriminate H].
    destruct (next_A rand cmat At s) as [nx|]; cbn [bind] in H; [|discriminate H].
    destruct (sim_loop rand par sol cmat steps (S j) (per_k per0) (fst nx) (snd nx))
      as [rest|] eqn:Er; cbn [bind] in H; [|discriminate H].
    injection H as <-. destruct (IH _ _ _ _ _ Er) as (Hfirst & Hnext).
    split.
    + intros per Hp. injection Hp as <-.
      destruct (period_at_cells _ _ _ _ _ Ep) as (Cy & Cc & Ck & Ci).
      exists kt, At. auto.
    + intros [|t] per per' Hp Hp'; cbn [nth_error] in Hp, Hp'.
      * injection Hp as <-. now apply Hfirst.
      * exact (Hnext t per per' Hp Hp').
Qed.

Lemma simulate_periods_follows (pers : list period) :
  simulate_periods seed_rng choice_p choice_uniform rand par sol = Ok pers ->
  forall t per per',
    nth_error pers t = Some per -> nth_error pers (S t) = Some per' ->
    follows par sol (per_k per) per'.
Proof.
  unfold simulate_periods. intros H.
  destruct (stationary_row (pmat par)) as [pmat0|]; cbn [bind] in H; [|discriminate H].
  destruct (draw (choice_p _ _ _)) as [a0|]; cbn [bind] in H; [|discriminate H].
  destruct (draw (choice_uniform _ _)) as [k0|]; cbn [bind] in H; [|discriminate H].
  destruct (_ =? 0)%nat; [discriminate H|].
  destruct (period_at par sol (fst k0) (fst a0) 0) as [per0|]; cbn [bind] in H;
    [|discriminate H].
  destruct (next_A _ _ _ _) as [nx|]; cbn [bind] in H; [|discriminate H].
  destruct (sim_loop _ _ _ _ _ _ _ _ _) as [rest|] eqn:Er; cbn [bind] in H; [|discriminate H].
  injection H as <-. destruct (sim_loop_follows _ _ _ _ _ _ Er) as (Hfirst & Hnext).
  intros [|t] per per' Hp Hp'; cbn [nth_error] in Hp, Hp'.
  - injection Hp as <-. now apply Hfirst.
  - exact (Hnext t per per' Hp Hp').
Qed.

Lemma period_at_utility (kt At j : nat) (per : period) :
  period_at par sol kt At j = Ok per ->
  exists g, nth_error (gamma_series par) j = Some g /\
            per_u per = util (per_c per) (per_n per) (sigma par) (nu par) g.
Proof.
  unfold period_at. intros H.
  destruct (lookup (nth 0 (Agrid par) []) At) as [A|]; cbn [bind] in H; [|discriminate H].
  destruct (cell (sol_y sol) kt At) as [y|]; cbn [bind] in H; [|discriminate H].
  destruct (cell (sol_c sol) kt At) as [c|]; cbn [bind] in H; [|discriminate H].
  destruct (cell (sol_n sol) kt At) as [n|]; cbn [bind] in H; [|discriminate H].
  destruct (cell (sol_k sol) kt At) as [k|]; cbn [bind] in H; [|discriminate H].
  destruct (cell (sol_i sol) kt At) as [i|]; cbn [bind] in H; [|discriminate H].
  unfold lookup in H.
  destruct (nth_error (gamma_series par) j) as [g|]; cbn [bind] in H; [|discriminate H].
  injection H as <-. exists g. split; reflexivity.
Qed.

Lemma sim_loop_utility (cmat : mat) (steps : nat) :
  forall (j : nat) (k_prev : R) (At : nat) (s : rng) (pers : list period),
    sim_loop rand par sol cmat steps j k_prev At s = Ok pers ->
    forall t per, nth_error pers t = Some per ->
      exists g, nth_error (gamma_series par) (j + t) = Some g /\
                per_u per = util (per_c per) (per_n per) (sigma par) (nu par) g.
Proof.
  induction steps as [|steps IH]; intros j k_prev At s pers H; cbn [sim_loop] in H.
  - injection H as <-. intros [|t] per Hp; discriminate Hp.
  - destruct (capital_index par k_prev) as [kt|]; cbn [bind] in H; [|discriminate H].
    destruct (period_at par sol kt At j) as [per0|] eqn:Ep; cbn [bind] in H; [|discriminate H].
    destruct (next_A rand cmat At s) as [nx|]; cbn [bind] in H; [|discriminate H].
    destruct (sim_loop rand par sol cmat steps (S j) (per_k per0) (fst nx) (snd nx))
      as [rest|] eqn:Er; cbn [bind] in H; [|discriminate H].
    injection H as <-. intros [|t] per Hp; cbn [nth_error] in Hp.
    + injection Hp as <-. rewrite Nat.add_0_r. now apply period_at_utility in Ep.
    + replace (j + S t)%nat with (S j + t)%nat by lia. exact (IH _ _ _ _ _ Er t per Hp).
Qed.

Lemma simulate_periods_utility (pers : list period) :
  simulate_periods seed_rng choice_p choice_uniform rand par sol = Ok pers ->
  forall t per, nth_error pers t = Some per ->
    exists g, nth_error (gamma_series par) t = Some g /\
              per_u per = util (per_c per) (per_n per) (sigma par) (nu par) g.
Proof.
  unfold simulate_periods. intros H.
  destruct (stationary_row (pmat par)) as [pmat0|]; cbn [bind] in H; [|discriminate H].
  destruct (draw (choice_p _ _ _)) as [a0|]; cbn [bind] in H; [|discriminate H].
  destruct (draw (choice_uniform _ _)) as [k0|]; cbn [bind] in H; [|discriminate H].
  destruct (_ =? 0)%nat; [discriminate H|].
  destruct (period_at par sol (fst k0) (fst a0) 0) as [per0|] eqn:Ep; cbn [bind] in H;
    [|discriminate H].
  destruct (next_A _ _ _ _) as [nx|]; cbn [bind] in H; [|discriminate H].
  destruct (sim_loop _ _ _ _ _ _ _ _ _) as [rest|] eqn:Er; cbn [bind] in H; [|discriminate H].
  injection H as <-. intros [|t] per Hp; cbn [nth_error] in Hp.
  - injection Hp as <-. now apply period_at_utility in Ep.
  - pose proof sim_loop_utility as L. exact (L _ _ _ _ _ _ _ Er t per Hp).
Qed.

End SimulatedSeries.

(** X18: the simulated path follows the capital policy.  From one retained
    period to the next, the capital chosen in the first is a point
    [kgrid[kt]] of the grid, and output, consumption, investment and the
    capital chosen in the next are all read from row [kt] of the policy
    tables, at one productivity column. *)
Theorem simulated_path_follows_policy
    (rng : Type) (seed_rng : nat -> rng)
    (choice_p : nat -> vec -> rng -> option (nat * rng))
    (choice_uniform : nat -> rng -> option (nat * rng))
    (rand : rng -> R * rng) (par : params) (sol : solution) (sim : simulation) :
  grow_economy seed_rng choice_p choice_uniform rand par sol = Ok sim ->
  forall (t : nat) (k k' : R) (y' c' : fval) (i' : R),
    nth_error (ksim sim) t = Some k ->
    nth_error (ksim sim) (S t) = Some k' ->
    nth_error (ysim sim) (S t) = Some y' ->
    nth_error (csim sim) (S t) = Some c' ->
    nth_error (isim sim) (S t) = Some i' ->
    exists kt At : nat,
      (kt < length (kgrid par))%nat /\ nth kt (kgrid par) 0 = k /\
      cell (sol_k sol) kt At = Ok k' /\
      cell (sol_y sol) kt At = Ok y' /\
      cell (sol_c sol) kt At = Ok c' /\
      cell (sol_i sol) kt At = Ok i'.
Proof.
  intros Hsim t k k' y' c' i' Hk Hk' Hy' Hc' Hi'.
  destruct (grow_economy_inv _ _ _ _ _ _ Hsim)
    as (pers & Hpers & _ & _ & Ey & Ek & Ec & _ & Ei & _).
  rewrite Ek in Hk, Hk'. rewrite Ey in Hy'. rewrite Ec in Hc'. rewrite Ei in Hi'.
  apply nth_error_map_inv in Hk. destruct Hk as (per & Hper & <-).
  apply nth_error_map_inv in Hk'. destruct Hk' as (per' & Hper' & <-).
  apply nth_error_map_inv in Hy'. destruct Hy' as (pery & Hpery & <-).
  apply nth_error_map_inv in Hc'. destruct Hc' as (perc & Hperc & <-).
  apply nth_error_map_inv in Hi'. destruct Hi' as (peri & Hperi & <-).
  rewrite Hper' in Hpery, Hperc, Hperi.
  injection Hpery as <-. injection Hperc as <-. injection Hperi as <-.
  rewrite nth_error_skipn in Hper, Hper'.
  replace (T par + S t)%nat with (S (T par + t)) in Hper' by lia.
  destruct (simulate_periods_follows _ _ _ _ _ _ Hpers _ Hper Hper')
    as (kt & At & Hci & Cy & Cc & Ck & Ci).
  destruct (capital_index_sound _ _ Hci) as (Hlt & Hnth).
  exists kt, At. repeat split; assumption.
Qed.

Lemma simulated_path_follows_policy_witness :
  exists (par : params) (sol : solution) (sim : simulation),
    grow_economy (fun seed : nat => seed) counter_choice_p counter_choice_uniform
                 counter_rand par sol = Ok sim /\
    length (ksim sim) = 100%nat /\
    forall (t : nat) (k k' : R) (y' c' : fval) (i' : R),
      nth_error (ksim sim) t = Some k ->
      nth_error (ksim sim) (S t) = Some k' ->
      nth_error (ysim sim) (S t) = Some y' ->
      nth_error (csim sim) (S t) = Some c' ->
      nth_error (isim sim) (S t) = Some i' ->
      exists kt At : nat,
        (kt < length (kgrid par))%nat /\ nth kt (kgrid par) 0 = k /\
        cell (sol_k sol) kt At = Ok k' /\
        cell (sol_y sol) kt At = Ok y' /\
        cell (sol_c sol) kt At = Ok c' /\
        cell (sol_i sol) kt At = Ok i'.
Proof.
  destruct simulation_runs_after_setup as (par & sol & sim & _ & _ & Hsim & Ly & _).
  exists par, sol, sim. split; [exact Hsim|]. split.
  - destruct (grow_economy_inv _ _ _ _ _ _ Hsim) as (pers & _ & _ & _ & Ey & Ek & _).
    rewrite Ey, length_map in Ly. now rewrite Ek, length_map.
  - exact (@simulated_path_follows_policy nat (fun seed : nat => seed) counter_choice_p
             counter_choice_uniform counter_rand par sol sim Hsim).
Defined.

(** X19: the taste shock.  The retained shock series has [T] entries, each
    within 0.3 of [gamma]; and the utility of every retained period is
    [util] of that period's consumption and labor with the weight on
    leisure of the same period of the retained shock series. *)
Theorem simulated_utility_uses_taste_shock
    (rng : Type) (seed_rng : nat -> rng)
    (choice_p : nat -> vec -> rng -> option (nat * rng))
    (choice_uniform : nat -> rng -> option (nat * rng))
    (rand : rng -> R * rng) (par : params) (sol : solution) (sim : simulation) :
  grow_economy seed_rng choice_p choice_uniform rand par sol = Ok sim ->
  length (sim_gamma_series sim) = T par /\
  (forall g, In g (sim_gamma_series sim) ->
     gamma par - 3 / 10 <= g <= gamma par + 3 / 10) /\
  (forall (t : nat) (c : fval) (n : R) (u : fval),
     nth_error (csim sim) t = Some c ->
     nth_error (nsim sim) t = Some n ->
     nth_error (usim sim) t = Some u ->
     exists g, nth_error (sim_gamma_series sim) t = Some g /\
               u = util c n (sigma par) (nu par) g).
Proof.
  intros Hsim.
  destruct (grow_economy_inv _ _ _ _ _ _ Hsim)
    as (pers & Hpers & Eg & _ & _ & _ & Ec & En & _ & Eu).
  split; [|split].
  - rewrite Eg, length_skipn, length_gamma_series. lia.
  - intros g Hg. rewrite Eg in Hg. apply in_skipn in Hg.
    unfold gamma_series in Hg. apply in_map_iff in Hg. destruct Hg as (x & <- & _).
    pose proof (SIN_bound x). lra.
  - intros t c n u Hc Hn Hu. rewrite Ec in Hc. rewrite En in Hn. rewrite Eu in Hu.
    apply nth_error_map_inv in Hc. destruct Hc as (per & Hper & <-).
    apply nth_error_map_inv in Hn. destruct Hn as (pern & Hpern & <-).
    apply nth_error_map_inv in Hu. destruct Hu as (peru & Hperu & <-).
    rewrite Hper in Hpern, Hperu. injection Hpern as <-. injection Hperu as <-.
    rewrite nth_error_skipn in Hper.
    destruct (simulate_periods_utility _ _ _ _ _ _ Hpers _ Hper) as (g & Hg & Hut).
    exists g. split; [|exact Hut]. now rewrite Eg, nth_error_skipn.
Qed.

Lemma simulated_utility_uses_taste_shock_witness :
  exists (par : params) (sol : solution) (sim : simulation),
    grow_economy (fun seed : nat => seed) counter_choice_p counter_choice_uniform
                 counter_rand par sol = Ok sim /\
    length (sim_gamma_series sim) = T par /\
    (forall g, In g (sim_gamma_series sim) ->
       gamma par - 3 / 10 <= g <= gamma par + 3 / 10) /\
    (forall (t : nat) (c : fval) (n : R) (u : fval),
       nth_error (csim sim) t = Some c ->
       nth_error (nsim sim) t = Some n ->
       nth_error (usim sim) t = Some u ->
       exists g, nth_error (sim_gamma_series sim) t = Some g /\
                 u = util c n (sigma par) (nu par) g).
Proof.
  destruct simulation_runs_after_setup as (par & sol & sim & _ & _ & Hsim & _).
  exists par, sol, sim. split; [exact Hsim|].
  exact (@simulated_utility_uses_taste_shock nat (fun seed : nat => seed) counter_choice_p
           counter_choice_uniform counter_rand par sol sim Hsim).
Defined.


(** *** Parts (D) and (E) of [ps1_5de.py] *)

Lemma fpow_one_base (e : R) : fpow (Fin 1) e = Fin 1.
Proof.
  unfold fpow. destruct (Req_dec_T e 0); [reflexivity|].
  destruct (Rlt_dec 0 1) as [_ | H]; [|lra]. now rewrite Rpower_base_1.
Qed.

Lemma path_output_positive (par : params) (A k : R) :
  0 < alpha par -> 0 < k ->
  path_output par A (Fin k) = Fin (A * Rpower k (alpha par)).
Proof.
  intros Ha Hk. unfold path_output.
  rewrite fpow_pos_base by lra. rewrite fpow_one_base. simpl. f_equal. ring.
Qed.

(** With all time spent working the leisure term is zero, whatever its
    weight. *)
Lemma util_full_labor (c : fval) (sigma nu g g' : R) :
  0 < nu -> util c 1 sigma nu g = util c 1 sigma nu g'.
Proof.
  intros Hnu. unfold util. rewrite leisure_term by lra.
  destruct (Rlt_dec 0 (1 - 1)) as [H | _]; [lra|].
  cbn [fmul]. f_equal. f_equal. unfold Rdiv. ring.
Qed.

Lemma lookup_out_of_range {X : Type} (l : list X) (k : nat) :
  (length l <= k)%nat -> lookup l k = Raise IndexError.
Proof.
  intros H. unfold lookup. now rewrite (proj2 (nth_error_None l k) H).
Qed.

Lemma lookup_firstn {X : Type} (n : nat) (l : list X) (k : nat) :
  (k < n)%nat -> lookup (firstn n l) k = lookup l k.
Proof. intros H. unfold lookup. now rewrite nth_error_firstn, (proj2 (Nat.ltb_lt k n) H). Qed.

Lemma Forall_on_firstn {X : Type} (P : X -> Prop) (l : list X) :
  Forall P l -> forall n : nat, Forall P (firstn n l).
Proof.
  induction 1 as [|x l Hx HF IH]; intros [|n]; simpl; constructor; auto.
Qed.

Section PartD.

Variable par : params.
Variables Asim saving_data : vec.

(** The loop runs through when both series are long enough, and stops with
    an [IndexError] when one of them is not. *)
Lemma part_d_loop_returns (steps : nat) :
  forall (t : nat) (k : fval),
    (t + steps <= length Asim)%nat -> (t + steps <= length saving_data)%nat ->
    exists pers, part_d_loop par Asim saving_data steps t k = Ok pers /\
                 length pers = steps.
Proof.
  induction steps as [|steps IH]; intros t k HA HS; cbn [part_d_loop].
  - exists []. split; reflexivity.
  - rewrite (@lookup_in_range _ Asim t 0) by lia. cbn [bind].
    rewrite (@lookup_in_range _ saving_data t 0) by lia. cbn [bind].
    destruct (IH (S t) (snd (part_d_step par (nth t Asim 0) (nth t saving_data 0) k))
                ltac:(lia) ltac:(lia)) as (rest & -> & HL).
    cbn [bind]. eexists. split; [reflexivity|]. simpl. now rewrite HL.
Qed.

Lemma part_d_loop_raises (steps : nat) :
  forall (t : nat) (k : fval),
    (t <= length Asim)%nat -> (t <= length saving_data)%nat ->
    (length Asim < t + steps)%nat \/ (length saving_data < t + steps)%nat ->
    part_d_loop par Asim saving_data steps t k = Raise IndexError.
Proof.
  induction steps as [|steps IH]; intros t k H1 H2 H; [lia|]. cbn [part_d_loop].
  destruct (Nat.lt_ge_cases t (length Asim)) as [HA | HA];
    [|now rewrite lookup_out_of_range].
  rewrite (@lookup_in_range _ Asim t 0) by lia. cbn [bind].
  destruct (Nat.lt_ge_cases t (length saving_data)) as [HS | HS];
    [|now rewrite lookup_out_of_range].
  rewrite (@lookup_in_range _ saving_data t 0) by lia. cbn [bind].
  rewrite IH by lia. reflexivity.
Qed.

Hypothesis alpha_pos : 0 < alpha par.
Hypothesis delta_range : 0 <= delta par < 1.
Hypothesis productivity_pos : Forall (fun A => 0 < A) Asim.
Hypothesis saving_range : Forall (fun s => 0 <= s <= 1) saving_data.

Lemma part_d_loop_invariants (steps : nat) :
  forall (t : nat) (k : R) (pers : list path_period),
    0 < k ->
    part_d_loop par Asim saving_data steps t (Fin k) = Ok pers ->
    (forall per, nth_error pers 0 = Some per -> pp_k per = Fin k) /\
    Forall (fun per =>
              exists y k c i : R,
                pp_y per = Fin y /\ pp_k per = Fin k /\
                pp_c per = Fin c /\ pp_i per = Fin i /\
                0 < k /\ 0 < y /\ 0 <= i /\ 0 <= c /\ c + i = y) pers /\
    (forall u per per',
        nth_error pers u = Some per -> nth_error pers (S u) = Some per' ->
        pp_k per' = (pp_i per + Fin (1 - delta par) * pp_k per)%fval).
Proof.
  induction steps as [|steps IH]; intros t k pers Hk H; cbn [part_d_loop] in H.
  - injection H as <-. split; [intros per Hp; discriminate Hp|].
    split; [constructor|]. intros [|u] per per' Hp; discriminate Hp.
  - unfold lookup in H.
    destruct (nth_error Asim t) as [A|] eqn:EA; cbn [bind] in H; [|discriminate H].
    destruct (nth_error saving_data t) as [s|] eqn:ES; cbn [bind] in H; [|discriminate H].
    assert (HA : 0 < A)
      by (exact (proj1 (Forall_forall _ _) productivity_pos A (nth_error_In _ _ EA))).
    assert (HS : 0 <= s <= 1)
      by (exact (proj1 (Forall_forall _ _) saving_range s (nth_error_In _ _ ES))).
    assert (Hy : 0 < A * Rpower k (alpha par))
      by (apply Rmult_lt_0_compat; [exact HA | apply Rpower_pos]).
    assert (Estep : part_d_step par A s (Fin k) =
              ({| pp_y := Fin (A * Rpower k (alpha par));
                  pp_k := Fin k;
                  pp_c := Fin (A * Rpower k (alpha par) - s * (A * Rpower k (alpha par)));
                  pp_n := 1;
                  pp_i := Fin (s * (A * Rpower k (alpha par)));
                  pp_u := util (Fin (A * Rpower k (alpha par)
                                     - s * (A * Rpower k (alpha par))))
                               1 (sigma par) (nu par) (gamma par) |},
               Fin (s * (A * Rpower k (alpha par)) + (1 - delta par) * k))).
    { unfold part_d_step. rewrite path_output_positive by assumption. reflexivity. }
    rewrite Estep in H. cbn [fst snd] in H.
    destruct (part_d_loop par Asim saving_data steps (S t)
                (Fin (s * (A * Rpower k (alpha par)) + (1 - delta par) * k)))
      as [rest|] eqn:Er; cbn [bind] in H; [|discriminate H].
    injection H as <-.
    assert (Hk' : 0 < s * (A * Rpower k (alpha par)) + (1 - delta par) * k) by nra.
    destruct (IH _ _ _ Hk' Er) as (Hfirst & Hgood & Hchain).
    split; [|split].
    + intros per Hp. injection Hp as <-. reflexivity.
    + constructor; [|exact Hgood]. cbn [pp_y pp_k pp_c pp_i].
      exists (A * Rpower k (alpha par)), k,
             (A * Rpower k (alpha par) - s * (A * Rpower k (alpha par))),
             (s * (A * Rpower k (alpha par))).
      repeat split; try reflexivity; try assumption; nra.
    + intros [|u] per per' Hp Hp'; cbn [nth_error] in Hp, Hp'.
      * injection Hp as <-. cbn [pp_i pp_k]. exact (Hfirst per' Hp').
      * exact (Hchain u per per' Hp Hp').
Qed.

End PartD.

(** X20: part (D) runs through exactly when the baseline productivity path
    and the saving-rate data both have [T] entries or more, and then
    returns [T] periods; when either is shorter it stops with an
    [IndexError].  (The script fixes [T = 100], so a model simulated with
    [par.T < 100] cannot be continued by part (D).) *)
Theorem part_d_needs_enough_data
    (par : params) (kss : R) (Asim saving_data : vec) (T : nat) :
  ((T <= length Asim)%nat /\ (T <= length saving_data)%nat ->
   exists pers, part_d par kss Asim saving_data T = Ok pers /\ length pers = T) /\
  ((length Asim < T)%nat \/ (length saving_data < T)%nat ->
   part_d par kss Asim saving_data T = Raise IndexError).
Proof.
  unfold part_d. split.
  - intros (HA & HS). apply part_d_loop_returns; [|lia].
    rewrite length_firstn. lia.
  - intros H. apply part_d_loop_raises; [lia | lia |]. rewrite length_firstn. lia.
Qed.

(** X21: part (D) with saving rates between 0 and 1, positive productivity,
    [alpha > 0], depreciation below 1 and a positive starting capital:
    the path starts at [kss]; in every period capital and output are
    positive, investment and consumption are not negative and add up to
    output; and capital moves by [k_next = i + (1 - delta) k]. *)
Theorem part_d_path_invariants
    (par : params) (kss : R) (Asim saving_data : vec) (T : nat)
    (pers : list path_period) :
  0 < alpha par -> 0 <= delta par < 1 -> 0 < kss ->
  Forall (fun A => 0 < A) Asim ->
  Forall (fun s => 0 <= s <= 1) saving_data ->
  part_d par kss Asim saving_data T = Ok pers ->
  (forall per, nth_error pers 0 = Some per -> pp_k per = Fin kss) /\
  Forall (fun per =>
            exists y k c i : R,
              pp_y per = Fin y /\ pp_k per = Fin k /\
              pp_c per = Fin c /\ pp_i per = Fin i /\
              0 < k /\ 0 < y /\ 0 <= i /\ 0 <= c /\ c + i = y) pers /\
  (forall u per per',
      nth_error pers u = Some per -> nth_error pers (S u) = Some per' ->
      pp_k per' = (pp_i per + Fin (1 - delta par) * pp_k per)%fval).
Proof.
  intros Ha Hd Hk HA HS H. unfold part_d in H.
  apply (@part_d_loop_invariants par (firstn T Asim) saving_data Ha Hd
           (Forall_on_firstn HA T) HS T 0 kss pers Hk H).
Qed.

Lemma part_d_path_invariants_witness :
  let pers := [fst (part_d_step par_two_points 2 (1 / 2) (Fin 1))] in
  (forall per, nth_error pers 0 = Some per -> pp_k per = Fin 1) /\
  Forall (fun per =>
            exists y k c i : R,
              pp_y per = Fin y /\ pp_k per = Fin k /\
              pp_c per = Fin c /\ pp_i per = Fin i /\
              0 < k /\ 0 < y /\ 0 <= i /\ 0 <= c /\ c + i = y) pers /\
  (forall u per per',
      nth_error pers u = Some per -> nth_error pers (S u) = Some per' ->
      pp_k per' = (pp_i per + Fin (1 - delta par_two_points) * pp_k per)%fval).
Proof.
  apply (@part_d_path_invariants par_two_points 1 [2] [1 / 2] 1).
  - simpl. lra.
  - simpl. lra.
  - lra.
  - repeat constructor. lra.
  - repeat constructor; lra.
  - reflexivity.
Defined.


Section PartE.

Variable par : params.
Variable Asim : vec.

Hypothesis nu_pos : 0 < nu par.

Lemma part_e_step_any_weight (A g g' : R) (k : fval) :
  part_e_step par A g k = part_e_step par A g' k.
Proof.
  unfold part_e_step. now rewrite (@util_full_labor _ (sigma par) (nu par) g g' nu_pos).
Qed.

(** The loop of part (E) does not depend on the shock series it reads. *)
Lemma part_e_loop_any_weights (g1 g2 : vec) (steps : nat) :
  forall (t : nat) (k : fval),
    (t + steps <= length g1)%nat -> (t + steps <= length g2)%nat ->
    part_e_loop par Asim g1 steps t k = part_e_loop par Asim g2 steps t k.
Proof.
  induction steps as [|steps IH]; intros t k H1 H2; cbn [part_e_loop]; [reflexivity|].
  destruct (lookup Asim t) as [A|]; cbn [bind]; [|reflexivity].
  rewrite (@lookup_in_range _ g1 t 0), (@lookup_in_range _ g2 t 0) by lia. cbn [bind].
  rewrite (part_e_step_any_weight A (nth t g1 0) (nth t g2 0) k).
  rewrite IH by lia. reflexivity.
Qed.

Lemma length_gamma_policy : length (gamma_policy par) = T par.
Proof.
  unfold gamma_policy. rewrite length_skipn, length_map, length_linspace. lia.
Qed.

Hypothesis alpha_pos : 0 < alpha par.
Hypothesis delta_range : 0 <= delta par <= 1.
Hypothesis productivity_pos : Forall (fun A => 0 < A) Asim.

Lemma part_e_loop_spec (gammas : vec) (steps : nat) :
  forall (t : nat) (k : R),
    0 < k ->
    (t + steps <= length Asim)%nat -> (t + steps <= length gammas)%nat ->
    exists pers,
      part_e_loop par Asim gammas steps t (Fin k) = Ok pers /\
      length pers = steps /\
      (forall per, nth_error pers 0 = Some per -> pp_k per = Fin k) /\
      Forall (fun per =>
                exists y k : R,
                  pp_y per = Fin y /\ pp_k per = Fin k /\
                  pp_c per = Fin (75 / 100 * y) /\ pp_i per = Fin (y - 75 / 100 * y) /\
                  0 < k /\ 0 < y) pers /\
      (forall u per per',
          nth_error pers u = Some per -> nth_error pers (S u) = Some per' ->
          pp_k per' = (pp_i per + Fin (1 - delta par) * pp_k per)%fval).
Proof.
  induction steps as [|steps IH]; intros t k Hk HA HG; cbn [part_e_loop].
  - exists []. split; [reflexivity|]. split; [reflexivity|].
    split; [intros per Hp; discriminate Hp|].
    split; [constructor|]. intros [|u] per per' Hp; discriminate Hp.
  - rewrite (@lookup_in_range _ Asim t 0) by lia. cbn [bind].
    rewrite (@lookup_in_range _ gammas t 0) by lia. cbn [bind].
    set (A := nth t Asim 0). set (g := nth t gammas 0).
    assert (HApos : 0 < A)
      by (exact (proj1 (Forall_nth _ _) productivity_pos t 0 ltac:(lia))).
    assert (Hy : 0 < A * Rpower k (alpha par))
      by (apply Rmult_lt_0_compat; [exact HApos | apply Rpower_pos]).
    assert (Estep : part_e_step par A g (Fin k) =
              ({| pp_y := Fin (A * Rpower k (alpha par));
                  pp_k := Fin k;
                  pp_c := Fin (75 / 100 * (A * Rpower k (alpha par)));
                  pp_n := 1;
                  pp_i := Fin (A * Rpower k (alpha par)
                               - 75 / 100 * (A * Rpower k (alpha par)));
                  pp_u := util (Fin (75 / 100 * (A * Rpower k (alpha par))))
                               1 (sigma par) (nu par) g |},
               Fin (A * Rpower k (alpha par) - 75 / 100 * (A * Rpower k (alpha par))
                    + (1 - delta par) * k))).
    { unfold part_e_step. rewrite path_output_positive by assumption. reflexivity. }
    rewrite Estep. cbn [fst snd].
    assert (Hk' : 0 < A * Rpower k (alpha par) - 75 / 100 * (A * Rpower k (alpha par))
                      + (1 - delta par) * k) by nra.
    destruct (IH (S t) _ Hk' ltac:(lia) ltac:(lia))
      as (rest & -> & HL & Hfirst & Hgood & Hchain).
    cbn [bind]. eexists. split; [reflexivity|].
    split; [simpl; now rewrite HL|]. split; [|split].
    + intros per Hp. injection Hp as <-. reflexivity.
    + constructor; [|exact Hgood]. cbn [pp_y pp_k pp_c pp_i].
      exists (A * Rpower k (alpha par)), k. repeat split; try reflexivity; assumption.
    + intros [|u] per per' Hp Hp'; cbn [nth_error] in Hp, Hp'.
      * injection Hp as <-. cbn [pp_i pp_k]. exact (Hfirst per' Hp').
      * exact (Hchain u per per' Hp Hp').
Qed.

End PartE.

(** X22: the policy experiment of part (E) is inert.  With labor fixed at 1
    the leisure term of [util] is zero, and nothing else reads the weight on
    leisure: for [nu > 0] the periods part (E) computes with the lowered
    series [gamma_policy] are those it computes with any other series of
    [T] weights or more, the baseline shocks among them. *)
Theorem part_e_ignores_the_policy (par : params) (kss : R) (Asim gammas : vec) :
  0 < nu par -> (T par <= length gammas)%nat ->
  part_e par kss Asim = part_e_loop par Asim gammas (T par) 0 (Fin kss) /\
  part_e par kss Asim =
    part_e_loop par Asim (skipn (T par) (gamma_series par)) (T par) 0 (Fin kss).
Proof.
  intros Hnu HL. unfold part_e. split.
  - apply part_e_loop_any_weights; [exact Hnu | rewrite length_gamma_policy; lia | lia].
  - apply part_e_loop_any_weights; [exact Hnu | rewrite length_gamma_policy; lia |].
    rewrite length_skipn, length_gamma_series. lia.
Qed.

Lemma part_e_ignores_the_policy_witness :
  part_e par_two_points 1 [2] = part_e_loop par_two_points [2] [0] 1 0 (Fin 1) /\
  part_e par_two_points 1 [2] =
    part_e_loop par_two_points [2] (skipn 1 (gamma_series par_two_points)) 1 0 (Fin 1).
Proof.
  apply (@part_e_ignores_the_policy par_two_points 1 [2] [0]).
  - simpl. lra.
  - simpl. lia.
Defined.

(** X23: part (E) on a baseline path of positive productivity with [T]
    entries or more, [alpha > 0], depreciation in [[0,1]] and a positive
    starting capital: it returns [T] periods, starting at [kss]; in each,
    capital and output are positive, consumption is 75% of output and
    investment the rest; and capital moves by [k_next = i + (1 - delta) k]. *)
Theorem part_e_path (par : params) (kss : R) (Asim : vec) :
  0 < alpha par -> 0 <= delta par <= 1 -> 0 < kss ->
  Forall (fun A => 0 < A) Asim -> (T par <= length Asim)%nat ->
  exists pers,
    part_e par kss Asim = Ok pers /\
    length pers = T par /\
    (forall per, nth_error pers 0 = Some per -> pp_k per = Fin kss) /\
    Forall (fun per =>
              exists y k : R,
                pp_y per = Fin y /\ pp_k per = Fin k /\
                pp_c per = Fin (75 / 100 * y) /\ pp_i per = Fin (y - 75 / 100 * y) /\
                0 < k /\ 0 < y) pers /\
    (forall u per per',
        nth_error pers u = Some per -> nth_error pers (S u) = Some per' ->
        pp_k per' = (pp_i per + Fin (1 - delta par) * pp_k per)%fval).
Proof.
  intros Ha Hd Hk HA HL. unfold part_e.
  apply (@part_e_loop_spec par Asim Ha Hd HA (gamma_policy par) (T par) 0 kss Hk);
    [lia | rewrite length_gamma_policy; lia].
Qed.

Lemma part_e_path_witness :
  exists pers,
    part_e par_two_points 1 [2] = Ok pers /\
    length pers = T par_two_points /\
    (forall per, nth_error pers 0 = Some per -> pp_k per = Fin 1) /\
    Forall (fun per =>
              exists y k : R,
                pp_y per = Fin y /\ pp_k per = Fin k /\
                pp_c per = Fin (75 / 100 * y) /\ pp_i per = Fin (y - 75 / 100 * y) /\
                0 < k /\ 0 < y) pers /\
    (forall u per per',
        nth_error pers u = Some per -> nth_error pers (S u) = Some per' ->
        pp_k per' = (pp_i per + Fin (1 - delta par_two_points) * pp_k per)%fval).
Proof.
  apply (@part_e_path par_two_points 1 [2]).
  - simpl. lra.
  - simpl. lra.
  - lra.
  - repeat constructor. lra.
  - simpl. lia.
Defined.


(** *** Parts (D) and (E) after a run of the model *)

Lemma setup_preferences (Phi : R -> R) (kwargs : config -> config) (par : params) :
  setup Phi kwargs = Ok par ->
  0 < beta par < 1 /\ 1 <= sigma par /\ 0 < gamma par /\ 0 < nu par /\
  0 < alpha par < 1 /\ 0 <= delta par <= 1.
Proof.
  unfold setup. cbv zeta.
  destruct (setup_asserts (kwargs default_config)) eqn:Ea; simpl negb; cbv iota;
    [|discriminate].
  destruct (tauchen _ _ _ _ _ _) as [[ap | e]|]; simpl bind; [|discriminate..].
  intros H. injection H as <-. cbn [beta sigma gamma nu alpha delta].
  unfold setup_asserts in Ea.
  repeat (apply andb_prop in Ea; destruct Ea as [Ea ?]).
  repeat match goal with
  | E : (_ && _)%bool = true |- _ => apply andb_prop in E; destruct E
  end.
  repeat match goal with
  | E : Rltb _ _ = true |- _ => apply Rltb_true in E
  | E : Rleb _ _ = true |- _ => apply Rleb_true in E
  end.
  repeat split; assumption.
Qed.

Lemma setup_productivity_positive (Phi : R -> R) (kwargs : config -> config) (par : params) :
  setup Phi kwargs = Ok par -> Forall (fun A => 0 < A) (nth 0 (Agrid par) []).
Proof.
  intros H. apply setup_inv in H. cbv zeta in H.
  destruct H as (_ & _ & _ & _ & ap & _ & -> & _).
  apply Forall_forall. intros A HA.
  destruct (fst ap) as [|y rest]; [destruct HA|]. cbn [map nth] in HA.
  apply in_map_iff in HA. destruct HA as (x & <- & _). apply exp_pos.
Qed.

Section SimulatedProductivity.

Variable rng : Type.
Variable seed_rng : nat -> rng.
Variable choice_p : nat -> vec -> rng -> option (nat * rng).
Variable choice_uniform : nat -> rng -> option (nat * rng).
Variable rand : rng -> R * rng.
Variable par : params.
Variable sol : solution.

Lemma period_at_productivity (kt At j : nat) (per : period) :
  period_at par sol kt At j = Ok per -> In (per_A per) (nth 0 (Agrid par) []).
Proof.
  unfold period_at. intros H. unfold lookup at 1 in H.
  destruct (nth_error (nth 0 (Agrid par) []) At) as [A|] eqn:EA; cbn [bind] in H;
    [|discriminate H].
  destruct (cell (sol_y sol) kt At) as [y|]; cbn [bind] in H; [|discriminate H].
  destruct (cell (sol_c sol) kt At) as [c|]; cbn [bind] in H; [|discriminate H].
  destruct (cell (sol_n sol) kt At) as [n|]; cbn [bind] in H; [|discriminate H].
  destruct (cell (sol_k sol) kt At) as [k|]; cbn [bind] in H; [|discriminate H].
  destruct (cell (sol_i sol) kt At) as [i|]; cbn [bind] in H; [|discriminate H].
  destruct (lookup (gamma_series par) j) as [g|]; cbn [bind] in H; [|discriminate H].
  injection H as <-. cbn [per_A]. exact (nth_error_In _ _ EA).
Qed.

Lemma sim_loop_productivity (cmat : mat) (steps : nat) :
  forall (j : nat) (k_prev : R) (At : nat) (s : rng) (pers : list period),
    sim_loop rand par sol cmat steps j k_prev At s = Ok pers ->
    length pers = steps /\
    Forall (fun per => In (per_A per) (nth 0 (Agrid par) [])) pers.
Proof.
  induction steps as [|steps IH]; intros j k_prev At s pers H; cbn [sim_loop] in H.
  - injection H as <-. split; [reflexivity | constructor].
  - destruct (capital_index par k_prev) as [kt|]; cbn [bind] in H; [|discriminate H].
    destruct (period_at par sol kt At j) as [per0|] eqn:Ep; cbn [bind] in H; [|discriminate H].
    destruct (next_A rand cmat At s) as [nx|]; cbn [bind] in H; [|discriminate H].
    destruct (sim_loop rand par sol cmat steps (S j) (per_k per0) (fst nx) (snd nx))
      as [rest|] eqn:Er; cbn [bind] in H; [|discriminate H].
    injection H as <-. destruct (IH _ _ _ _ _ Er) as (HL & HF).
    split; [simpl; now rewrite HL|].
    constructor; [now apply period_at_productivity in Ep | exact HF].
Qed.

Lemma simulate_periods_productivity (pers : list period) :
  simulate_periods seed_rng choice_p choice_uniform rand par sol = Ok pers ->
  length pers = (2 * T par)%nat /\
  Forall (fun per => In (per_A per) (nth 0 (Agrid par) [])) pers.
Proof.
  unfold simulate_periods. intros H.
  destruct (stationary_row (pmat par)) as [pmat0|]; cbn [bind] in H; [|discriminate H].
  destruct (draw (choice_p _ _ _)) as [a0|]; cbn [bind] in H; [|discriminate H].
  destruct (draw (choice_uniform _ _)) as [k0|]; cbn [bind] in H; [|discriminate H].
  destruct (2 * T par =? 0)%nat eqn:E0; [discriminate H|]. apply Nat.eqb_neq in E0.
  destruct (period_at par sol (fst k0) (fst a0) 0) as [per0|] eqn:Ep; cbn [bind] in H;
    [|discriminate H].
  destruct (next_A _ _ _ _) as [nx|]; cbn [bind] in H; [|discriminate H].
  destruct (sim_loop _ _ _ _ _ _ _ _ _) as [rest|] eqn:Er; cbn [bind] in H; [|discriminate H].
  injection H as <-. destruct (sim_loop_productivity _ _ _ _ _ _ Er) as (HL & HF).
  split; [simpl length; lia|].
  constructor; [now apply period_at_productivity in Ep | exact HF].
Qed.

(** The productivity path [grow_economy] keeps: [T] values of the grid. *)
Lemma grow_economy_productivity (sim : simulation) :
  grow_economy seed_rng choice_p choice_uniform rand par sol = Ok sim ->
  length (Asim sim) = T par /\
  Forall (fun A => In A (nth 0 (Agrid par) [])) (Asim sim).
Proof.
  intros H. destruct (grow_economy_inv _ _ _ _ _ _ H) as (pers & Hp & _ & -> & _).
  destruct (simulate_periods_productivity Hp) as (HL & HF).
  split; [rewrite length_map, length_skipn; lia|].
  apply Forall_map. apply Forall_forall. intros per Hin.
  apply in_skipn in Hin. exact (proj1 (Forall_forall _ _) HF per Hin).
Qed.

End SimulatedProductivity.

(** X24: after a run of the model.  On the productivity path a successful
    [grow_economy] keeps, with parameters from [setup] and a positive
    starting capital, part (E) always runs through and returns [par.T]
    periods; part (D), whose horizon the script fixes at 100, runs through
    on 100 saving rates or more exactly when [par.T >= 100]. *)
Theorem parts_d_e_after_simulation
    (Phi : R -> R) (kwargs : config -> config)
    (rng : Type) (seed_rng : nat -> rng)
    (choice_p : nat -> vec -> rng -> option (nat * rng))
    (choice_uniform : nat -> rng -> option (nat * rng))
    (rand : rng -> R * rng) (par : params) (sol : solution) (sim : simulation)
    (kss : R) :
  setup Phi kwargs = Ok par ->
  grow_economy seed_rng choice_p choice_uniform rand par sol = Ok sim ->
  0 < kss ->
  (exists pers, part_e par kss (Asim sim) = Ok pers /\ length pers = T par) /\
  (forall saving_data : vec, (100 <= length saving_data)%nat ->
     ((100 <= T par)%nat <->
      exists pers, part_d par kss (Asim sim) saving_data 100 = Ok pers)).
Proof.
  intros Hsetup Hsim Hk.
  destruct (setup_preferences _ _ Hsetup) as (_ & _ & _ & _ & Ha & Hd).
  destruct (grow_economy_productivity _ _ _ _ _ _ Hsim) as (HL & HF).
  assert (Hpos : Forall (fun A => 0 < A) (Asim sim)).
  { eapply Forall_impl; [|exact HF]. intros A HA.
    exact (proj1 (Forall_forall _ _) (setup_productivity_positive _ _ Hsetup) A HA). }
  split.
  - destruct (@part_e_loop_spec par (Asim sim) ltac:(lra) Hd Hpos (gamma_policy par)
                (T par) 0 kss Hk ltac:(lia) ltac:(rewrite length_gamma_policy; lia))
      as (pers & Hp & Hlen & _).
    exists pers. split; [exact Hp | exact Hlen].
  - intros saving_data HS. unfold part_d. split.
    + intros HT.
      destruct (@part_d_loop_returns par (firstn 100 (Asim sim)) saving_data 100 0
                  (Fin kss) ltac:(rewrite length_firstn; lia) ltac:(lia))
        as (pers & Hp & _).
      now exists pers.
    + intros (pers & Hp).
      destruct (Nat.le_gt_cases 100 (T par)) as [HT | HT]; [exact HT|].
      rewrite (@part_d_loop_raises par (firstn 100 (Asim sim)) saving_data 100 0
                 (Fin kss) ltac:(lia) ltac:(lia)
                 ltac:(left; rewrite length_firstn; lia)) in Hp.
      discriminate Hp.
Qed.

Lemma parts_d_e_after_simulation_witness :
  exists (par : params) (sim : simulation),
    (exists pers, part_e par 1 (Asim sim) = Ok pers /\ length pers = T par) /\
    (forall saving_data : vec, (100 <= length saving_data)%nat ->
       ((100 <= T par)%nat <->
        exists pers, part_d par 1 (Asim sim) saving_data 100 = Ok pers)).
Proof.
  destruct simulation_runs_after_setup as (par & sol & sim & Hsetup & _ & Hsim & _).
  exists par, sim.
  apply (@parts_d_e_after_simulation ramp_cdf kwargs_colab nat (fun seed : nat => seed)
           counter_choice_p counter_choice_uniform counter_rand par sol sim 1
           Hsetup Hsim).
  lra.
Defined.


(** *** [ps1_3cd.py] in a session that binds the missing names *)

Lemma bound_cons (a : string) (names : list string) (x : string) :
  bound (a :: names) x = (String.eqb x a || bound names x)%bool.
Proof. reflexivity. Qed.

Lemma first_unbound_covered (names : list string) (loads : list string) :
  (forall x, In x loads -> bound names x = true) -> first_unbound names loads = None.
Proof.
  unfold first_unbound. induction loads as [|x loads IH]; intros H; [reflexivity|].
  cbn [find]. rewrite (H x) by now left. cbn [negb]. apply IH.
  intros z Hz. apply H. now right.
Qed.

Lemma run_stmt_simple (line : nat) (loads stores : list string) (outs : list output)
      (st : run_state) :
  (forall x, In x loads -> bound (env st) x = true) ->
  run_stmt (Simple line loads stores outs) st =
    ({| env := stores ++ env st; trace := trace st ++ outs |}, None).
Proof. intros H. cbn [run_stmt]. now rewrite first_unbound_covered. Qed.

Lemma run_stmt_foreach (line : nat) (iter_loads : list string) (target : string)
      (trips : nat) (body : list stmt) (st : run_state) :
  run_stmt (ForEach line iter_loads target trips body) st =
  match first_unbound (env st) iter_loads with
  | Some x => (st, Some (line, x))
  | None =>
      repeat_run trips
        (fun st0 => run body {| env := target :: env st0; trace := trace st0 |}) st
  end.
Proof. reflexivity. Qed.

Lemma repeat_run_invariant (Inv : run_state -> Prop) (f : run_state -> outcome) :
  (forall st0, Inv st0 -> exists st1, f st0 = (st1, None) /\ Inv st1) ->
  forall (trips : nat) (st : run_state),
    Inv st -> exists st', repeat_run trips f st = (st', None) /\ Inv st'.
Proof.
  intros Hf. induction trips as [|trips IH]; intros st Hst; cbn [repeat_run].
  - now exists st.
  - destruct (Hf st Hst) as (st1 & -> & H1). now apply IH.
Qed.

Lemma run_skipn (prog : list stmt) :
  forall (n : nat) (st : run_state),
    snd (run (firstn n prog) st) = None ->
    run prog st = run (skipn n prog) (fst (run (firstn n prog) st)).
Proof.
  induction prog as [|s prog IH]; intros [|n] st H; try reflexivity.
  cbn [firstn skipn run] in *.
  destruct (run_stmt s st) as [st' [failed|]]; [discriminate H|].
  now apply IH.
Qed.

Lemma covers_cons (a : string) (names : list string) :
  (forall x, In x loop_names -> bound names x = true) ->
  forall x, In x loop_names -> bound (a :: names) x = true.
Proof. intros H x Hx. rewrite bound_cons, (H x Hx). apply orb_true_r. Qed.

Ltac covered H :=
  let x := fresh "x" in
  let Hin := fresh "Hin" in
  intros x Hin; cbn [In] in Hin;
  repeat (destruct Hin as [<- | Hin]);
  try (now destruct Hin);
  first
    [ rewrite bound_cons, String.eqb_refl; reflexivity
    | rewrite ?bound_cons;
      rewrite H by (apply mem_in; vm_compute; reflexivity);
      rewrite ?orb_true_r; reflexivity ].

(** X26: [ps1_3cd.py] lacks exactly three names.  In a session that binds
    [simulate_markov_chain_fixed_start], [gamma_values] and [seed]
    beforehand the file runs to its last line without a [NameError],
    however many values the loop goes through.  With the first alone it
    stops at the loop of line 76, for [gamma_values]; with the first two,
    and a list that is not empty, at line 106, for [seed]. *)
Theorem script_runs_in_a_session (trips : nat) :
  snd (run (ps1_3cd trips) session_state) = None /\
  snd (run (ps1_3cd trips)
         {| env := ["simulate_markov_chain_fixed_start"%string]; trace := [] |}) =
    Some (76%nat, "gamma_values"%string) /\
  snd (run (ps1_3cd (S trips))
         {| env := ["simulate_markov_chain_fixed_start"; "gamma_values"]%string;
            trace := [] |}) =
    Some (106%nat, "seed"%string).
Proof.
  split; [|split; vm_compute; reflexivity].
  rewrite (@run_skipn (ps1_3cd trips) 32 session_state) by (vm_compute; reflexivity).
  remember (fst (run (firstn 32 (ps1_3cd trips)) session_state)) as st1 eqn:E1.
  vm_compute in E1.
  remember (skipn 32 (ps1_3cd trips)) as rest eqn:Er. vm_compute in Er. subst rest.
  assert (C1 : forall x, In x loop_names -> bound (env st1) x = true).
  { subst st1. cbn [env]. intros x Hx.
    match goal with
    | |- bound ?e x = true =>
        revert x Hx; apply (proj1 (forallb_forall (bound e) loop_names))
    end.
    vm_compute. reflexivity. }
  clear E1. cbn [run]. rewrite run_stmt_foreach.
  rewrite first_unbound_covered by covered C1.
  match goal with
  | |- context [repeat_run trips ?f st1] =>
      destruct (@repeat_run_invariant
                  (fun st => forall x, In x loop_names -> bound (env st) x = true) f)
        with (trips := trips) (st := st1) as (st2 & E2 & C2)
  end.
  - intros st0 H0. cbn [run].
    rewrite run_stmt_simple by (cbn [env]; covered H0). cbn [env trace app].
    rewrite run_stmt_simple by (cbn [env]; covered H0). cbn [env trace app].
    rewrite run_stmt_simple by (cbn [env]; covered H0). cbn [env trace app].
    rewrite run_stmt_simple by (cbn [env]; covered H0). cbn [env trace app].
    rewrite run_stmt_simple by (cbn [env]; covered H0). cbn [env trace app].
    rewrite run_stmt_simple by (cbn [env]; covered H0). cbn [env trace app run_stmt].
    rewrite first_unbound_covered by covered H0. cbn [env trace app].
    rewrite first_unbound_covered by covered H0.
    eexists. split; [reflexivity|]. cbn [env]. repeat apply covers_cons. exact H0.
  - exact C1.
  - rewrite E2.
    rewrite run_stmt_simple by covered C2. cbn [env trace app].
    rewrite run_stmt_simple by (cbn [env]; covered C2). cbn [env trace app].
    rewrite run_stmt_simple by (cbn [env]; covered C2). cbn [env trace app].
    rewrite run_stmt_simple by (cbn [env]; covered C2). cbn [env trace app].
    rewrite run_stmt_simple by (cbn [env]; covered C2). reflexivity.
Qed.
